(** * uvb76_gen: the cipher and number-group pipeline of [crypto.py],
      with the group parsers of [crypto.py] and [russian.py].

    Python values are embedded as follows.
    - [int] is [Z] (unbounded); [//] and [%] with a positive divisor are
      [Z.div] and [Z.modulo] (both round towards minus infinity).
    - [str] is the list of its code points, each an [N].
    - [list[int]] is [list Z], [list[str]] is [list str].
    - A raised exception is the [Raise] branch of [res]; the exception
      classes the pipeline can raise are the constructors of [exn].
    - The generator object returned by [xorshift32] is its state [x].

    What belongs to the interpreter and its libraries rather than to the
    repository (the Unicode character tables above U+007F and SHA-256 of a
    UTF-8 encoding) is gathered in the class [Runtime]; every definition and
    theorem is stated for an arbitrary runtime. *)

From Stdlib Require Import ZArith NArith List Bool Lia String Ascii.
Import ListNotations.
Open Scope Z_scope.

(** ** Strings *)

Definition str := list N.

(** An ASCII literal as a [str]. *)
Definition lit (s : string) : str := map N_of_ascii (list_ascii_of_string s).

Definition str_eqb (s t : str) : bool :=
  if list_eq_dec N.eq_dec s t then true else false.

Definition len {A : Type} (l : list A) : Z := Z.of_nat (List.length l).

Definition ord (ch : N) : Z := Z.of_N ch.

(** ** Exceptions *)

Inductive uvb76_msg : Type :=
| KeyMustContainLetter            (* "Key must contain at least one A-Z letter." *)
| InvalidGroup (g : str)          (* f"Invalid group: {g}" *)
| TripletOutOfRange (g : str)     (* f"Decoded triplet out of range for group={g}" *)
| SymbolsOutOfRange.              (* "Decoded symbols include out-of-range values." *)

Inductive value_msg : Type :=
| ChrArgNotInRange                (* chr() arg not in range(0x110000) *)
| TrailingDigits                  (* "Trailing digits not forming a complete 5-digit group." *)
| TrailingWords                   (* "Trailing Russian digit words not forming ..." *)
| NoGroups                        (* "No groups could be parsed from input." *)
| IntMaxStrDigits.                (* "Exceeds the limit (4300 digits) for integer string conversion" *)

Inductive exn : Type :=
| Uvb76GenError (m : uvb76_msg)
| ValueError (m : value_msg)
| ZeroDivisionError
| IndexError
| UnicodeEncodeError.             (* a subclass of ValueError, kept apart *)

Inductive res (A : Type) : Type :=
| Ok (a : A)
| Raise (e : exn).
Arguments Ok {A} a.
Arguments Raise {A} e.

Definition bind {A B : Type} (m : res A) (k : A -> res B) : res B :=
  match m with
  | Ok a => k a
  | Raise e => Raise e
  end.

Declare Scope res_scope.
Delimit Scope res_scope with res.
Notation "x <- m ;; k" := (bind m (fun x => k))
  (at level 61, m at next level, right associativity) : res_scope.
Open Scope res_scope.

(** The kind of an outcome: the value returned, or which error was raised
    with the quoted token left out of the message. *)
Inductive kind : Type :=
| KKey | KInvalidGroup | KTriplet | KSymbols | KValue (m : value_msg)
| KZeroDivision | KIndex | KUnicodeEncode.

Definition exn_kind (e : exn) : kind :=
  match e with
  | Uvb76GenError KeyMustContainLetter => KKey
  | Uvb76GenError (InvalidGroup _) => KInvalidGroup
  | Uvb76GenError (TripletOutOfRange _) => KTriplet
  | Uvb76GenError SymbolsOutOfRange => KSymbols
  | ValueError m => KValue m
  | ZeroDivisionError => KZeroDivision
  | IndexError => KIndex
  | UnicodeEncodeError => KUnicodeEncode
  end.

Definition outcome {A : Type} (r : res A) : A + kind :=
  match r with
  | Ok a => inl a
  | Raise e => inr (exn_kind e)
  end.

(** ** Python primitives on [int] and [list] *)

(** [a % b] *)
Definition py_mod (a b : Z) : res Z :=
  if b =? 0 then Raise ZeroDivisionError else Ok (a mod b).

(** [l[j]], negative indices counting from the end. *)
Definition getitem {A : Type} (l : list A) (j : Z) : res A :=
  let j' := if j <? 0 then j + len l else j in
  if (j' <? 0) || (len l <=? j') then Raise IndexError
  else match nth_error l (Z.to_nat j') with
       | Some v => Ok v
       | None => Raise IndexError
       end.

(** [l[i]] for an index within the list. *)
Definition at_ (l : list Z) (i : Z) : Z := nth (Z.to_nat i) l 0.

(** [chr(n)] *)
Definition chr (n : Z) : res N :=
  if (0 <=? n) && (n <? 1114112) then Ok (Z.to_N n)
  else Raise (ValueError ChrArgNotInRange).

(** ** The interpreter's tables *)

Class Runtime : Type := {
  (** [ch.upper()] for a code point above U+007F *)
  unicode_upper : N -> str;
  (** [ch.isspace()] for a code point above U+007F *)
  unicode_isspace : N -> bool;
  (** the decimal value of a code point above U+007F of category Nd *)
  unicode_decimal : N -> option Z;
  (** whether a code point above U+007F matches [\w] *)
  unicode_isword : N -> bool;
  (** [hashlib.sha256(s.encode("utf-8")).digest()], a list of bytes, for a
      string [s] that UTF-8 can encode *)
  sha256_utf8 : str -> list Z
}.

(** ** A runtime for evaluation

    SHA-256 (FIPS 180-4) over a list of bytes, and the UTF-8 encoder, so
    that the definitions can be run on concrete keys. Words are
    non-negative [Z] below [2 ^ 32]. *)

Module Sha256.

Definition w32 (x : Z) : Z := Z.land x 4294967295.

Definition rotr (n x : Z) : Z :=
  Z.lor (Z.shiftr x n) (w32 (Z.shiftl x (32 - n))).

Definition Ch (x y z : Z) : Z :=
  Z.lxor (Z.land x y) (Z.land (w32 (Z.lnot x)) z).

Definition Maj (x y z : Z) : Z :=
  Z.lxor (Z.lxor (Z.land x y) (Z.land x z)) (Z.land y z).

Definition Sigma0 (x : Z) : Z :=
  Z.lxor (Z.lxor (rotr 2 x) (rotr 13 x)) (rotr 22 x).

Definition Sigma1 (x : Z) : Z :=
  Z.lxor (Z.lxor (rotr 6 x) (rotr 11 x)) (rotr 25 x).

Definition sigma0 (x : Z) : Z :=
  Z.lxor (Z.lxor (rotr 7 x) (rotr 18 x)) (Z.shiftr x 3).

Definition sigma1 (x : Z) : Z :=
  Z.lxor (Z.lxor (rotr 17 x) (rotr 19 x)) (Z.shiftr x 10).

Definition K : list Z :=
  [
    1116352408; 1899447441; 3049323471; 3921009573; 961987163; 1508970993;
    2453635748; 2870763221; 3624381080; 310598401; 607225278; 1426881987;
    1925078388; 2162078206; 2614888103; 3248222580; 3835390401; 4022224774;
    264347078; 604807628; 770255983; 1249150122; 1555081692; 1996064986;
    2554220882; 2821834349; 2952996808; 3210313671; 3336571891; 3584528711;
    113926993; 338241895; 666307205; 773529912; 1294757372; 1396182291;
    1695183700; 1986661051; 2177026350; 2456956037; 2730485921; 2820302411;
    3259730800; 3345764771; 3516065817; 3600352804; 4094571909; 275423344;
    430227734; 506948616; 659060556; 883997877; 958139571; 1322822218;
    1537002063; 1747873779; 1955562222; 2024104815; 2227730452; 2361852424;
    2428436474; 2756734187; 3204031479; 3329325298
  ].

Definition H0 : list Z :=
  [
    1779033703; 3144134277; 1013904242; 2773480762;
    1359893119; 2600822924; 528734635; 1541459225
  ].

(** The message followed by 0x80, zero bytes up to 56 modulo 64, and the
    bit length on eight bytes, most significant first. *)
Definition be_bytes (n : nat) (v : Z) : list Z :=
  map (fun i => Z.shiftr v (8 * Z.of_nat (n - 1 - i)) mod 256) (seq 0 n).

Definition pad (msg : list Z) : list Z :=
  let l := Z.of_nat (List.length msg) in
  let zeros := Z.to_nat ((55 - l) mod 64) in
  msg ++ [128] ++ repeat 0 zeros ++ be_bytes 8 (8 * l).

Fixpoint words (bs : list Z) : list Z :=
  match bs with
  | a :: b :: c :: d :: r =>
      (((a * 256 + b) * 256 + c) * 256 + d) :: words r
  | _ => []
  end.

(** The message schedule, last word first. *)
Fixpoint schedule (n : nat) (w : list Z) : list Z :=
  match n with
  | O => w
  | S n' =>
      let t := w32 (sigma1 (nth 1 w 0) + nth 6 w 0
                    + sigma0 (nth 14 w 0) + nth 15 w 0) in
      schedule n' (t :: w)
  end.

Definition round (s : list Z) (kw : Z * Z) : list Z :=
  match s with
  | [a; b; c; d; e; f; g; h] =>
      let t1 := h + Sigma1 e + Ch e f g + fst kw + snd kw in
      let t2 := Sigma0 a + Maj a b c in
      [w32 (t1 + t2); a; b; c; w32 (d + t1); e; f; g]
  | _ => s
  end.

Definition compress (h : list Z) (block : list Z) : list Z :=
  let w := rev (schedule 48 (rev (words block))) in
  let s := fold_left round (combine K w) h in
  map (fun p => w32 (fst p + snd p)) (combine h s).

Fixpoint blocks (n : nat) (bs : list Z) (h : list Z) : list Z :=
  match n with
  | O => h
  | S n' => blocks n' (skipn 64 bs) (compress h (firstn 64 bs))
  end.

Definition digest (msg : list Z) : list Z :=
  let p := pad msg in
  flat_map (be_bytes 4) (blocks (List.length p / 64) p H0).

End Sha256.

(** [s.encode("utf-8")] for a string without surrogates. *)
Definition utf8 (s : str) : list Z :=
  flat_map
    (fun ch =>
       let c := Z.of_N ch in
       if c <? 128 then [c]
       else if c <? 2048 then [192 + c / 64; 128 + c mod 64]
       else if c <? 65536
       then [224 + c / 4096; 128 + (c / 64) mod 64; 128 + c mod 64]
       else [240 + c / 262144; 128 + (c / 4096) mod 64;
             128 + (c / 64) mod 64; 128 + c mod 64])
    s.

(** The runtime on ASCII text: SHA-256 of the UTF-8 encoding as it is, and
    tables in which no character above U+007F is a space, a digit or a
    word character, or changes under [upper]. *)
Definition ascii_runtime : Runtime := {|
  unicode_upper := fun c => [c];
  unicode_isspace := fun _ => false;
  unicode_decimal := fun _ => None;
  unicode_isword := fun _ => false;
  sha256_utf8 := fun s => Sha256.digest (utf8 s)
|}.

(** ** Results of the formatters *)

(** The exceptions the formatters can raise. *)
Inductive fmt_exn : Type :=
| KeyError (k : str)        (* a failed lookup [RUS_DIGIT_WORD[k]] *)
| RangeStepZero             (* ValueError: range() arg 3 must not be zero *)
| PerLineNotPositive.       (* ValueError("per_line must be >= 1") *)

Inductive fres (A : Type) : Type :=
| Done (a : A)
| Fail (e : fmt_exn).
Arguments Done {A} a.
Arguments Fail {A} e.

Definition fbind {A B : Type} (m : fres A) (k : A -> fres B) : fres B :=
  match m with
  | Done a => k a
  | Fail e => Fail e
  end.

(** [[f(x) for x in l]] for an [f] that can raise. *)
Fixpoint fmap_list {A B : Type} (f : A -> fres B) (l : list A)
  : fres (list B) :=
  match l with
  | [] => Done []
  | x :: r => fbind (f x) (fun y =>
              fbind (fmap_list f r) (fun ys => Done (y :: ys)))
  end.

(** Case analysis on the comparisons of code points in the goal, for use
    outside the section below. *)
Ltac cp_cases :=
  repeat match goal with
    | |- context [(?a <=? ?b)%N] => destruct (N.leb_spec a b)
    | |- context [(?a <? ?b)%N] => destruct (N.ltb_spec a b)
    | |- context [(?a =? ?b)%N] => destruct (N.eqb_spec a b)
    end; simpl; try reflexivity; try discriminate; try lia.

Section Pipeline.

Context {rt : Runtime}.

(** *** Character classes *)

Definition is_ascii (c : N) : bool := (c <? 128)%N.

Definition is_AZ (c : N) : bool := ((65 <=? c) && (c <=? 90))%N.

Definition is_az (c : N) : bool := ((97 <=? c) && (c <=? 122))%N.

Definition is_09 (c : N) : bool := ((48 <=? c) && (c <=? 57))%N.

Definition upper_char (c : N) : str :=
  if is_ascii c then (if is_az c then [(c - 32)%N] else [c])
  else unicode_upper c.

(** [s.upper()] *)
Definition upper (s : str) : str := flat_map upper_char s.

(** [ch.isspace()]: TAB, LF, VT, FF, CR, FS, GS, RS, US and SPACE below
    U+0080. *)
Definition isspace (c : N) : bool :=
  if is_ascii c
  then (((9 <=? c) && (c <=? 13)) || ((28 <=? c) && (c <=? 32)))%N
  else unicode_isspace c.

(** The decimal value of a digit, [None] for any other character. *)
Definition decimal (c : N) : option Z :=
  if is_ascii c then (if is_09 c then Some (ord c - 48) else None)
  else unicode_decimal c.

(** *** Sanitizer *)

(** [_AZ_RE.sub("", s)] with [_AZ_RE = re.compile(r"[^A-Z]")] *)
Definition AZ_RE_sub_empty (s : str) : str := filter is_AZ s.

Definition sanitize_plaintext (text : str) : str :=
  AZ_RE_sub_empty (upper text).

Definition sanitize_key (key : str) : res str :=
  let k := AZ_RE_sub_empty (upper key) in
  if len k =? 0 then Raise (Uvb76GenError KeyMustContainLetter)
  else Ok k.

Definition letters_to_nums (text_az : str) : list Z :=
  map (fun ch => ord ch - 65) text_az.

Fixpoint nums_to_letters (nums : list Z) : res str :=
  match nums with
  | [] => Ok []
  | n :: rest =>
      ch <- chr (65 + n) ;;
      s <- nums_to_letters rest ;;
      Ok (ch :: s)
  end.

(** *** Substitution cipher *)

(** The body of [for i, p in enumerate(plain)], [out] being the list built
    so far. *)
Fixpoint vigenere_encrypt_loop (i : Z) (plain key out : list Z)
  : res (list Z) :=
  match plain with
  | [] => Ok out
  | p :: rest =>
      j <- py_mod i (len key) ;;
      k <- getitem key j ;;
      vigenere_encrypt_loop (i + 1) rest key (out ++ [(p + k) mod 26])
  end.

(** The list whose entry [n] is [f l[n] key[(i + n) mod len(key)]]: what
    the two loops below append to [out], as the specification words it. *)
Fixpoint shifted (f : Z -> Z -> Z) (i : Z) (l key : list Z) : list Z :=
  match l with
  | [] => []
  | p :: r => f p (at_ key (i mod len key)) :: shifted f (i + 1) r key
  end.

Definition vigenere_encrypt (plain key : list Z) : res (list Z) :=
  vigenere_encrypt_loop 0 plain key [].

Fixpoint vigenere_decrypt_loop (i : Z) (cipher key out : list Z)
  : res (list Z) :=
  match cipher with
  | [] => Ok out
  | c :: rest =>
      j <- py_mod i (len key) ;;
      k <- getitem key j ;;
      vigenere_decrypt_loop (i + 1) rest key (out ++ [(c - k + 26) mod 26])
  end.

Definition vigenere_decrypt (cipher key : list Z) : res (list Z) :=
  vigenere_decrypt_loop 0 cipher key [].

(** *** Seeded stream generator *)

Definition MASK32 : Z := 4294967295.   (* 0xFFFFFFFF *)

(** [int.from_bytes(bs, byteorder="big", signed=False)] *)
Definition from_bytes_big (bs : list Z) : Z :=
  fold_left (fun acc b => acc * 256 + b) bs 0.

(** A lone surrogate, U+D800 to U+DFFF: [s.encode("utf-8")] raises
    [UnicodeEncodeError] on a string that holds one. *)
Definition is_surrogate (c : N) : bool := ((55296 <=? c) && (c <=? 57343))%N.

Definition _seed32 (s : str) : res Z :=
  if existsb is_surrogate s then Raise UnicodeEncodeError
  else
    let h := sha256_utf8 s in
    Ok (from_bytes_big (firstn 4 h)).

(** The generator of [xorshift32(seed)] before its first [next]. *)
Definition xorshift32 (seed : Z) : Z := Z.land seed MASK32.

(** One turn of the generator's [while True] loop: the value yielded and
    the state left behind. *)
Definition next (x : Z) : Z * Z :=
  let x := Z.lxor x (Z.land (Z.shiftl x 13) MASK32) in
  let x := Z.lxor x (Z.land (Z.shiftr x 17) MASK32) in
  let x := Z.lxor x (Z.land (Z.shiftl x 5) MASK32) in
  (Z.land x MASK32, x).

(** The offset drawn for the [k]-th group (counting from 0) by a
    generator in state [x]. *)
Fixpoint nth_offset (x : Z) (k : nat) : Z :=
  match k with
  | O => fst (next x) mod 80318
  | S k' => nth_offset (snd (next x)) k'
  end.

(** The generator state after [k] draws. *)
Fixpoint after_draws (x : Z) (k : nat) : Z :=
  match k with
  | O => x
  | S k' => after_draws (snd (next x)) k'
  end.

(** *** Decimal text of an [int] *)

Definition digit_char (d : Z) : N := Z.to_N (48 + d).

Fixpoint digits_loop (fuel : nat) (n : Z) (acc : str) : str :=
  match fuel with
  | O => acc
  | S f =>
      let acc' := digit_char (n mod 10) :: acc in
      if n <? 10 then acc' else digits_loop f (n / 10) acc'
  end.

(** [str(n)] for [0 <= n]; a number below [2 ^ k] has at most [k]
    decimal digits, which bounds the loop. *)
Definition str_of_nonneg (n : Z) : str :=
  digits_loop (S (Z.to_nat (Z.log2 n))) n [].

(** The decimal text of [g]: what [str(g)] returns when it returns. *)
Definition str_of_int (g : Z) : str :=
  if g <? 0 then 45%N :: str_of_nonneg (- g) else str_of_nonneg g.

(** [sys.get_int_max_str_digits()], at its default. *)
Definition INT_MAX_STR_DIGITS : Z := 4300.

(** [str(g)]: a [ValueError] when [g] has more digits than the limit. *)
Definition py_str (g : Z) : res str :=
  if INT_MAX_STR_DIGITS <? len (str_of_nonneg (Z.abs g))
  then Raise (ValueError IntMaxStrDigits)
  else Ok (str_of_int g).

(** [s.zfill(width)] *)
Definition zfill (width : Z) (s : str) : str :=
  if width <=? len s then s
  else
    let fill := repeat 48%N (Z.to_nat (width - len s)) in
    match s with
    | c :: r => if ((c =? 43) || (c =? 45))%N then c :: fill ++ r
                else fill ++ s
    | [] => fill
    end.

(** *** Parsing an [int] *)

Fixpoint lstrip_by (sp : N -> bool) (s : str) : str :=
  match s with
  | [] => []
  | c :: r => if sp c then lstrip_by sp r else s
  end.

Definition strip_by (sp : N -> bool) (s : str) : str :=
  rev (lstrip_by sp (rev (lstrip_by sp s))).

(** [s.strip()] *)
Definition strip (s : str) : str := strip_by isspace s.

(** The blanks [int()] skips at both ends: TAB, LF, VT, FF, CR and SPACE
    below U+0080, the Unicode spaces above. *)
Definition int_isspace (c : N) : bool :=
  if is_ascii c then (((9 <=? c) && (c <=? 13)) || (c =? 32))%N
  else unicode_isspace c.

(** Digits with single underscores between them; [prev_us] records that
    the previous character was an underscore. *)
Fixpoint int_digits (s : str) (acc : Z) (prev_us : bool) : option Z :=
  match s with
  | [] => if prev_us then None else Some acc
  | c :: r =>
      if (c =? 95)%N then
        if prev_us then None else int_digits r acc true
      else
        match decimal c with
        | Some d => int_digits r (10 * acc + d) false
        | None => None
        end
  end.

(** The number of digits of a literal, its underscores left out. *)
Definition count_digits (s : str) : Z :=
  len (filter (fun c => negb (c =? 95)%N) s).

(** A literal of more digits than the limit is refused like any other
    malformed one. *)
Definition int_body (s : str) : option Z :=
  match s with
  | [] => None
  | c :: _ =>
      if (c =? 95)%N then None
      else if INT_MAX_STR_DIGITS <? count_digits s then None
      else int_digits s 0 false
  end.

(** [int(s, 10)]; [None] stands for the [ValueError]. *)
Definition py_int (s : str) : option Z :=
  match strip_by int_isspace s with
  | c :: r =>
      if (c =? 45)%N then option_map Z.opp (int_body r)
      else if (c =? 43)%N then int_body r
      else int_body (c :: r)
  | [] => None
  end.

(** *** Group packer *)

(** [while (len(nums) % 3) != 0: nums.append(pad)]; [fuel] bounds the
    number of turns. *)
Fixpoint pad_loop (fuel : nat) (nums : list Z) : list Z :=
  match fuel with
  | O => nums
  | S f => if negb (len nums mod 3 =? 0) then pad_loop f (nums ++ [26])
           else nums
  end.

(** The body of [for i in range(0, len(nums), 3)], taking [nums[i]],
    [nums[i + 1]] and [nums[i + 2]] off the front of what is left of
    [nums]; [x] is the generator, [groups] the list built so far. *)
Fixpoint encode_loop (nums : list Z) (x : Z) (groups : list str)
  : res (list str) :=
  match nums with
  | [] => Ok groups
  | a :: b :: c :: rest =>
      let n := a * 27 * 27 + b * 27 + c in
      let (v, x') := next x in
      let off := v mod 80318 in
      let g := n + off in
      s <- py_str g ;;
      encode_loop rest x' (groups ++ [zfill 5 s])
  | _ => Raise IndexError
  end.

Definition encode_groups (cipher_nums : list Z) (mask_key : str)
  : res (list str) :=
  let nums := pad_loop 2 cipher_nums in
  seed <- _seed32 mask_key ;;
  let prng := xorshift32 seed in
  encode_loop nums prng [].

(** *** Group unpacker *)

(** The body of [for g in groups] on one group: generator and output list
    before, generator and output list after. *)
Definition decode_group (g : str) (st : Z * list Z) : res (Z * list Z) :=
  let (x, out) := st in
  if str_eqb (strip g) [] then Ok (x, out)
  else
    match py_int g with
    | None => Raise (Uvb76GenError (InvalidGroup g))
    | Some gi =>
        let (v, x') := next x in
        let off := v mod 80318 in
        let n := gi - off in
        if (n <? 0) || (n >? 19682)
        then Raise (Uvb76GenError (TripletOutOfRange g))
        else
          let a := n / (27 * 27) in
          let b := (n / 27) mod 27 in
          let c := n mod 27 in
          Ok (x', out ++ [a; b; c])
    end.

Fixpoint decode_loop (groups : list str) (st : Z * list Z)
  : res (Z * list Z) :=
  match groups with
  | [] => Ok st
  | g :: rest =>
      st' <- decode_group g st ;;
      decode_loop rest st'
  end.

(** [while len(out) > 0 and out[-1] == 26: out.pop()], on the reversed
    list. *)
Fixpoint pop_loop (tuo : list Z) : list Z :=
  match tuo with
  | [] => []
  | v :: r => if v =? 26 then pop_loop r else tuo
  end.

Definition pop_padding (out : list Z) : list Z := rev (pop_loop (rev out)).

(** [for v in out: if v < 0 or v > 25: raise ...] *)
Fixpoint check_symbols (out : list Z) : res unit :=
  match out with
  | [] => Ok tt
  | v :: r =>
      if (v <? 0) || (v >? 25)
      then Raise (Uvb76GenError SymbolsOutOfRange)
      else check_symbols r
  end.

(** The flat sequence of all unpacked triplets, before any stripping. *)
Definition decode_flat (groups : list str) (mask_key : str)
  : res (list Z) :=
  seed <- _seed32 mask_key ;;
  let prng := xorshift32 seed in
  st <- decode_loop groups (prng, []) ;;
  Ok (snd st).

Definition decode_groups (groups : list str) (mask_key : str)
  : res (list Z) :=
  out <- decode_flat groups mask_key ;;
  let out := pop_padding out in
  _ <- check_symbols out ;;
  Ok out.

(** *** Pipeline facade *)

Record CipherConfig : Type := { key : str; mask_key : str }.

Definition encrypt_to_groups (plaintext : str) (cfg : CipherConfig)
  : res (list str) :=
  let clean := sanitize_plaintext plaintext in
  k <- sanitize_key (key cfg) ;;
  mk <- sanitize_key (mask_key cfg) ;;
  let p := letters_to_nums clean in
  let key_nums := letters_to_nums k in
  c <- vigenere_encrypt p key_nums ;;
  encode_groups c mk.

Definition decrypt_from_groups (groups : list str) (cfg : CipherConfig)
  : res str :=
  k <- sanitize_key (key cfg) ;;
  mk <- sanitize_key (mask_key cfg) ;;
  cipher_nums <- decode_groups groups mk ;;
  let key_nums := letters_to_nums k in
  plain_nums <- vigenere_decrypt cipher_nums key_nums ;;
  nums_to_letters plain_nums.

(** *** Group-token parsers *)

(** [re.split] on a pattern [C+] for a character class [C] given by [sep]:
    the pieces between maximal runs of separators, empty pieces at either
    end included. [cur] is the piece being read, reversed; [in_sep] says
    that the previous character was a separator. *)
Fixpoint re_split_loop (sep : N -> bool) (s : str) (cur : str)
  (in_sep : bool) : list str :=
  match s with
  | [] => [rev cur]
  | c :: r =>
      if sep c then
        if in_sep then re_split_loop sep r cur true
        else rev cur :: re_split_loop sep r [] true
      else re_split_loop sep r (c :: cur) false
  end.

Definition re_split (sep : N -> bool) (s : str) : list str :=
  re_split_loop sep s [] false.

Definition nonempty (p : str) : bool := negb (str_eqb p []).

(** [crypto.parse_groups_text] *)
Definition parse_groups_text (text : str) : list str :=
  let parts := re_split isspace (strip text) in
  filter nonempty parts.

(** [\d] *)
Definition is_digit (c : N) : bool :=
  match decimal c with Some _ => true | None => false end.

(** [\w]: letters, digits and the underscore below U+0080. *)
Definition is_word (c : N) : bool :=
  if is_ascii c then is_09 c || is_AZ c || is_az c || (c =? 95)%N
  else unicode_isword c.

(** [re.findall(r"\d", text)]: one string of length one per digit. *)
Definition singles (s : str) : list str := map (fun c => [c]) s.

Definition findall_digit (text : str) : list str :=
  singles (filter is_digit text).

Definition RUS_DIGIT_WORD : list (str * str) :=
  [ (lit "0", [1053; 1054; 1051; 1068]%N);               (* NOL' *)
    (lit "1", [1054; 1044; 1048; 1053]%N);               (* ODIN *)
    (lit "2", [1044; 1042; 1040]%N);                     (* DVA *)
    (lit "3", [1058; 1056; 1048]%N);                     (* TRI *)
    (lit "4", [1063; 1045; 1058; 1067; 1056; 1045]%N);   (* CHETYRE *)
    (lit "5", [1055; 1071; 1058; 1068]%N);               (* PYAT' *)
    (lit "6", [1064; 1045; 1057; 1058; 1068]%N);         (* SHEST' *)
    (lit "7", [1057; 1045; 1052; 1068]%N);               (* SEM' *)
    (lit "8", [1042; 1054; 1057; 1045; 1052; 1068]%N);   (* VOSEM' *)
    (lit "9", [1044; 1045; 1042; 1071; 1058; 1068]%N) ]. (* DEVYAT' *)

(** [{v: k for k, v in RUS_DIGIT_WORD.items()}] *)
Definition RUS_WORD_DIGIT : list (str * str) :=
  map (fun kv => (snd kv, fst kv)) RUS_DIGIT_WORD.

Fixpoint dict_get (d : list (str * str)) (k : str) : option str :=
  match d with
  | [] => None
  | (k', v) :: r => if str_eqb k k' then Some v else dict_get r k
  end.

(** The fast path's [for d in raw_digits]. *)
Fixpoint chunk_loop (raw_digits : list str) (groups buf : list str)
  : list str * list str :=
  match raw_digits with
  | [] => (groups, buf)
  | d :: r =>
      let buf := buf ++ [d] in
      if len buf =? 5 then chunk_loop r (groups ++ [List.concat buf]) []
      else chunk_loop r groups buf
  end.

(** [while len(digits_buf) >= 5: ...]; each turn removes five entries, so
    [length digits_buf] turns are enough. *)
Fixpoint flush_loop (fuel : nat) (digits_buf groups_out : list str)
  : list str * list str :=
  match fuel with
  | O => (digits_buf, groups_out)
  | S f =>
      if 5 <=? len digits_buf
      then flush_loop f (skipn 5 digits_buf)
             (groups_out ++ [List.concat (firstn 5 digits_buf)])
      else (digits_buf, groups_out)
  end.

(** The word path's [for t in tokens]. *)
Fixpoint word_loop (tokens : list str) (digits_buf groups_out : list str)
  : list str * list str :=
  match tokens with
  | [] => (digits_buf, groups_out)
  | t :: r =>
      let digits_buf :=
        match dict_get RUS_WORD_DIGIT t with
        | Some d => digits_buf ++ [d]
        | None => digits_buf
        end in
      let (digits_buf, groups_out) :=
        flush_loop (List.length digits_buf) digits_buf groups_out in
      word_loop r digits_buf groups_out
  end.

(** [russian.parse_groups_maybe_ru] *)
Definition parse_groups_maybe_ru (text : str) : res (list str) :=
  let raw_digits := findall_digit text in
  if 5 <=? len raw_digits then
    let (groups, buf) := chunk_loop raw_digits [] [] in
    if negb (len buf =? 0)
    then Raise (ValueError TrailingDigits)
    else Ok groups
  else
    let tokens :=
      filter nonempty (re_split (fun c => negb (is_word c)) (upper text)) in
    let (digits_buf, groups_out) := word_loop tokens [] [] in
    if negb (len digits_buf =? 0) then Raise (ValueError TrailingWords)
    else if len groups_out =? 0 then Raise (ValueError NoGroups)
    else Ok groups_out.

(** *** Specification-side helpers *)

(** The number a digit string denotes, reading from [a]. *)
Definition dec_step (a : Z) (c : N) : Z := 10 * a + (ord c - 48).

Definition dec_value (s : str) : Z := fold_left dec_step s 0.

Definition all_09 (s : str) : Prop := Forall (fun c => is_09 c = true) s.

Definition in_0_25 (v : Z) : Prop := 0 <= v <= 25.

Definition in_0_26 (v : Z) : Prop := 0 <= v <= 26.

(** A group the decoder skips: [g.strip() == ""]. *)
Definition blank (g : str) : bool := str_eqb (strip g) [].

(** The groups the decoder does not skip, in order. *)
Definition tokens (groups : list str) : list str :=
  filter (fun g => negb (blank g)) groups.

(** Lists made of whole triplets. *)
Inductive Triples : list Z -> Prop :=
| Triples_nil : Triples []
| Triples_cons (a b c : Z) (rest : list Z) :
    Triples rest -> Triples (a :: b :: c :: rest).

(** The packer as the specification words it: triplet number [k] of the
    padded list is packed in base 27 and masked with offset number [k] of
    the generator started at [x0]. *)
Fixpoint encode_spec (nums : list Z) (x0 : Z) (k : nat) : list str :=
  match nums with
  | a :: b :: c :: rest =>
      zfill 5 (str_of_int (a * 27 * 27 + b * 27 + c + nth_offset x0 k))
      :: encode_spec rest x0 (S k)
  | _ => []
  end.

(** The unpacker as the specification words it, over the groups that are
    not skipped: group number [k] is unmasked with offset number [k] of
    the generator started at [x0]. *)
Fixpoint decode_spec (toks : list str) (x0 : Z) (k : nat) (out : list Z)
  : res (list Z) :=
  match toks with
  | [] => Ok out
  | g :: r =>
      match py_int g with
      | None => Raise (Uvb76GenError (InvalidGroup g))
      | Some gi =>
          let n := gi - nth_offset x0 k in
          if (n <? 0) || (n >? 19682)
          then Raise (Uvb76GenError (TripletOutOfRange g))
          else decode_spec r x0 (S k)
                 (out ++ [n / 729; (n / 27) mod 27; n mod 27])
      end
  end.

(** A group as the specification describes it: five ASCII digits that
    spell [n + off] for a packed triplet [n] and an offset [off]. *)
Definition group_shape (g : str) : Prop :=
  exists n off,
    0 <= n <= 19682 /\ 0 <= off <= 80317 /\ n + off < 100000 /\
    g = zfill 5 (str_of_int (n + off)) /\
    len g = 5 /\ all_09 g /\ dec_value g = n + off /\
    py_int g = Some (n + off).

(** A string that [s.encode("utf-8")] accepts: it holds no lone
    surrogate. *)
Definition encodable (s : str) : Prop := existsb is_surrogate s = false.

(** A key that keeps at least one letter A-Z when sanitized. *)
Definition has_letter (k : str) : Prop := AZ_RE_sub_empty (upper k) <> [].

Definition all_AZ (s : str) : Prop := Forall (fun c => is_AZ c = true) s.

(** Runs of five characters, a shorter run at the end left out. *)
Fixpoint chunks5 (ds : str) : list str :=
  match ds with
  | a :: b :: c :: d :: e :: r => [a; b; c; d; e] :: chunks5 r
  | _ => []
  end.

(** What [chunks5] leaves out. *)
Fixpoint rest5 (ds : str) : str :=
  match ds with
  | _ :: _ :: _ :: _ :: _ :: r => rest5 r
  | _ => ds
  end.

(** A character of a text made of literal digit tokens and the blanks
    between them. *)
Definition digit_or_space (c : N) : Prop :=
  is_09 c = true \/ (is_ascii c = true /\ isspace c = true).

(** The configuration of [tests/test_roundtrip.py]. *)
Definition BUZZERKEY : CipherConfig :=
  {| key := lit "BUZZERKEY"; mask_key := lit "BUZZERKEY" |}.

(** Case analysis on the comparisons of code points in the goal. *)
Ltac n_cases :=
  repeat match goal with
    | |- context [(?a <=? ?b)%N] => destruct (N.leb_spec a b)
    | |- context [(?a <? ?b)%N] => destruct (N.ltb_spec a b)
    | |- context [(?a =? ?b)%N] => destruct (N.eqb_spec a b)
    end; simpl; try reflexivity; try discriminate; try lia.

(** An unsigned 32-bit integer. *)
Definition uint32 (x : Z) : Prop := 0 <= x < 2 ^ 32.

(** A string of Python: every code point is below 0x110000. *)
Definition valid_str (s : str) : Prop := Forall (fun c => (c < 1114112)%N) s.

(** *** Formatters of [broadcast.py] and [russian.py], and the decode
    command of [cli.py] *)

Definition SP : str := [32%N].   (* " " *)
Definition NL : str := [10%N].   (* "\n" *)
Definition DOT : str := [46%N].  (* "." *)

(** [sep.join(l)] *)
Fixpoint join (sep : str) (l : list str) : str :=
  match l with
  | [] => []
  | [x] => x
  | x :: r => x ++ sep ++ join sep r
  end.

(** [l[i:j]]: each bound is counted from the end when negative and
    clipped to the list. *)
Definition slice {A : Type} (l : list A) (i j : Z) : list A :=
  let norm k := if k <? 0 then Z.max 0 (k + len l) else Z.min k (len l) in
  firstn (Z.to_nat (norm j - norm i)) (skipn (Z.to_nat (norm i)) l).

Fixpoint range_loop (fuel : nat) (i stop step : Z) : list Z :=
  match fuel with
  | O => []
  | S f =>
      if (if 0 <? step then i <? stop else stop <? i)
      then i :: range_loop f (i + step) stop step
      else []
  end.

(** [range(start, stop, step)]; its length is at most [|stop - start|]. *)
Definition py_range (start stop step : Z) : fres (list Z) :=
  if step =? 0 then Fail RangeStepZero
  else Done (range_loop (Z.to_nat (Z.abs (stop - start))) start stop step).

(** [broadcast.format_groups] *)
Definition format_groups (groups : list str) (per_line : Z) : fres str :=
  fbind (py_range 0 (len groups) per_line) (fun idx =>
  let lines :=
    map (fun i => join SP (slice groups i (i + per_line))) idx in
  Done (join NL lines ++ NL)).

(** [ch.isdigit()] for a code point above U+007F. *)
Variable unicode_isdigit : N -> bool.

Definition isdigit (c : N) : bool :=
  if is_ascii c then is_09 c else unicode_isdigit c.

(** [d[k]] *)
Definition dict_getitem (d : list (str * str)) (k : str) : fres str :=
  match dict_get d k with
  | Some v => Done v
  | None => Fail (KeyError k)
  end.

(** [russian.format_group_ru] *)
Definition format_group_ru (group : str) : fres str :=
  let digits := map (fun ch => [ch]) (filter isdigit (strip group)) in
  fbind (fmap_list (dict_getitem RUS_DIGIT_WORD) digits) (fun tokens =>
  Done (join (DOT ++ SP) tokens ++ DOT)).

(** [russian.format_groups_ru] *)
Definition format_groups_ru (groups : list str) (per_line : Z)
  : fres str :=
  if per_line <=? 0 then Fail PerLineNotPositive
  else
    fbind (py_range 0 (len groups) per_line) (fun idx =>
    fbind (fmap_list
             (fun i =>
                let chunk := slice groups i (i + per_line) in
                fbind (fmap_list format_group_ru chunk) (fun rs =>
                Done (join SP rs)))
             idx) (fun lines =>
    Done (join NL lines ++ NL))).

Definition RU_CODEWORDS : list (str * str) :=
  [
    ([65], [1040; 1053; 1053; 1040]);
    ([66], [1041; 1054; 1056; 1048; 1057]);
    ([67], [1062; 1045; 1053; 1058; 1056]);
    ([68], [1044; 1052; 1048; 1058; 1056; 1048; 1049]);
    ([69], [1045; 1051; 1045; 1053; 1040]);
    ([70], [1060; 1025; 1044; 1054; 1056]);
    ([71], [1043; 1056; 1048; 1043; 1054; 1056; 1048; 1049]);
    ([72], [1061; 1040; 1056; 1048; 1058; 1054; 1053]);
    ([73], [1048; 1056; 1048; 1053; 1040]);
    ([74], [1070; 1051; 1048; 1071]);
    ([75], [1050; 1054; 1053; 1057; 1058; 1040; 1053; 1058; 1048; 1053]);
    ([76], [1051; 1045; 1054; 1053; 1048; 1044]);
    ([77], [1052; 1048; 1061; 1040; 1048; 1051]);
    ([78], [1053; 1048; 1050; 1054; 1051; 1040; 1049]);
    ([79], [1054; 1051; 1045; 1043]);
    ([80], [1055; 1040; 1042; 1045; 1051]);
    ([81], [1050; 1042; 1040; 1047; 1040; 1056]);
    ([82], [1056; 1054; 1052; 1040; 1053]);
    ([83], [1057; 1045; 1056; 1043; 1045; 1049]);
    ([84], [1058; 1040; 1058; 1068; 1071; 1053; 1040]);
    ([85], [1059; 1051; 1068; 1071; 1053; 1040]);
    ([86], [1042; 1048; 1050; 1058; 1054; 1056]);
    ([87], [1042; 1040; 1051; 1045; 1056; 1048; 1049]);
    ([88], [1050; 1057; 1045; 1053; 1048; 1071]);
    ([89], [1071; 1050; 1054; 1042]);
    ([90], [1047; 1048; 1053; 1040; 1048; 1044; 1040])
  ]%N.

(** [russian.codewords_from_key] *)
Definition codewords_from_key (k : str) : list str :=
  flat_map
    (fun ch =>
       if is_AZ ch then
         match dict_get RU_CODEWORDS [ch] with
         | Some w => [w]
         | None => []
         end
       else [])
    (upper (strip k)).

(** [try: body / except Exception: handler] *)
Definition try_except {A : Type} (body handler : res A) : res A :=
  match body with
  | Ok a => Ok a
  | Raise _ => handler
  end.

(** [cli.decode], from the text read to the plaintext it prints:
    [--mask-key] defaults to [--key], the text is parsed with
    [parse_groups_text], with [parse_groups_maybe_ru] in the [except]
    branch, and the groups are decrypted. *)
Definition decode_plain (raw k : str) (mask : option str) : res str :=
  let mk := match mask with Some m => m | None => k end in
  let cfg := {| key := k; mask_key := mk |} in
  groups <- try_except (Ok (parse_groups_text raw))
              (parse_groups_maybe_ru raw) ;;
  decrypt_from_groups groups cfg.

(** The non-empty maximal runs of characters that are not separators:
    what is left of [re_split] once the empty pieces are dropped. *)
Fixpoint fields (sep : N -> bool) (s cur : str) : list str :=
  match s with
  | [] => match cur with [] => [] | _ => [rev cur] end
  | c :: r =>
      if sep c then
        match cur with
        | [] => fields sep r []
        | _ => rev cur :: fields sep r []
        end
      else fields sep r (c :: cur)
  end.

(** A token: not empty, and free of separators. *)
Definition clean (sep : N -> bool) (t : str) : Prop :=
  t <> [] /\ Forall (fun c => sep c = false) t.

(** [u] reads as the tokens [ts] in front of anything that is empty or
    starts with a separator. *)
Definition Toks (sep : N -> bool) (u : str) (ts : list str) : Prop :=
  forall tail,
    (tail = [] \/ exists c r, tail = c :: r /\ sep c = true) ->
    fields sep (u ++ tail) [] = ts ++ fields sep tail [].

(** A group as [encode_groups] writes it. *)
Definition five_digits (g : str) : Prop := len g = 5 /\ all_09 g.

(** The Russian word of an ASCII digit. *)
Definition rus_word (d : N) : str :=
  match dict_get RUS_DIGIT_WORD [d] with
  | Some w => w
  | None => []
  end.

(** What the character tables say of the capital letters U+0410 to
    U+042F and of U+0401, in which the digit words and the codewords are
    written: they are letters, unchanged by [upper], and neither digits
    nor spaces. *)
Definition cyrillic_capitals : Prop :=
  forall c, ((1040 <= c <= 1071) \/ c = 1025)%N ->
    unicode_upper c = [c] /\ unicode_isword c = true /\
    unicode_decimal c = None /\ unicode_isspace c = false.

(** No space turns into a letter A-Z under [upper]. *)
Definition spaces_are_caseless : Prop :=
  forall c, isspace c = true -> AZ_RE_sub_empty (upper_char c) = [].

(** A runtime that knows the basic Cyrillic letters besides ASCII. *)
Definition cyrillic_runtime : Runtime := {|
  unicode_upper :=
    fun c => if ((1072 <=? c) && (c <=? 1103))%N then [(c - 32)%N]
             else if (c =? 1105)%N then [1025%N] else [c];
  unicode_isspace := fun _ => false;
  unicode_decimal := fun _ => None;
  unicode_isword :=
    fun c => (((1040 <=? c) && (c <=? 1103)) || (c =? 1025) || (c =? 1105))%N;
  sha256_utf8 := fun s => Sha256.digest (utf8 s)
|}.

(** [format_group_ru] on ASCII digits: the words of the digits, a full
    stop after each and a space between. *)
Definition render_ru (g : str) : str :=
  join (DOT ++ SP) (map rus_word g) ++ DOT.

(** The separators of [_TOKEN_SPLIT_RE]. *)
Definition not_word (c : N) : bool := negb (is_word c).

(** A character that [upper] leaves alone and [\d] does not match. *)
Definition plain_char (c : N) : Prop :=
  upper_char c = [c] /\ is_digit c = false.

(** The characters of a text of Russian digit words. *)
Definition word_text_char (c : N) : Prop :=
  (c = 46 \/ c = 32 \/ c = 10 \/ 1040 <= c <= 1071)%N.

(** The codeword of a letter A-Z. *)
Definition codeword (c : N) : str :=
  match dict_get RU_CODEWORDS [c] with
  | Some w => w
  | None => []
  end.

(** A digit word with its full stop, as it stands between blanks. *)
Definition dot_word (d : N) : str := rus_word d ++ DOT.

(** ** Properties *)

(** *** Primitives *)

Lemma len_nonneg {A : Type} (l : list A) : 0 <= len l.
Proof. unfold len. lia. Qed.

Lemma len_app {A : Type} (l m : list A) : len (l ++ m) = len l + len m.
Proof. unfold len. rewrite length_app. lia. Qed.

Lemma len_cons {A : Type} (a : A) (l : list A) : len (a :: l) = 1 + len l.
Proof. unfold len. cbn [List.length]. lia. Qed.

Lemma len_zero_nil {A : Type} (l : list A) : len l = 0 -> l = [].
Proof.
  destruct l; [reflexivity|]. intros H. rewrite len_cons in H.
  pose proof (len_nonneg l). lia.
Qed.

Lemma getitem_in_range (l : list Z) (j : Z) :
  0 <= j < len l -> getitem l j = Ok (at_ l j).
Proof.
  intros Hj. unfold getitem, at_.
  replace (j <? 0) with false by (symmetry; apply Z.ltb_ge; lia).
  replace ((j <? 0) || (len l <=? j)) with false
    by (symmetry; apply orb_false_iff; split;
        [apply Z.ltb_ge | apply Z.leb_gt]; lia).
  destruct (nth_error l (Z.to_nat j)) eqn:E.
  - now rewrite (nth_error_nth _ _ _ E).
  - apply nth_error_None in E. unfold len in Hj. lia.
Qed.

(** [key[i % len(key)]] is defined as soon as the key is not empty. *)
Lemma key_lookup (key : list Z) (i : Z) :
  key <> [] ->
  (j <- py_mod i (len key) ;; getitem key j) = Ok (at_ key (i mod len key)).
Proof.
  intros Hk. unfold py_mod.
  assert (0 < len key).
  { destruct key as [|k0 ks]; [congruence|].
    rewrite len_cons. pose proof (len_nonneg ks). lia. }
  replace (len key =? 0) with false by (symmetry; apply Z.eqb_neq; lia).
  simpl. apply getitem_in_range. apply Z.mod_pos_bound. lia.
Qed.

(** *** Substitution cipher *)

Lemma vigenere_encrypt_loop_spec (key : list Z) :
  key <> [] ->
  forall plain i out,
    vigenere_encrypt_loop i plain key out
    = Ok (out ++ shifted (fun p k => (p + k) mod 26) i plain key).
Proof.
  intros Hk. induction plain as [|p rest IH]; intros i out; simpl.
  - now rewrite app_nil_r.
  - pose proof (key_lookup key i Hk) as E. unfold bind in E |- *.
    destruct (py_mod i (len key)) as [j|e]; [|discriminate].
    rewrite E, IH, <- app_assoc. reflexivity.
Qed.

Lemma vigenere_decrypt_loop_spec (key : list Z) :
  key <> [] ->
  forall cipher i out,
    vigenere_decrypt_loop i cipher key out
    = Ok (out ++ shifted (fun c k => (c - k + 26) mod 26) i cipher key).
Proof.
  intros Hk. induction cipher as [|c rest IH]; intros i out; simpl.
  - now rewrite app_nil_r.
  - pose proof (key_lookup key i Hk) as E. unfold bind in E |- *.
    destruct (py_mod i (len key)) as [j|e]; [|discriminate].
    rewrite E, IH, <- app_assoc. reflexivity.
Qed.

Lemma shifted_length (f : Z -> Z -> Z) (key l : list Z) (i : Z) :
  len (shifted f i l key) = len l.
Proof.
  revert i. induction l as [|p r IH]; intros i; simpl; [reflexivity|].
  rewrite !len_cons, IH. reflexivity.
Qed.

Lemma at_cons_0 (v : Z) (l : list Z) : at_ (v :: l) 0 = v.
Proof. reflexivity. Qed.

Lemma at_cons_pos (v : Z) (l : list Z) (n : Z) :
  0 < n -> at_ (v :: l) n = at_ l (n - 1).
Proof.
  intros Hn. unfold at_.
  now replace (Z.to_nat n) with (S (Z.to_nat (n - 1))) by lia.
Qed.

Lemma shifted_at (f : Z -> Z -> Z) (key l : list Z) :
  forall i n, 0 <= n < len l ->
    at_ (shifted f i l key) n = f (at_ l n) (at_ key ((i + n) mod len key)).
Proof.
  induction l as [|p r IH]; intros i n Hn.
  - unfold len in Hn. simpl in Hn. lia.
  - rewrite len_cons in Hn. simpl shifted.
    destruct (Z.eq_dec n 0) as [->|Hn0].
    + now rewrite !at_cons_0, Z.add_0_r.
    + rewrite !at_cons_pos, IH by lia.
      now replace (i + 1 + (n - 1)) with (i + n) by lia.
Qed.

Lemma shifted_inverse (key x : list Z) :
  Forall (fun v => 0 <= v <= 25) x ->
  forall i,
    shifted (fun c k => (c - k + 26) mod 26) i
      (shifted (fun p k => (p + k) mod 26) i x key) key = x.
Proof.
  induction 1 as [|p r Hp _ IH]; intros i; simpl; [reflexivity|].
  rewrite IH. f_equal.
  set (k := at_ key (i mod len key)).
  rewrite <- (Z.mod_small p 26) at 2 by lia.
  rewrite <- Zplus_mod_idemp_l, <- Zminus_mod_idemp_l.
  rewrite Z.mod_mod by lia.
  rewrite Zminus_mod_idemp_l, Zplus_mod_idemp_l.
  replace (p + k - k + 26) with (p + 1 * 26) by lia.
  now rewrite Z.mod_add by lia.
Qed.

Lemma shifted_in_range (f : Z -> Z -> Z) (key l : list Z) (i : Z) :
  (forall p k, 0 <= f p k <= 25) ->
  Forall (fun v => 0 <= v <= 25) (shifted f i l key).
Proof.
  intros Hf. revert i. induction l as [|p r IH]; intros i; simpl; auto.
Qed.

(** C3: for symbols [x] in [0, 25] and a non-empty key [k] of symbols in
    [0, 25], [vigenere_encrypt] returns a list [c] of the length of [x]
    with [c[i] = (x[i] + k[i mod len(k)]) mod 26], [vigenere_decrypt]
    returns a list of the length of its input with
    [p[i] = (c[i] - k[i mod len(k)] + 26) mod 26], and decrypting [c]
    gives back [x]. *)
Theorem vigenere_roundtrip (x k : list Z) :
  Forall (fun v => 0 <= v <= 25) x ->
  Forall (fun v => 0 <= v <= 25) k ->
  k <> [] ->
  exists c,
    vigenere_encrypt x k = Ok c /\
    len c = len x /\
    (forall i, 0 <= i < len x ->
       at_ c i = (at_ x i + at_ k (i mod len k)) mod 26) /\
    vigenere_decrypt c k = Ok x /\
    (forall c', exists p,
       vigenere_decrypt c' k = Ok p /\
       len p = len c' /\
       forall i, 0 <= i < len c' ->
         at_ p i = (at_ c' i - at_ k (i mod len k) + 26) mod 26).
Proof.
  intros Hx _ Hk.
  exists (shifted (fun p k => (p + k) mod 26) 0 x k).
  unfold vigenere_encrypt, vigenere_decrypt.
  rewrite vigenere_encrypt_loop_spec, vigenere_decrypt_loop_spec by assumption.
  rewrite shifted_inverse by assumption. simpl.
  repeat split.
  - apply shifted_length.
  - intros i Hi. now rewrite shifted_at by assumption.
  - intros c'. eexists. rewrite vigenere_decrypt_loop_spec by assumption.
    simpl. repeat split.
    + apply shifted_length.
    + intros i Hi. now rewrite shifted_at by assumption.
Qed.

(** *** Decimal text *)

Lemma is_09_bounds (c : N) : is_09 c = true <-> (48 <= c <= 57)%N.
Proof.
  unfold is_09. rewrite andb_true_iff, !N.leb_le. reflexivity.
Qed.

Lemma is_09_decimal (c : N) :
  is_09 c = true -> decimal c = Some (ord c - 48).
Proof.
  intros H. unfold decimal. rewrite H.
  apply is_09_bounds in H. unfold is_ascii. n_cases.
Qed.

Lemma is_09_not_space (c : N) :
  is_09 c = true -> isspace c = false /\ int_isspace c = false.
Proof.
  intros H. apply is_09_bounds in H.
  unfold isspace, int_isspace, is_ascii. split; n_cases.
Qed.

Lemma is_09_not_sign (c : N) :
  is_09 c = true ->
  (c =? 95)%N = false /\ (c =? 43)%N = false /\ (c =? 45)%N = false.
Proof.
  intros H. apply is_09_bounds in H. repeat split; n_cases.
Qed.

Lemma digit_char_09 (d : Z) :
  0 <= d <= 9 ->
  is_09 (digit_char d) = true /\ ord (digit_char d) - 48 = d.
Proof.
  intros Hd. unfold digit_char, ord. split.
  - apply is_09_bounds. lia.
  - lia.
Qed.

Lemma int_digits_09 (s : str) :
  all_09 s -> forall a, int_digits s a false = Some (fold_left dec_step s a).
Proof.
  induction 1 as [|c r Hc _ IH]; intros a; simpl; [reflexivity|].
  destruct (is_09_not_sign c Hc) as [-> _].
  now rewrite (is_09_decimal c Hc), IH.
Qed.

Lemma digits_loop_spec (fuel : nat) :
  forall n acc, 0 <= n < 10 ^ Z.of_nat (S fuel) ->
  exists D,
    digits_loop (S fuel) n acc = D ++ acc /\
    D <> [] /\
    all_09 D /\
    (forall a, fold_left dec_step D a = a * 10 ^ len D + n) /\
    (forall k, 1 <= k -> n < 10 ^ k -> len D <= k).
Proof.
  induction fuel as [|f IH]; intros n acc Hn.
  - change (10 ^ Z.of_nat 1) with 10 in Hn.
    exists [digit_char n]. cbn [digits_loop].
    replace (n <? 10) with true by (symmetry; apply Z.ltb_lt; lia).
    rewrite Z.mod_small by lia.
    destruct (digit_char_09 n) as [H1 H2]; [lia|].
    repeat split.
    + discriminate.
    + now constructor.
    + intros a. simpl. unfold dec_step. rewrite H2.
      change (len [digit_char n]) with 1. lia.
    + intros k Hk _. change (len [digit_char n]) with 1. lia.
  - cbn [digits_loop]. destruct (Z.ltb_spec n 10) as [Hlt|Hge].
    + exists [digit_char n]. rewrite Z.mod_small by lia.
      destruct (digit_char_09 n) as [H1 H2]; [lia|].
      repeat split.
      * discriminate.
      * now constructor.
      * intros a. simpl. unfold dec_step. rewrite H2.
        change (len [digit_char n]) with 1. lia.
      * intros k Hk _. change (len [digit_char n]) with 1. lia.
    + rewrite Nat2Z.inj_succ, Z.pow_succ_r in Hn by lia.
      destruct (IH (n / 10) (digit_char (n mod 10) :: acc))
        as (D & E & Hne & H09 & Hval & Hlen).
      { split; [apply Z.div_pos; lia|].
        apply Z.div_lt_upper_bound; lia. }
      pose proof (Z.mod_pos_bound n 10 ltac:(lia)) as Hm.
      destruct (digit_char_09 (n mod 10)) as [H1 H2]; [lia|].
      exists (D ++ [digit_char (n mod 10)]).
      repeat split.
      * cbn [digits_loop] in E. rewrite E, <- app_assoc. reflexivity.
      * destruct D; discriminate.
      * apply Forall_app. split; [assumption | now constructor].
      * intros a. rewrite fold_left_app, Hval. simpl. unfold dec_step.
        rewrite H2, len_app. change (len [digit_char (n mod 10)]) with 1.
        rewrite Z.pow_add_r by (pose proof (len_nonneg D); lia).
        pose proof (Z.div_mod n 10 ltac:(lia)). change (10 ^ 1) with 10. lia.
      * intros k Hk Hnk. rewrite len_app.
        change (len [digit_char (n mod 10)]) with 1.
        assert (2 <= k).
        { destruct (Z.eq_dec k 1) as [->|]; [|lia].
          change (10 ^ 1) with 10 in Hnk. lia. }
        enough (len D <= k - 1) by lia.
        apply Hlen; [lia|].
        apply Z.div_lt_upper_bound; [lia|].
        rewrite <- Z.pow_succ_r by lia. now replace (Z.succ (k - 1)) with k by lia.
Qed.

Lemma pow10_fuel (n : Z) :
  0 <= n -> n < 10 ^ Z.of_nat (S (Z.to_nat (Z.log2 n))).
Proof.
  intros Hn.
  replace (Z.of_nat (S (Z.to_nat (Z.log2 n)))) with (Z.succ (Z.log2 n))
    by (pose proof (Z.log2_nonneg n); lia).
  destruct (Z.eq_dec n 0) as [->|Hn0]; [reflexivity|].
  apply Z.lt_le_trans with (2 ^ Z.succ (Z.log2 n)).
  - apply Z.log2_spec. lia.
  - apply Z.pow_le_mono_l. lia.
Qed.

Lemma str_of_nonneg_spec (n : Z) :
  0 <= n ->
  str_of_nonneg n <> [] /\
  all_09 (str_of_nonneg n) /\
  (forall a, fold_left dec_step (str_of_nonneg n) a
             = a * 10 ^ len (str_of_nonneg n) + n) /\
  (forall k, 1 <= k -> n < 10 ^ k -> len (str_of_nonneg n) <= k).
Proof.
  intros Hn. unfold str_of_nonneg.
  destruct (digits_loop_spec (Z.to_nat (Z.log2 n)) n [])
    as (D & E & H); [split; [assumption | now apply pow10_fuel]|].
  rewrite app_nil_r in E. rewrite E. exact H.
Qed.

Lemma zfill_digits (w : Z) (s : str) :
  all_09 s -> s <> [] -> len s <= w ->
  zfill w s = repeat 48%N (Z.to_nat (w - len s)) ++ s.
Proof.
  intros H09 Hne Hlen. unfold zfill.
  destruct (Z.leb_spec w (len s)) as [Hw|Hw].
  - now replace (w - len s) with 0 by lia.
  - destruct s as [|c r]; [congruence|].
    inversion H09 as [|? ? Hc _]; subst.
    destruct (is_09_not_sign c Hc) as (_ & -> & ->). reflexivity.
Qed.

Lemma all_09_zeros (k : nat) : all_09 (repeat 48%N k).
Proof. apply Forall_forall. intros c Hc. now apply repeat_spec in Hc as ->. Qed.

Lemma dec_value_zeros (k : nat) : fold_left dec_step (repeat 48%N k) 0 = 0.
Proof. induction k as [|k IH]; simpl; [reflexivity | exact IH]. Qed.

Lemma lstrip_by_none (sp : N -> bool) (s : str) :
  Forall (fun c => sp c = false) s -> lstrip_by sp s = s.
Proof. destruct 1 as [|c r Hc _]; simpl; [reflexivity | now rewrite Hc]. Qed.

Lemma strip_by_none (sp : N -> bool) (s : str) :
  Forall (fun c => sp c = false) s -> strip_by sp s = s.
Proof.
  intros H. unfold strip_by.
  rewrite (lstrip_by_none sp s H), lstrip_by_none, rev_involutive;
    [reflexivity | now apply Forall_rev].
Qed.

Lemma count_digits_09 (s : str) : all_09 s -> count_digits s = len s.
Proof.
  intros H09. unfold count_digits. f_equal.
  induction H09 as [|c r Hc _ IH]; [reflexivity|].
  cbn [filter]. destruct (is_09_not_sign c Hc) as (-> & _).
  cbn [negb]. now rewrite IH.
Qed.

Lemma py_int_digits (s : str) :
  all_09 s -> s <> [] -> len s <= INT_MAX_STR_DIGITS ->
  py_int s = Some (dec_value s).
Proof.
  intros H09 Hne Hlen. unfold py_int.
  rewrite strip_by_none.
  - rewrite <- (count_digits_09 s H09) in Hlen.
    destruct s as [|c r]; [congruence|].
    inversion H09 as [|? ? Hc _]; subst.
    destruct (is_09_not_sign c Hc) as (E95 & -> & ->).
    unfold int_body. rewrite E95.
    replace (INT_MAX_STR_DIGITS <? count_digits (c :: r)) with false
      by (symmetry; apply Z.ltb_ge; exact Hlen).
    now apply int_digits_09.
  - eapply Forall_impl; [|exact H09]. intros c Hc.
    now apply is_09_not_space.
Qed.

Lemma not_blank_digits (s : str) :
  all_09 s -> s <> [] -> str_eqb (strip s) [] = false.
Proof.
  intros H09 Hne. unfold strip. rewrite strip_by_none.
  - unfold str_eqb. destruct (list_eq_dec N.eq_dec s []); congruence.
  - eapply Forall_impl; [|exact H09]. intros c Hc.
    now apply is_09_not_space.
Qed.

(** What [str(g).zfill(5)] is for [g] in [0, 99999]. *)
Lemma group_text (g : Z) :
  0 <= g <= 99999 ->
  len (zfill 5 (str_of_int g)) = 5 /\
  all_09 (zfill 5 (str_of_int g)) /\
  dec_value (zfill 5 (str_of_int g)) = g /\
  py_int (zfill 5 (str_of_int g)) = Some g /\
  str_eqb (strip (zfill 5 (str_of_int g))) [] = false.
Proof.
  intros Hg. unfold str_of_int.
  replace (g <? 0) with false by (symmetry; apply Z.ltb_ge; lia).
  destruct (str_of_nonneg_spec g) as (Hne & H09 & Hval & Hlen); [lia|].
  assert (Hl : len (str_of_nonneg g) <= 5)
    by (apply Hlen; [lia | change (10 ^ 5) with 100000; lia]).
  rewrite zfill_digits by assumption.
  set (k := Z.to_nat (5 - len (str_of_nonneg g))).
  assert (H09' : all_09 (repeat 48%N k ++ str_of_nonneg g))
    by (apply Forall_app; split; [apply all_09_zeros | assumption]).
  assert (Hne' : repeat 48%N k ++ str_of_nonneg g <> [])
    by (intros E; apply app_eq_nil in E; tauto).
  assert (Hv : dec_value (repeat 48%N k ++ str_of_nonneg g) = g).
  { unfold dec_value. rewrite fold_left_app, dec_value_zeros, Hval. lia. }
  repeat split.
  - rewrite len_app. unfold len at 1. rewrite repeat_length.
    pose proof (len_nonneg (str_of_nonneg g)). lia.
  - assumption.
  - assumption.
  - rewrite py_int_digits; [now rewrite Hv | assumption | assumption|].
    rewrite len_app. unfold len at 1. rewrite repeat_length.
    pose proof (len_nonneg (str_of_nonneg g)).
    unfold INT_MAX_STR_DIGITS. lia.
  - now apply not_blank_digits.
Qed.

(** *** Base-27 packing *)

Lemma pack_range (a b c : Z) :
  in_0_26 a -> in_0_26 b -> in_0_26 c ->
  0 <= a * 27 * 27 + b * 27 + c <= 19682.
Proof. unfold in_0_26. lia. Qed.

Lemma unpack_pack (a b c : Z) :
  in_0_26 a -> in_0_26 b -> in_0_26 c ->
  (a * 27 * 27 + b * 27 + c) / (27 * 27) = a /\
  ((a * 27 * 27 + b * 27 + c) / 27) mod 27 = b /\
  (a * 27 * 27 + b * 27 + c) mod 27 = c.
Proof.
  unfold in_0_26. intros Ha Hb Hc.
  change (27 * 27) with 729.
  repeat split; Z.to_euclidean_division_equations; lia.
Qed.

Lemma unpack_range (n : Z) :
  0 <= n <= 19682 ->
  in_0_26 (n / (27 * 27)) /\ in_0_26 ((n / 27) mod 27) /\ in_0_26 (n mod 27).
Proof.
  unfold in_0_26. intros Hn. change (27 * 27) with 729.
  repeat split; Z.to_euclidean_division_equations; lia.
Qed.

Lemma offset_range (x : Z) : 0 <= fst (next x) mod 80318 <= 80317.
Proof. pose proof (Z.mod_pos_bound (fst (next x)) 80318). lia. Qed.

(** *** The generator *)

Lemma after_draws_succ (x0 : Z) (k : nat) :
  after_draws x0 (S k) = snd (next (after_draws x0 k)).
Proof.
  revert x0. induction k as [|k IH]; intros x0; [reflexivity|].
  change (after_draws x0 (S (S k))) with (after_draws (snd (next x0)) (S k)).
  now rewrite IH.
Qed.

Lemma nth_offset_draw (x0 : Z) (k : nat) :
  nth_offset x0 k = fst (next (after_draws x0 k)) mod 80318.
Proof.
  revert x0. induction k as [|k IH]; intros x0; [reflexivity|].
  simpl. now rewrite IH.
Qed.

Lemma nth_offset_range (x0 : Z) (k : nat) : 0 <= nth_offset x0 k <= 80317.
Proof. rewrite nth_offset_draw. apply offset_range. Qed.

(** *** The loops against their specifications *)

(** [str(g)] returns on every value a group can take. *)
Lemma py_str_small (g : Z) :
  0 <= g <= 99999 -> py_str g = Ok (str_of_int g).
Proof.
  intros Hg. unfold py_str. rewrite Z.abs_eq by lia.
  destruct (str_of_nonneg_spec g) as (_ & _ & _ & Hlen); [lia|].
  assert (Hl : len (str_of_nonneg g) <= 5)
    by (apply Hlen; [lia | change (10 ^ 5) with 100000; lia]).
  now replace (INT_MAX_STR_DIGITS <? len (str_of_nonneg g)) with false
    by (symmetry; apply Z.ltb_ge; unfold INT_MAX_STR_DIGITS; lia).
Qed.

Lemma encode_loop_spec (x0 : Z) (nums : list Z) :
  Triples nums -> Forall in_0_26 nums ->
  forall k groups,
    encode_loop nums (after_draws x0 k) groups
    = Ok (groups ++ encode_spec nums x0 k).
Proof.
  induction 1 as [|a b c rest _ IH]; intros Hr k groups.
  - simpl. now rewrite app_nil_r.
  - inversion Hr as [|? ? Ha H1]; subst.
    inversion H1 as [|? ? Hb H2]; subst.
    inversion H2 as [|? ? Hc Hrest]; subst.
    cbn [encode_loop encode_spec].
    destruct (next (after_draws x0 k)) as [v x'] eqn:E.
    assert (Ex : x' = after_draws x0 (S k))
      by (now rewrite after_draws_succ, E).
    assert (Ev : v mod 80318 = nth_offset x0 k)
      by (now rewrite nth_offset_draw, E).
    rewrite Ev.
    pose proof (pack_range a b c Ha Hb Hc) as Hn.
    pose proof (nth_offset_range x0 k) as Ho.
    rewrite py_str_small by lia. cbn [bind].
    rewrite Ex, IH, <- app_assoc by assumption. reflexivity.
Qed.

Lemma tokens_cons_blank (g : str) (groups : list str) :
  blank g = true -> tokens (g :: groups) = tokens groups.
Proof. intros H. unfold tokens. simpl. now rewrite H. Qed.

Lemma tokens_cons_token (g : str) (groups : list str) :
  blank g = false -> tokens (g :: groups) = g :: tokens groups.
Proof. intros H. unfold tokens. simpl. now rewrite H. Qed.

Lemma decode_loop_spec (x0 : Z) (groups : list str) :
  forall k out,
    decode_loop groups (after_draws x0 k, out)
    = (flat <- decode_spec (tokens groups) x0 k out ;;
       Ok (after_draws x0 (k + List.length (tokens groups)), flat)).
Proof.
  induction groups as [|g rest IH]; intros k out.
  - simpl. now rewrite Nat.add_0_r.
  - cbn [decode_loop decode_group]. fold (blank g).
    destruct (blank g) eqn:Eb.
    + rewrite tokens_cons_blank by assumption. simpl. apply IH.
    + rewrite tokens_cons_token by assumption. cbn [decode_spec].
      destruct (py_int g) as [gi|]; [|reflexivity].
      destruct (next (after_draws x0 k)) as [v x'] eqn:E.
      assert (Ex : x' = after_draws x0 (S k))
        by (now rewrite after_draws_succ, E).
      assert (Ev : v mod 80318 = nth_offset x0 k)
        by (now rewrite nth_offset_draw, E).
      rewrite Ev. cbv zeta.
      destruct ((gi - nth_offset x0 k <? 0) || (gi - nth_offset x0 k >? 19682));
        [reflexivity|].
      cbn [bind]. rewrite Ex, IH. cbn [List.length].
      now rewrite Nat.add_succ_r.
Qed.

Lemma decode_flat_spec (groups : list str) (mk : str) :
  decode_flat groups mk
  = (seed <- _seed32 mk ;;
     decode_spec (tokens groups) (xorshift32 seed) 0 []).
Proof.
  unfold decode_flat. destruct (_seed32 mk) as [seed|e]; [|reflexivity].
  cbn [bind].
  change (xorshift32 seed) with (after_draws (xorshift32 seed) 0) at 1.
  rewrite decode_loop_spec.
  destruct (decode_spec _ _ _ _); reflexivity.
Qed.

Lemma seed32_encodable (mk : str) :
  encodable mk ->
  _seed32 mk = Ok (from_bytes_big (firstn 4 (sha256_utf8 mk))).
Proof. intros H. unfold _seed32. now rewrite H. Qed.

Lemma seed32_not_encodable (mk : str) :
  ~ encodable mk -> _seed32 mk = Raise UnicodeEncodeError.
Proof.
  intros H. unfold _seed32, encodable in *.
  destruct (existsb is_surrogate mk); [reflexivity | now elim H].
Qed.

Lemma seed32_Ok (mk : str) (seed : Z) :
  _seed32 mk = Ok seed -> encodable mk.
Proof.
  unfold _seed32, encodable.
  now destruct (existsb is_surrogate mk).
Qed.

(** *** Groups written by the packer *)

Lemma Triples_in_range_cons (a b c : Z) (rest : list Z) :
  Forall in_0_26 (a :: b :: c :: rest) ->
  in_0_26 a /\ in_0_26 b /\ in_0_26 c /\ Forall in_0_26 rest.
Proof.
  intros H. inversion H as [|? ? Ha H1]; subst.
  inversion H1 as [|? ? Hb H2]; subst.
  inversion H2 as [|? ? Hc H3]; subst. auto.
Qed.

Lemma encode_spec_shape (x0 : Z) (nums : list Z) :
  Forall in_0_26 nums ->
  forall k, Forall group_shape (encode_spec nums x0 k).
Proof.
  induction nums as [nums IH] using (induction_ltof1 _ (@List.length Z)).
  unfold ltof in IH. intros Hr k.
  destruct nums as [|a [|b [|c rest]]]; try constructor.
  - apply Triples_in_range_cons in Hr as (Ha & Hb & Hc & Hrest).
    pose proof (pack_range a b c Ha Hb Hc) as Hn.
    pose proof (nth_offset_range x0 k) as Ho.
    destruct (group_text (a * 27 * 27 + b * 27 + c + nth_offset x0 k))
      as (H1 & H2 & H3 & H4 & _); [lia|].
    exists (a * 27 * 27 + b * 27 + c), (nth_offset x0 k).
    repeat split; try assumption; lia.
  - apply IH; [simpl; lia|].
    now apply Triples_in_range_cons in Hr.
Qed.

Lemma group_shape_token (g : str) : group_shape g -> blank g = false.
Proof.
  intros (n & off & Hn & Ho & _ & -> & _).
  unfold blank. apply group_text. lia.
Qed.

Lemma tokens_all (groups : list str) :
  Forall group_shape groups -> tokens groups = groups.
Proof.
  induction 1 as [|g r Hg _ IH]; [reflexivity|].
  rewrite tokens_cons_token by now apply group_shape_token.
  now rewrite IH.
Qed.

(** Unpacking what was packed: the specification-level round trip. *)
Lemma decode_encode_spec (x0 : Z) (nums : list Z) :
  Triples nums -> Forall in_0_26 nums ->
  forall k out,
    decode_spec (encode_spec nums x0 k) x0 k out = Ok (out ++ nums).
Proof.
  induction 1 as [|a b c rest _ IH]; intros Hr k out.
  - simpl. now rewrite app_nil_r.
  - apply Triples_in_range_cons in Hr as (Ha & Hb & Hc & Hrest).
    cbn [encode_spec decode_spec].
    pose proof (pack_range a b c Ha Hb Hc) as Hn.
    pose proof (nth_offset_range x0 k) as Ho.
    destruct (group_text (a * 27 * 27 + b * 27 + c + nth_offset x0 k))
      as (_ & _ & _ & -> & _); [lia|].
    cbv zeta.
    replace (a * 27 * 27 + b * 27 + c + nth_offset x0 k - nth_offset x0 k)
      with (a * 27 * 27 + b * 27 + c) by lia.
    replace ((a * 27 * 27 + b * 27 + c <? 0)
             || (a * 27 * 27 + b * 27 + c >? 19682)) with false
      by (symmetry; apply orb_false_iff; split;
          [apply Z.ltb_ge | rewrite Z.gtb_ltb; apply Z.ltb_ge]; lia).
    destruct (unpack_pack a b c Ha Hb Hc) as (E1 & E2 & E3).
    change 729 with (27 * 27). rewrite E1, E2, E3, IH by assumption.
    now rewrite <- app_assoc.
Qed.

(** *** Padding and its removal *)

Lemma Triples_of_len (l : list Z) : len l mod 3 = 0 -> Triples l.
Proof.
  induction l as [l IH] using (induction_ltof1 _ (@List.length Z)).
  unfold ltof in IH. intros Hl.
  destruct l as [|a [|b [|c rest]]].
  - constructor.
  - discriminate Hl.
  - discriminate Hl.
  - constructor. apply IH; [simpl; lia|].
    rewrite !len_cons in Hl.
    replace (1 + (1 + (1 + len rest))) with (len rest + 1 * 3) in Hl by lia.
    now rewrite Z.mod_add in Hl by lia.
Qed.

Lemma pad_loop_spec (nums : list Z) :
  exists k, pad_loop 2 nums = nums ++ repeat 26 k /\
            len (pad_loop 2 nums) mod 3 = 0.
Proof.
  cbn [pad_loop].
  destruct (Z.eqb_spec (len nums mod 3) 0) as [E0|E0]; cbn [negb].
  - exists 0%nat. now rewrite app_nil_r.
  - rewrite len_app. change (len [26]) with 1.
    destruct (Z.eqb_spec ((len nums + 1) mod 3) 0) as [E1|E1]; cbn [negb].
    + exists 1%nat. split; [reflexivity|].
      now rewrite len_app.
    + exists 2%nat. rewrite <- app_assoc. split; [reflexivity|].
      rewrite !len_app. change (len [26]) with 1.
      revert E0 E1. Z.to_euclidean_division_equations. lia.
Qed.

Lemma pop_loop_spec (tuo : list Z) :
  exists k, tuo = repeat 26 k ++ pop_loop tuo /\
            forall r, pop_loop tuo <> 26 :: r.
Proof.
  induction tuo as [|v r IH].
  - exists 0%nat. split; [reflexivity | discriminate].
  - simpl. destruct (Z.eqb_spec v 26) as [->|Hv].
    + destruct IH as (k & E & Hk). exists (S k). simpl.
      now rewrite <- E.
    + exists 0%nat. split; [reflexivity|]. congruence.
Qed.

Lemma rev_repeat_26 (k : nat) : rev (repeat 26 k) = repeat 26 k.
Proof.
  induction k as [|k IH]; [reflexivity|].
  simpl. rewrite IH. now rewrite <- repeat_cons.
Qed.

(** Only a trailing run of 26 is dropped, and all of it. *)
Lemma pop_padding_spec (out : list Z) :
  exists k, out = pop_padding out ++ repeat 26 k /\
            forall l, pop_padding out <> l ++ [26].
Proof.
  destruct (pop_loop_spec (rev out)) as (k & E & Hk).
  exists k. unfold pop_padding. split.
  - rewrite <- (rev_involutive out) at 1.
    rewrite E at 1. now rewrite rev_app_distr, rev_repeat_26.
  - intros l El. apply (f_equal (@rev Z)) in El.
    rewrite rev_involutive, rev_app_distr in El. simpl in El.
    now apply Hk in El.
Qed.

Lemma pop_loop_skip (k : nat) (l : list Z) :
  pop_loop (repeat 26 k ++ l) = pop_loop l.
Proof. induction k as [|k IH]; [reflexivity | exact IH]. Qed.

Lemma pop_padding_padded (S : list Z) (k : nat) :
  Forall in_0_25 S -> pop_padding (S ++ repeat 26 k) = S.
Proof.
  intros HS. unfold pop_padding.
  rewrite rev_app_distr, rev_repeat_26, pop_loop_skip.
  apply Forall_rev in HS.
  destruct (rev S) as [|v r] eqn:E.
  - simpl. rewrite <- (rev_involutive S), E. reflexivity.
  - inversion HS as [|? ? Hv _]; subst. simpl.
    destruct (Z.eqb_spec v 26) as [->|_]; [unfold in_0_25 in Hv; lia|].
    rewrite <- E. apply rev_involutive.
Qed.

Lemma check_symbols_ok (out : list Z) :
  Forall in_0_25 out -> check_symbols out = Ok tt.
Proof.
  induction 1 as [|v r Hv _ IH]; [reflexivity|]. simpl.
  replace ((v <? 0) || (v >? 25)) with false; [exact IH|].
  symmetry. apply orb_false_iff. unfold in_0_25 in Hv.
  split; [apply Z.ltb_ge | rewrite Z.gtb_ltb; apply Z.ltb_ge]; lia.
Qed.

Lemma check_symbols_raise (out : list Z) :
  ~ Forall in_0_25 out ->
  check_symbols out = Raise (Uvb76GenError SymbolsOutOfRange).
Proof.
  induction out as [|v r IH]; intros H.
  - exfalso. apply H. constructor.
  - simpl. destruct ((v <? 0) || (v >? 25)) eqn:E; [reflexivity|].
    apply IH. intros Hr. apply H. constructor; [|assumption].
    apply orb_false_iff in E as [E1 E2].
    apply Z.ltb_ge in E1. rewrite Z.gtb_ltb in E2. apply Z.ltb_ge in E2.
    unfold in_0_25. lia.
Qed.

Lemma in_0_25_26 (l : list Z) : Forall in_0_25 l -> Forall in_0_26 l.
Proof.
  apply Forall_impl. unfold in_0_25, in_0_26. intros v Hv. lia.
Qed.

Lemma padded_in_range (S : list Z) (k : nat) :
  Forall in_0_25 S -> Forall in_0_26 (S ++ repeat 26 k).
Proof.
  intros HS. apply Forall_app. split; [now apply in_0_25_26|].
  apply Forall_forall. intros v Hv. apply repeat_spec in Hv as ->.
  unfold in_0_26. lia.
Qed.

(** *** Packer and unpacker together *)

Lemma encode_groups_spec (S : list Z) (K : str) (seed : Z) :
  Forall in_0_25 S -> _seed32 K = Ok seed ->
  encode_groups S K
  = Ok (encode_spec (pad_loop 2 S) (xorshift32 seed) 0).
Proof.
  intros HS Hseed. unfold encode_groups. rewrite Hseed. cbn [bind].
  destruct (pad_loop_spec S) as (k & Epad & Hmod).
  change (xorshift32 seed) with (after_draws (xorshift32 seed) 0) at 1.
  rewrite encode_loop_spec;
    [reflexivity | now apply Triples_of_len|].
  rewrite Epad. now apply padded_in_range.
Qed.

Lemma decode_encode_groups (S : list Z) (K : str) :
  Forall in_0_25 S -> encodable K ->
  exists gs,
    encode_groups S K = Ok gs /\
    Forall group_shape gs /\
    decode_groups gs K = Ok S.
Proof.
  intros HS HK. pose proof (seed32_encodable K HK) as Hseed.
  rewrite (encode_groups_spec S K _ HS Hseed).
  set (x0 := xorshift32 (from_bytes_big (firstn 4 (sha256_utf8 K)))).
  destruct (pad_loop_spec S) as (k & Epad & Hmod).
  assert (HT : Triples (pad_loop 2 S)) by now apply Triples_of_len.
  assert (HR : Forall in_0_26 (pad_loop 2 S))
    by (rewrite Epad; now apply padded_in_range).
  pose proof (encode_spec_shape x0 (pad_loop 2 S) HR 0) as Hshape.
  eexists. split; [reflexivity|]. split; [assumption|].
  unfold decode_groups. rewrite decode_flat_spec, Hseed. cbn [bind].
  fold x0.
  rewrite tokens_all, decode_encode_spec by assumption.
  cbn [bind app]. rewrite Epad, pop_padding_padded by assumption.
  now rewrite check_symbols_ok.
Qed.

Lemma not_encodable_raises (S : list Z) (gs : list str) (K : str) :
  ~ encodable K ->
  encode_groups S K = Raise UnicodeEncodeError /\
  decode_groups gs K = Raise UnicodeEncodeError.
Proof.
  intros HK. unfold encode_groups, decode_groups, decode_flat.
  now rewrite (seed32_not_encodable K HK).
Qed.

(** C2, as the code has it: for every list [S] of symbols in [0, 25] and
    every mask key [K] that UTF-8 can encode, [encode_groups] returns, and
    [decode_groups] applied to what it returned, with the same mask key,
    returns exactly [S]. On a mask key that holds a lone surrogate both
    functions raise [UnicodeEncodeError], whatever the symbols or the
    groups. *)
Theorem groups_roundtrip (S : list Z) (K : str) :
  Forall (fun v => 0 <= v <= 25) S ->
  (encodable K ->
   exists gs, encode_groups S K = Ok gs /\ decode_groups gs K = Ok S) /\
  (~ encodable K ->
   encode_groups S K = Raise UnicodeEncodeError /\
   forall gs, decode_groups gs K = Raise UnicodeEncodeError).
Proof.
  intros HS. split.
  - intros HK.
    destruct (decode_encode_groups S K HS HK) as (gs & E & _ & D).
    now exists gs.
  - intros HK. split.
    + now apply (not_encodable_raises S [] K).
    + intros gs. now apply (not_encodable_raises S gs K).
Qed.

(** *** Sanitizer *)

Lemma AZ_RE_sub_empty_AZ (s : str) : all_AZ (AZ_RE_sub_empty s).
Proof.
  apply Forall_forall. intros c Hc. now apply filter_In in Hc.
Qed.

Lemma sanitize_plaintext_AZ (text : str) : all_AZ (sanitize_plaintext text).
Proof. apply AZ_RE_sub_empty_AZ. Qed.

Lemma sanitize_key_ok (k : str) :
  has_letter k -> sanitize_key k = Ok (AZ_RE_sub_empty (upper k)).
Proof.
  intros H. unfold sanitize_key.
  destruct (Z.eqb_spec (len (AZ_RE_sub_empty (upper k))) 0) as [E|_];
    [|reflexivity].
  now apply len_zero_nil in E.
Qed.

Lemma is_AZ_bounds (c : N) : is_AZ c = true <-> (65 <= c <= 90)%N.
Proof. unfold is_AZ. rewrite andb_true_iff, !N.leb_le. reflexivity. Qed.

(** A sanitized key holds no surrogate, so its seed can be derived. *)
Lemma all_AZ_encodable (s : str) : all_AZ s -> encodable s.
Proof.
  unfold encodable. induction 1 as [|c r Hc _ IH]; [reflexivity|].
  cbn [existsb]. rewrite IH. apply is_AZ_bounds in Hc.
  unfold is_surrogate. n_cases.
Qed.

Lemma sanitized_encodable (k : str) :
  encodable (AZ_RE_sub_empty (upper k)).
Proof. apply all_AZ_encodable, AZ_RE_sub_empty_AZ. Qed.

Lemma letters_to_nums_range (s : str) :
  all_AZ s -> Forall in_0_25 (letters_to_nums s).
Proof.
  intros H. unfold letters_to_nums. apply Forall_map.
  eapply Forall_impl; [|exact H]. intros c Hc.
  apply is_AZ_bounds in Hc. unfold in_0_25, ord. lia.
Qed.

Lemma letters_to_nums_nonempty (s : str) :
  s <> [] -> letters_to_nums s <> [].
Proof. destruct s; [congruence | discriminate]. Qed.

Lemma nums_to_letters_to_nums (s : str) :
  all_AZ s -> nums_to_letters (letters_to_nums s) = Ok s.
Proof.
  induction 1 as [|c r Hc _ IH]; [reflexivity|].
  apply is_AZ_bounds in Hc. cbn [letters_to_nums map nums_to_letters].
  fold (letters_to_nums r). rewrite IH.
  replace (65 + (ord c - 65)) with (ord c) by lia.
  unfold chr, ord.
  replace ((0 <=? Z.of_N c) && (Z.of_N c <? 1114112)) with true
    by (symmetry; apply andb_true_iff; split;
        [apply Z.leb_le | apply Z.ltb_lt]; lia).
  cbn [bind]. now rewrite N2Z.id.
Qed.

(** *** Facade *)

Lemma encrypt_to_groups_spec (text : str) (cfg : CipherConfig) :
  has_letter (key cfg) -> has_letter (mask_key cfg) ->
  encrypt_to_groups text cfg
  = encode_groups
      (shifted (fun p k => (p + k) mod 26) 0
         (letters_to_nums (sanitize_plaintext text))
         (letters_to_nums (AZ_RE_sub_empty (upper (key cfg)))))
      (AZ_RE_sub_empty (upper (mask_key cfg))).
Proof.
  intros Hk Hm. unfold encrypt_to_groups.
  rewrite !sanitize_key_ok by assumption. cbn [bind].
  unfold vigenere_encrypt.
  rewrite vigenere_encrypt_loop_spec by now apply letters_to_nums_nonempty.
  reflexivity.
Qed.

Lemma decrypt_from_groups_spec (groups : list str) (cfg : CipherConfig) :
  has_letter (key cfg) -> has_letter (mask_key cfg) ->
  decrypt_from_groups groups cfg
  = (cipher_nums <-
       decode_groups groups (AZ_RE_sub_empty (upper (mask_key cfg))) ;;
     nums_to_letters
       (shifted (fun c k => (c - k + 26) mod 26) 0 cipher_nums
          (letters_to_nums (AZ_RE_sub_empty (upper (key cfg)))))).
Proof.
  intros Hk Hm. unfold decrypt_from_groups.
  rewrite !sanitize_key_ok by assumption. cbn [bind].
  destruct (decode_groups _ _) as [c|e]; [|reflexivity]. cbn [bind].
  unfold vigenere_decrypt.
  rewrite vigenere_decrypt_loop_spec by now apply letters_to_nums_nonempty.
  reflexivity.
Qed.

Lemma cipher_in_range (p k : list Z) :
  Forall in_0_25 (shifted (fun p k => (p + k) mod 26) 0 p k).
Proof.
  apply shifted_in_range. intros a b.
  pose proof (Z.mod_pos_bound (a + b) 26). lia.
Qed.

(** C1: for every text and every two keys that keep a letter A-Z when
    sanitized, [encrypt_to_groups] returns a list of groups, and
    [decrypt_from_groups] applied to it under the same configuration
    returns exactly [sanitize_plaintext text]; neither call raises. *)
Theorem pipeline_roundtrip (text ky mk : str) :
  has_letter ky -> has_letter mk ->
  exists gs,
    encrypt_to_groups text {| key := ky; mask_key := mk |} = Ok gs /\
    decrypt_from_groups gs {| key := ky; mask_key := mk |}
    = Ok (sanitize_plaintext text).
Proof.
  intros Hk Hm.
  rewrite encrypt_to_groups_spec by assumption. cbn [key mask_key].
  destruct (decode_encode_groups _ (AZ_RE_sub_empty (upper mk))
              (cipher_in_range
                 (letters_to_nums (sanitize_plaintext text))
                 (letters_to_nums (AZ_RE_sub_empty (upper ky))))
              (sanitized_encodable mk))
    as (gs & E & _ & D).
  exists gs. split; [assumption|].
  rewrite decrypt_from_groups_spec by assumption. cbn [key mask_key].
  rewrite D. cbn [bind].
  rewrite shifted_inverse
    by (apply letters_to_nums_range, sanitize_plaintext_AZ).
  apply nums_to_letters_to_nums, sanitize_plaintext_AZ.
Qed.

(** C4: for cipher symbols in [0, 25] and any mask key, every group
    returned by [encode_groups], and so every group returned by
    [encrypt_to_groups], is [str(n + off).zfill(5)] for a packed triplet
    [0 <= n <= 19682] and an offset [0 <= off <= 80317], hence
    [n + off < 100000]: it has exactly five characters, all of them ASCII
    digits, and they spell [n + off]. [encode_groups] returns such a list
    for every mask key that UTF-8 can encode, and [encrypt_to_groups] for
    every two keys that keep a letter. *)
Theorem groups_are_five_digits
  (cipher_nums : list Z) (mk : str) (text : str) (cfg : CipherConfig) :
  Forall (fun v => 0 <= v <= 25) cipher_nums ->
  (forall gs, encode_groups cipher_nums mk = Ok gs ->
              Forall group_shape gs) /\
  (encodable mk ->
   exists gs, encode_groups cipher_nums mk = Ok gs /\
              Forall group_shape gs) /\
  (has_letter (key cfg) -> has_letter (mask_key cfg) ->
   exists gs, encrypt_to_groups text cfg = Ok gs /\
              Forall group_shape gs).
Proof.
  intros Hc.
  assert (A : encodable mk ->
              exists gs, encode_groups cipher_nums mk = Ok gs /\
                         Forall group_shape gs).
  { intros Hm.
    destruct (decode_encode_groups cipher_nums mk Hc Hm) as (gs & E & Hs & _).
    now exists gs. }
  split; [|split; [exact A|]].
  - intros gs E.
    assert (Hm : encodable mk).
    { unfold encode_groups in E.
      destruct (_seed32 mk) as [seed|] eqn:Es; [|discriminate].
      now apply seed32_Ok in Es. }
    destruct (A Hm) as (gs' & E' & Hs). rewrite E in E'.
    now inversion E'; subst.
  - intros Hk Hm. rewrite encrypt_to_groups_spec by assumption.
    destruct (decode_encode_groups _
                (AZ_RE_sub_empty (upper (mask_key cfg)))
                (cipher_in_range
                   (letters_to_nums (sanitize_plaintext text))
                   (letters_to_nums (AZ_RE_sub_empty (upper (key cfg)))))
                (sanitized_encodable (mask_key cfg)))
      as (gs & E & Hs & _).
    now exists gs.
Qed.

Lemma tokens_blank (groups : list str) :
  Forall (fun g => blank g = true) groups -> tokens groups = [].
Proof.
  induction 1 as [|g r Hg _ IH]; [reflexivity|].
  now rewrite tokens_cons_blank.
Qed.

(** C10: with two keys that keep a letter when sanitized, a text that
    sanitizes to the empty string is encrypted to the empty list of
    groups, and the empty list of groups, like any list of groups that are
    all empty or blank, is decrypted to the empty string; neither call
    raises. *)
Theorem empty_message (text : str) (groups : list str) (cfg : CipherConfig) :
  has_letter (key cfg) -> has_letter (mask_key cfg) ->
  (sanitize_plaintext text = [] -> encrypt_to_groups text cfg = Ok []) /\
  decrypt_from_groups [] cfg = Ok [] /\
  (Forall (fun g => blank g = true) groups ->
   decrypt_from_groups groups cfg = Ok []).
Proof.
  intros Hk Hm.
  assert (D : forall gs, Forall (fun g => blank g = true) gs ->
                         decrypt_from_groups gs cfg = Ok []).
  { intros gs Hb. rewrite decrypt_from_groups_spec by assumption.
    unfold decode_groups.
    rewrite decode_flat_spec, tokens_blank by assumption.
    now rewrite (seed32_encodable _ (sanitized_encodable (mask_key cfg))). }
  repeat split.
  - intros E. rewrite encrypt_to_groups_spec by assumption.
    rewrite E. unfold encode_groups.
    now rewrite (seed32_encodable _ (sanitized_encodable (mask_key cfg))).
  - apply D. constructor.
  - apply D.
Qed.

(** *** Errors of the unpacker *)

Lemma decode_group_blank (g : str) (st : Z * list Z) :
  blank g = true -> decode_group g st = Ok st.
Proof.
  intros Hb. destruct st as [x out]. unfold decode_group.
  fold (blank g). now rewrite Hb.
Qed.

Lemma decode_group_invalid (g : str) (st : Z * list Z) :
  blank g = false -> py_int g = None ->
  decode_group g st = Raise (Uvb76GenError (InvalidGroup g)).
Proof.
  intros Hb Hi. destruct st as [x out]. unfold decode_group.
  fold (blank g). now rewrite Hb, Hi.
Qed.

Lemma decode_group_parsed (g : str) (x : Z) (out : list Z) (gi : Z) :
  blank g = false -> py_int g = Some gi ->
  decode_group g (x, out)
  = if (gi - fst (next x) mod 80318 <? 0)
       || (gi - fst (next x) mod 80318 >? 19682)
    then Raise (Uvb76GenError (TripletOutOfRange g))
    else Ok (snd (next x),
             out ++ [(gi - fst (next x) mod 80318) / (27 * 27);
                     ((gi - fst (next x) mod 80318) / 27) mod 27;
                     (gi - fst (next x) mod 80318) mod 27]).
Proof.
  intros Hb Hi. unfold decode_group. fold (blank g). rewrite Hb, Hi.
  now destruct (next x) as [v x'].
Qed.

Lemma out_of_range_iff (n : Z) :
  (n <? 0) || (n >? 19682) = true <-> n < 0 \/ 19682 < n.
Proof.
  rewrite orb_true_iff, Z.ltb_lt, Z.gtb_ltb, Z.ltb_lt. reflexivity.
Qed.

Lemma check_symbols_cases (out : list Z) :
  (Forall in_0_25 out /\ check_symbols out = Ok tt) \/
  (Exists (fun v => v < 0 \/ 25 < v) out /\
   check_symbols out = Raise (Uvb76GenError SymbolsOutOfRange)).
Proof.
  induction out as [|v r IH].
  - left. split; [constructor | reflexivity].
  - simpl. destruct ((v <? 0) || (v >? 25)) eqn:E.
    + right. split; [|reflexivity]. apply Exists_cons_hd.
      apply orb_true_iff in E. rewrite Z.ltb_lt, Z.gtb_ltb, Z.ltb_lt in E.
      exact E.
    + apply orb_false_iff in E as [E1 E2].
      apply Z.ltb_ge in E1. rewrite Z.gtb_ltb in E2. apply Z.ltb_ge in E2.
      destruct IH as [[Hr Hc]|[Hr Hc]].
      * left. split; [|assumption]. constructor; [|assumption].
        unfold in_0_25. lia.
      * right. split; [|assumption]. now apply Exists_cons_tl.
Qed.

Lemma decode_spec_app (x0 : Z) (pre : list str) :
  forall post k out,
    decode_spec (pre ++ post) x0 k out
    = (flat <- decode_spec pre x0 k out ;;
       decode_spec post x0 (k + List.length pre) flat).
Proof.
  induction pre as [|g r IH]; intros post k out.
  - simpl. now rewrite Nat.add_0_r.
  - cbn [app decode_spec].
    destruct (py_int g) as [gi|]; [|reflexivity]. cbv zeta.
    destruct ((_ <? 0) || (_ >? 19682)); [reflexivity|].
    rewrite IH. cbn [List.length]. now rewrite Nat.add_succ_r.
Qed.

(** Where the specification-level unpacker raises "triplet out of
    range": at the first token whose unmasked value leaves the range, all
    tokens before it having been unpacked. *)
Lemma decode_spec_triplet (x0 : Z) (g : str) (toks : list str) :
  forall k out,
    decode_spec toks x0 k out = Raise (Uvb76GenError (TripletOutOfRange g))
    <-> exists pre post flat gi,
          toks = pre ++ g :: post /\
          decode_spec pre x0 k out = Ok flat /\
          py_int g = Some gi /\
          (gi - nth_offset x0 (k + List.length pre) < 0 \/
           19682 < gi - nth_offset x0 (k + List.length pre)).
Proof.
  intros k out. split.
  - revert k out. induction toks as [|t r IH]; intros k out E.
    + discriminate E.
    + cbn [decode_spec] in E.
      destruct (py_int t) as [ti|] eqn:Et; [|discriminate E].
      cbv zeta in E.
      destruct ((_ <? 0) || (_ >? 19682)) eqn:Er.
      * inversion E; subst t.
        exists [], r, out, ti. cbn [List.length]. rewrite Nat.add_0_r.
        split; [reflexivity|]. split; [reflexivity|].
        split; [assumption|]. now apply out_of_range_iff.
      * apply IH in E as (pre & post & flat & gi & Et' & Ep & Eg & Hn).
        exists (t :: pre), post, flat, gi. subst r.
        split; [reflexivity|]. split.
        { cbn [decode_spec]. rewrite Et. cbv zeta. now rewrite Er. }
        split; [assumption|]. cbn [List.length].
        now rewrite Nat.add_succ_r.
  - intros (pre & post & flat & gi & -> & Ep & Eg & Hn).
    rewrite decode_spec_app, Ep. cbn [bind decode_spec]. rewrite Eg.
    cbv zeta. apply out_of_range_iff in Hn. now rewrite Hn.
Qed.

(** What [decode_groups] adds to [decode_flat] can only raise "symbol out
    of range". *)
Lemma decode_groups_flat_raise (groups : list str) (mk : str) (e : exn) :
  e <> Uvb76GenError SymbolsOutOfRange ->
  (decode_groups groups mk = Raise e <-> decode_flat groups mk = Raise e).
Proof.
  intros He. unfold decode_groups.
  destruct (decode_flat groups mk) as [flat|e']; cbn [bind]; [|tauto].
  destruct (check_symbols_cases (pop_padding flat)) as [[_ ->]|[_ ->]];
    cbn [bind]; split; intros E; try discriminate E.
  inversion E. congruence.
Qed.

(** C5: a group raises "triplet out of range" exactly when it is not
    skipped, [int] reads it as an integer [gi], and [n = gi - off] is
    outside [0, 19682], [off] being the next generator output modulo
    80318; when [n] is in range the group contributes [n div 729],
    [(n div 27) mod 27] and [n mod 27], and the generator has advanced by
    one draw. Over a whole call with a mask key that seeds the generator,
    [decode_groups] raises "triplet out of range" for [g] exactly when [g]
    is a group not skipped, every group not skipped before it was unpacked,
    and [g] minus the offset of its rank among the groups not skipped is
    outside [0, 19682]; group number [k] among those not skipped is
    unmasked with offset number [k] of the generator, the offset with which
    [encode_groups] masked triplet number [k] of symbols in [0, 25]. *)
Theorem triplet_out_of_range
  (g : str) (x : Z) (out : list Z)
  (groups : list str) (cipher_nums : list Z) (mk : str) :
  (decode_group g (x, out) = Raise (Uvb76GenError (TripletOutOfRange g))
   <-> blank g = false /\
       exists gi, py_int g = Some gi /\
                  (gi - fst (next x) mod 80318 < 0 \/
                   19682 < gi - fst (next x) mod 80318)) /\
  (forall gi n,
     blank g = false -> py_int g = Some gi ->
     n = gi - fst (next x) mod 80318 -> 0 <= n <= 19682 ->
     decode_group g (x, out)
     = Ok (snd (next x), out ++ [n / 729; (n / 27) mod 27; n mod 27])) /\
  (forall seed, _seed32 mk = Ok seed ->
     (decode_groups groups mk = Raise (Uvb76GenError (TripletOutOfRange g))
      <-> exists pre post flat gi,
            tokens groups = pre ++ g :: post /\
            decode_spec pre (xorshift32 seed) 0 [] = Ok flat /\
            py_int g = Some gi /\
            (gi - nth_offset (xorshift32 seed) (List.length pre) < 0 \/
             19682 < gi - nth_offset (xorshift32 seed) (List.length pre))) /\
     decode_groups groups mk
     = (flat <- decode_spec (tokens groups) (xorshift32 seed) 0 [] ;;
        _ <- check_symbols (pop_padding flat) ;;
        Ok (pop_padding flat)) /\
     (Forall (fun v => 0 <= v <= 25) cipher_nums ->
      encode_groups cipher_nums mk
      = Ok (encode_spec (pad_loop 2 cipher_nums) (xorshift32 seed) 0))).
Proof.
  split; [split|split].
  - intros H. destruct (blank g) eqn:Hb.
    + rewrite decode_group_blank in H by assumption. discriminate.
    + split; [reflexivity|].
      destruct (py_int g) as [gi|] eqn:Hi.
      * exists gi. split; [reflexivity|].
        rewrite (decode_group_parsed g x out gi Hb Hi) in H.
        apply out_of_range_iff.
        destruct ((_ <? 0) || (_ >? 19682)); [reflexivity | discriminate].
      * rewrite decode_group_invalid in H by assumption. discriminate.
  - intros (Hb & gi & Hi & Hn).
    rewrite (decode_group_parsed g x out gi Hb Hi).
    apply out_of_range_iff in Hn. now rewrite Hn.
  - intros gi n Hb Hi -> Hn.
    rewrite (decode_group_parsed g x out gi Hb Hi).
    replace ((_ <? 0) || (_ >? 19682)) with false; [reflexivity|].
    symmetry. apply not_true_iff_false. rewrite out_of_range_iff. lia.
  - intros seed Hseed.
    assert (F : decode_flat groups mk
                = decode_spec (tokens groups) (xorshift32 seed) 0 [])
      by (now rewrite decode_flat_spec, Hseed).
    split; [|split].
    + rewrite decode_groups_flat_raise by discriminate.
      rewrite F. apply decode_spec_triplet.
    + unfold decode_groups. now rewrite F.
    + intros HS. now apply encode_groups_spec.
Qed.

(** C6, as the code has it: a group that is not skipped raises "invalid
    group" exactly when [int(g, 10)] rejects it; a group that [int] reads
    as a negative integer is not rejected there but raises "triplet out of
    range"; and the token list [["1234a"]] raises "invalid group" whatever
    the generator state, so before any offset is drawn, and does so through
    [decrypt_from_groups] for any two keys that keep a letter. *)
Theorem invalid_group_iff
  (g : str) (x : Z) (out : list Z) (cfg : CipherConfig) :
  (decode_group g (x, out) = Raise (Uvb76GenError (InvalidGroup g))
   <-> blank g = false /\ py_int g = None) /\
  (forall gi, blank g = false -> py_int g = Some gi -> gi < 0 ->
     decode_group g (x, out)
     = Raise (Uvb76GenError (TripletOutOfRange g))) /\
  decode_group (lit "1234a") (x, out)
  = Raise (Uvb76GenError (InvalidGroup (lit "1234a"))) /\
  (has_letter (key cfg) -> has_letter (mask_key cfg) ->
   decrypt_from_groups [lit "1234a"] cfg
   = Raise (Uvb76GenError (InvalidGroup (lit "1234a")))).
Proof.
  split; [split|split; [|split]].
  - intros H. destruct (blank g) eqn:Hb.
    + rewrite decode_group_blank in H by assumption. discriminate.
    + split; [reflexivity|].
      destruct (py_int g) as [gi|] eqn:Hi; [|reflexivity].
      rewrite (decode_group_parsed g x out gi Hb Hi) in H.
      destruct ((_ <? 0) || (_ >? 19682)); discriminate.
  - intros (Hb & Hi). now apply decode_group_invalid.
  - intros gi Hb Hi Hneg.
    rewrite (decode_group_parsed g x out gi Hb Hi).
    replace ((_ <? 0) || (_ >? 19682)) with true; [reflexivity|].
    symmetry. apply out_of_range_iff. left.
    pose proof (offset_range x). lia.
  - now apply decode_group_invalid.
  - intros Hk Hm. rewrite decrypt_from_groups_spec by assumption.
    unfold decode_groups. rewrite decode_flat_spec.
    now rewrite (seed32_encodable _ (sanitized_encodable (mask_key cfg))).
Qed.

Lemma decode_spec_range (x0 : Z) (toks : list str) :
  forall k out flat,
    Forall in_0_26 out ->
    decode_spec toks x0 k out = Ok flat ->
    Forall in_0_26 flat.
Proof.
  induction toks as [|g r IH]; intros k out flat Hout E.
  - simpl in E. now inversion E; subst.
  - cbn [decode_spec] in E.
    destruct (py_int g) as [gi|]; [|discriminate]. cbv zeta in E.
    destruct ((_ <? 0) || (_ >? 19682)) eqn:Er; [discriminate|].
    apply not_true_iff_false in Er. rewrite out_of_range_iff in Er.
    apply IH in E; [assumption|].
    apply Forall_app. split; [assumption|].
    destruct (unpack_range (gi - nth_offset x0 k)) as (Ha & Hb & Hc); [lia|].
    change (27 * 27) with 729 in Ha.
    constructor; [assumption|]. constructor; [assumption|].
    constructor; [assumption | constructor].
Qed.

Lemma in_0_25_no_Exists (l : list Z) :
  Forall in_0_25 l -> ~ Exists (fun v => v < 0 \/ 25 < v) l.
Proof.
  intros HF HE. apply Exists_exists in HE as (v & Hin & Hv).
  rewrite Forall_forall in HF. apply HF in Hin. unfold in_0_25 in Hin. lia.
Qed.

(** C7: once every group is unpacked into the flat sequence, what is
    removed is a run of 26 at its end and the whole of that run: the part
    kept is a prefix of the flat sequence that does not end in 26, so a 26
    further inside stays. The call then raises "symbol out of range"
    exactly when a value kept is outside [0, 25], which can only be a
    26, and otherwise returns the part kept, all of it in [0, 25]. *)
Theorem trailing_padding_only
  (groups : list str) (mk : str) (flat : list Z) :
  decode_flat groups mk = Ok flat ->
  (exists k, flat = pop_padding flat ++ repeat 26 k) /\
  (forall l, pop_padding flat <> l ++ [26]) /\
  (decode_groups groups mk = Raise (Uvb76GenError SymbolsOutOfRange)
   <-> Exists (fun v => v < 0 \/ 25 < v) (pop_padding flat)) /\
  (Exists (fun v => v < 0 \/ 25 < v) (pop_padding flat)
   <-> In 26 (pop_padding flat)) /\
  (~ Exists (fun v => v < 0 \/ 25 < v) (pop_padding flat) ->
   decode_groups groups mk = Ok (pop_padding flat) /\
   Forall (fun v => 0 <= v <= 25) (pop_padding flat)).
Proof.
  intros E.
  destruct (pop_padding_spec flat) as (k & Ek & Hlast).
  assert (Hr : Forall in_0_26 (pop_padding flat)).
  { rewrite decode_flat_spec in E.
    destruct (_seed32 mk) as [seed|e]; [|discriminate E]. cbn [bind] in E.
    apply decode_spec_range in E; [|constructor].
    rewrite Ek in E. now apply Forall_app in E. }
  assert (D : decode_groups groups mk
              = (_ <- check_symbols (pop_padding flat) ;;
                 Ok (pop_padding flat)))
    by (unfold decode_groups; now rewrite E).
  split; [now exists k|]. split; [assumption|].
  split; [|split].
  - rewrite D. destruct (check_symbols_cases (pop_padding flat))
      as [[HF ->]|[HE ->]]; cbn [bind].
    + split; [discriminate|]. intros HE.
      now apply in_0_25_no_Exists in HE.
    + tauto.
  - rewrite Exists_exists. split.
    + intros (v & Hin & Hv). rewrite Forall_forall in Hr.
      pose proof (Hr v Hin) as Hv'. unfold in_0_26 in Hv'.
      now replace 26 with v by lia.
    + intros Hin. exists 26. split; [assumption | lia].
  - intros Hno. rewrite D.
    destruct (check_symbols_cases (pop_padding flat))
      as [[HF ->]|[HE _]]; [|contradiction].
    split; [reflexivity | exact HF].
Qed.

(** *** Outcomes *)

Lemma outcome_bind {A B : Type} (m1 m2 : res A) (f : A -> res B) :
  outcome m1 = outcome m2 ->
  outcome (bind m1 f) = outcome (bind m2 f).
Proof.
  destruct m1 as [a1|e1], m2 as [a2|e2]; simpl; intros E;
    try discriminate; [now inversion E | now inversion E].
Qed.

Lemma decode_spec_values (x0 : Z) (t1 : list str) :
  forall t2 k out,
    map py_int t1 = map py_int t2 ->
    outcome (decode_spec t1 x0 k out) = outcome (decode_spec t2 x0 k out).
Proof.
  induction t1 as [|g1 r1 IH]; intros [|g2 r2] k out E;
    try discriminate; [reflexivity|].
  simpl in E. inversion E as [[Eg Er]]. cbn [decode_spec]. rewrite <- Eg.
  destruct (py_int g1) as [gi|]; [|reflexivity]. cbv zeta.
  destruct ((_ <? 0) || (_ >? 19682)); [reflexivity|].
  now apply IH.
Qed.

Lemma decode_groups_values (gs1 gs2 : list str) (mk : str) :
  map py_int (tokens gs1) = map py_int (tokens gs2) ->
  outcome (decode_groups gs1 mk) = outcome (decode_groups gs2 mk).
Proof.
  intros E. unfold decode_groups. apply outcome_bind.
  rewrite !decode_flat_spec.
  destruct (_seed32 mk) as [seed|e]; [|reflexivity]. cbn [bind].
  now apply decode_spec_values.
Qed.

Lemma tokens_app (l1 l2 : list str) :
  tokens (l1 ++ l2) = tokens l1 ++ tokens l2.
Proof. apply filter_app. Qed.

(** C9, as the code has it: [decode_groups] never looks at the width of a
    group. The value it returns, or the kind of error it raises (the
    message apart, which quotes the group as written), is determined by
    what [int(g, 10)] makes of the groups it does not skip, taken in
    order: two lists of groups with the same such readings have the same
    outcome, and return the same list when one of them returns. So a group
    may be replaced by another that [int] reads as the same integer, as
    "42" for "00042" or any two digit strings of at most 4300 digits that
    spell the same number, and an empty or blank group may be inserted or
    removed anywhere without any change at all. *)
Theorem decode_depends_on_values (gs1 gs2 : list str) (mk : str) :
  map py_int (tokens gs1) = map py_int (tokens gs2) ->
  outcome (decode_groups gs1 mk) = outcome (decode_groups gs2 mk) /\
  (forall out, decode_groups gs1 mk = Ok out <->
               decode_groups gs2 mk = Ok out) /\
  (forall l1 l2 g g',
     blank g = false -> blank g' = false -> py_int g = py_int g' ->
     outcome (decode_groups (l1 ++ g :: l2) mk)
     = outcome (decode_groups (l1 ++ g' :: l2) mk)) /\
  (forall l1 l2 g g',
     all_09 g -> all_09 g' -> g <> [] -> g' <> [] ->
     len g <= 4300 -> len g' <= 4300 -> dec_value g = dec_value g' ->
     outcome (decode_groups (l1 ++ g :: l2) mk)
     = outcome (decode_groups (l1 ++ g' :: l2) mk)) /\
  (forall l1 l2 g,
     blank g = true ->
     decode_groups (l1 ++ g :: l2) mk = decode_groups (l1 ++ l2) mk) /\
  py_int (lit "42") = py_int (lit "00042") /\
  outcome (decode_groups [lit "42"] mk)
  = outcome (decode_groups [lit "00042"] mk).
Proof.
  intros E.
  assert (R : forall l1 l2 g g',
             blank g = false -> blank g' = false -> py_int g = py_int g' ->
             outcome (decode_groups (l1 ++ g :: l2) mk)
             = outcome (decode_groups (l1 ++ g' :: l2) mk)).
  { intros l1 l2 g g' Hb Hb' Hi. apply decode_groups_values.
    rewrite !tokens_app, !tokens_cons_token by assumption.
    rewrite !map_app. cbn [map]. now rewrite Hi. }
  pose proof (decode_groups_values gs1 gs2 mk E) as O.
  split; [exact O|]. split; [|split; [exact R|split; [|split; [|split]]]].
  - intros out.
    destruct (decode_groups gs1 mk) as [o1|e1],
             (decode_groups gs2 mk) as [o2|e2];
      cbn [outcome] in O; try discriminate O.
    + inversion O; subst. reflexivity.
    + split; discriminate.
  - intros l1 l2 g g' Hg Hg' Hne Hne' Hl Hl' Ev.
    apply R; try (apply not_blank_digits; assumption).
    rewrite !py_int_digits by assumption. now rewrite Ev.
  - intros l1 l2 g Hb. unfold decode_groups.
    now rewrite !decode_flat_spec, !tokens_app, tokens_cons_blank.
  - reflexivity.
  - now apply decode_groups_values.
Qed.

(** *** The group-token parser *)

Lemma chunks5_rest5 (ds : str) :
  List.concat (chunks5 ds) ++ rest5 ds = ds /\
  Forall (fun g => len g = 5) (chunks5 ds) /\
  len (rest5 ds) = len ds mod 5.
Proof.
  induction ds as [ds IH] using (induction_ltof1 _ (@List.length N)).
  unfold ltof in IH.
  destruct ds as [|a [|b [|c [|d [|e r]]]]];
    try (repeat split; solve [reflexivity | constructor]).
  destruct (IH r) as (E1 & E2 & E3); [simpl; lia|].
  cbn [chunks5 rest5 List.concat]. repeat split.
  - cbn [app]. now rewrite E1.
  - constructor; [reflexivity | assumption].
  - rewrite E3, !len_cons.
    replace (1 + (1 + (1 + (1 + (1 + len r))))) with (len r + 1 * 5) by lia.
    now rewrite Z.mod_add by lia.
Qed.

Lemma chunk_loop_spec (ds : str) :
  forall (groups : list str) (buf : str),
    len buf < 5 ->
    chunk_loop (singles ds) groups (singles buf)
    = (groups ++ chunks5 (buf ++ ds), singles (rest5 (buf ++ ds))).
Proof.
  induction ds as [|d r IH]; intros groups buf Hb.
  - destruct buf as [|b1 [|b2 [|b3 [|b4 [|b5 buf]]]]];
      try (simpl; now rewrite app_nil_r).
    rewrite !len_cons in Hb. pose proof (len_nonneg buf). lia.
  - destruct buf as [|b1 [|b2 [|b3 [|b4 [|b5 buf]]]]].
    + apply (IH groups [d]). now vm_compute.
    + apply (IH groups [b1; d]). now vm_compute.
    + apply (IH groups [b1; b2; d]). now vm_compute.
    + apply (IH groups [b1; b2; b3; d]). now vm_compute.
    + change (chunk_loop (singles (d :: r)) groups (singles [b1; b2; b3; b4]))
        with (chunk_loop (singles r) (groups ++ [[b1; b2; b3; b4; d]])
                (singles [])).
      rewrite IH by now vm_compute.
      cbn [app chunks5 rest5]. now rewrite <- app_assoc.
    + rewrite !len_cons in Hb. pose proof (len_nonneg buf). lia.
Qed.

Lemma len_singles (s : str) : len (singles s) = len s.
Proof. unfold singles, len. now rewrite length_map. Qed.

(** The fast path, for any text with five digits or more. *)
Lemma parse_groups_fast (text : str) :
  5 <= len (filter is_digit text) ->
  parse_groups_maybe_ru text
  = if len (filter is_digit text) mod 5 =? 0
    then Ok (chunks5 (filter is_digit text))
    else Raise (ValueError TrailingDigits).
Proof.
  intros H5. unfold parse_groups_maybe_ru, findall_digit.
  destruct (Z.leb_spec 5 (len (singles (filter is_digit text)))) as [_|H];
    [|rewrite len_singles in H; lia].
  change (chunk_loop (singles (filter is_digit text)) [] [])
    with (chunk_loop (singles (filter is_digit text)) [] (singles [])).
  rewrite chunk_loop_spec by now vm_compute.
  cbn [app]. rewrite len_singles.
  destruct (chunks5_rest5 (filter is_digit text)) as (_ & _ & ->).
  now destruct (_ mod 5 =? 0).
Qed.

Lemma re_split_loop_chars (P : N -> Prop) (sep : N -> bool) (s : str) :
  Forall P s ->
  forall cur in_sep,
    Forall P cur ->
    Forall (Forall P) (re_split_loop sep s cur in_sep).
Proof.
  induction 1 as [|c r Hc _ IH]; intros cur in_sep Hcur; simpl.
  - constructor; [now apply Forall_rev | constructor].
  - destruct (sep c).
    + destruct in_sep.
      * now apply IH.
      * constructor; [now apply Forall_rev|]. apply IH. constructor.
    + apply IH. now constructor.
Qed.

Lemma str_eqb_eq (s t : str) : str_eqb s t = true -> s = t.
Proof.
  unfold str_eqb. now destruct (list_eq_dec N.eq_dec s t).
Qed.

(** No token of ASCII characters is a Russian digit word. *)
Lemma dict_get_ascii (t : str) :
  Forall (fun c => is_ascii c = true) t ->
  dict_get RUS_WORD_DIGIT t = None.
Proof.
  intros Ht.
  assert (W : forall w, In w (map fst RUS_WORD_DIGIT) -> t <> w).
  { intros w Hw ->. simpl in Hw.
    repeat (destruct Hw as [<-|Hw];
            [inversion Ht as [|? ? Hc _]; discriminate Hc|]).
    contradiction. }
  revert W. generalize RUS_WORD_DIGIT.
  induction l as [|[k v] r IH]; intros W; [reflexivity|].
  simpl. destruct (str_eqb t k) eqn:E.
  - apply str_eqb_eq in E. exfalso. apply (W k); [now left | assumption].
  - apply IH. intros w Hw. apply W. now right.
Qed.

Lemma word_loop_no_words (tokens : list str) :
  Forall (fun t => dict_get RUS_WORD_DIGIT t = None) tokens ->
  word_loop tokens [] [] = ([], []).
Proof.
  induction 1 as [|t r Ht _ IH]; [reflexivity|].
  cbn [word_loop]. rewrite Ht. exact IH.
Qed.

Lemma digit_or_space_upper (text : str) :
  Forall digit_or_space text -> upper text = text.
Proof.
  induction 1 as [|c r Hc _ IH]; [reflexivity|].
  unfold upper in *. cbn [flat_map]. rewrite IH.
  enough (upper_char c = [c]) as -> by reflexivity.
  unfold upper_char.
  destruct Hc as [Hc|[Ha Hs]].
  - apply is_09_bounds in Hc. unfold is_ascii, is_az. n_cases.
  - rewrite Ha. unfold isspace in Hs. rewrite Ha in Hs.
    unfold is_az. revert Hs. n_cases.
Qed.

Lemma digit_or_space_ascii (c : N) : digit_or_space c -> is_ascii c = true.
Proof.
  intros [Hc|[Ha _]]; [|assumption].
  apply is_09_bounds in Hc. unfold is_ascii. n_cases.
Qed.

(** The word path on a text of digit tokens: nothing is a digit word. *)
Lemma parse_groups_no_words (text : str) :
  Forall digit_or_space text ->
  len (filter is_digit text) < 5 ->
  parse_groups_maybe_ru text = Raise (ValueError NoGroups).
Proof.
  intros Ht H5. unfold parse_groups_maybe_ru, findall_digit.
  destruct (Z.leb_spec 5 (len (singles (filter is_digit text)))) as [H|_];
    [rewrite len_singles in H; lia|].
  rewrite digit_or_space_upper by assumption.
  rewrite word_loop_no_words; [reflexivity|].
  apply Forall_forall. intros t Hin. apply filter_In in Hin as [Hin _].
  apply dict_get_ascii.
  assert (Ha : Forall (fun c => is_ascii c = true) text)
    by (eapply Forall_impl; [|exact Ht]; apply digit_or_space_ascii).
  pose proof (re_split_loop_chars _ (fun c => negb (is_word c)) text Ha
                [] false (Forall_nil _)) as Hs.
  rewrite Forall_forall in Hs. now apply Hs.
Qed.

(** [parse_groups_maybe_ru] on a text of five digits or more: every digit
    of the text in order, cut into runs of five, and [ValueError] when
    digits are left over; on a text of digits and blanks with fewer than
    five digits, [ValueError] too. *)
Lemma parse_groups_maybe_ru_chunks (text : str) :
  (5 <= len (filter is_digit text) ->
   len (filter is_digit text) mod 5 = 0 ->
   parse_groups_maybe_ru text = Ok (chunks5 (filter is_digit text)) /\
   List.concat (chunks5 (filter is_digit text)) = filter is_digit text /\
   Forall (fun g => len g = 5) (chunks5 (filter is_digit text))) /\
  (5 <= len (filter is_digit text) ->
   len (filter is_digit text) mod 5 <> 0 ->
   parse_groups_maybe_ru text = Raise (ValueError TrailingDigits)) /\
  (Forall digit_or_space text ->
   len (filter is_digit text) < 5 ->
   parse_groups_maybe_ru text = Raise (ValueError NoGroups)).
Proof.
  split; [|split].
  - intros H5 Hm. rewrite parse_groups_fast, Hm by assumption.
    destruct (chunks5_rest5 (filter is_digit text)) as (E1 & E2 & E3).
    rewrite Hm in E3. apply len_zero_nil in E3.
    rewrite E3, app_nil_r in E1. now repeat split.
  - intros H5 Hm. rewrite parse_groups_fast by assumption.
    now destruct (Z.eqb_spec (len (filter is_digit text) mod 5) 0).
  - apply parse_groups_no_words.
Qed.

(** ** Further properties of [crypto.py] *)

(** *** Sanitizer and letter codes *)

Lemma upper_all_AZ (s : str) : all_AZ s -> upper s = s.
Proof.
  induction 1 as [|c r Hc _ IH]; [reflexivity|].
  unfold upper in *. cbn [flat_map]. rewrite IH.
  apply is_AZ_bounds in Hc. unfold upper_char, is_ascii, is_az. n_cases.
Qed.

Lemma AZ_RE_sub_empty_all_AZ (s : str) : all_AZ s -> AZ_RE_sub_empty s = s.
Proof.
  induction 1 as [|c r Hc _ IH]; [reflexivity|].
  unfold AZ_RE_sub_empty in *. cbn [filter]. now rewrite Hc, IH.
Qed.

(** X1: sanitizing is idempotent: a sanitized text holds only A-Z and is left
    as it is by a second pass, and a sanitized key is accepted unchanged. *)
Theorem sanitize_idempotent (text k k' : str) :
  all_AZ (sanitize_plaintext text) /\
  sanitize_plaintext (sanitize_plaintext text) = sanitize_plaintext text /\
  (sanitize_key k = Ok k' -> all_AZ k' /\ sanitize_key k' = Ok k').
Proof.
  split; [apply sanitize_plaintext_AZ|]. split.
  - unfold sanitize_plaintext at 1.
    rewrite upper_all_AZ, AZ_RE_sub_empty_all_AZ
      by apply sanitize_plaintext_AZ.
    reflexivity.
  - unfold sanitize_key at 1.
    destruct (Z.eqb_spec (len (AZ_RE_sub_empty (upper k))) 0) as [E|E];
      [discriminate|].
    intros H. inversion H; subst k'. clear H.
    pose proof (AZ_RE_sub_empty_AZ (upper k)) as HAZ.
    split; [assumption|]. unfold sanitize_key.
    rewrite upper_all_AZ, AZ_RE_sub_empty_all_AZ by assumption.
    now destruct (Z.eqb_spec (len (AZ_RE_sub_empty (upper k))) 0).
Qed.

Lemma has_letter_dec (k : str) : {has_letter k} + {~ has_letter k}.
Proof.
  unfold has_letter. destruct (AZ_RE_sub_empty (upper k)).
  - right. intros H. now apply H.
  - left. discriminate.
Qed.

Lemma sanitize_key_raise (k : str) :
  ~ has_letter k ->
  sanitize_key k = Raise (Uvb76GenError KeyMustContainLetter).
Proof.
  intros H. unfold sanitize_key, has_letter in *.
  destruct (AZ_RE_sub_empty (upper k)); [reflexivity|].
  exfalso. apply H. discriminate.
Qed.

Lemma encrypt_to_groups_ok (text : str) (cfg : CipherConfig) :
  has_letter (key cfg) -> has_letter (mask_key cfg) ->
  exists gs,
    encrypt_to_groups text cfg = Ok gs /\
    Forall group_shape gs /\
    decode_groups gs (AZ_RE_sub_empty (upper (mask_key cfg)))
    = Ok (shifted (fun p k => (p + k) mod 26) 0
            (letters_to_nums (sanitize_plaintext text))
            (letters_to_nums (AZ_RE_sub_empty (upper (key cfg))))).
Proof.
  intros Hk Hm. rewrite encrypt_to_groups_spec by assumption.
  apply decode_encode_groups;
    [apply cipher_in_range | apply sanitized_encodable].
Qed.

(** X2: the keys are checked before anything else: both facade calls return
    only when both keys keep a letter, and otherwise raise "Key must
    contain at least one A-Z letter", whatever the text or the groups. *)
Theorem keys_checked_first
  (text : str) (groups : list str) (cfg : CipherConfig) :
  (has_letter (key cfg) /\ has_letter (mask_key cfg) ->
   exists gs, encrypt_to_groups text cfg = Ok gs) /\
  (~ (has_letter (key cfg) /\ has_letter (mask_key cfg)) ->
   encrypt_to_groups text cfg = Raise (Uvb76GenError KeyMustContainLetter) /\
   decrypt_from_groups groups cfg
   = Raise (Uvb76GenError KeyMustContainLetter)).
Proof.
  split.
  - intros [Hk Hm].
    destruct (encrypt_to_groups_ok text cfg Hk Hm) as (gs & E & _).
    now exists gs.
  - intros H. unfold encrypt_to_groups, decrypt_from_groups.
    destruct (has_letter_dec (key cfg)) as [Hk|Hk].
    + assert (Hm : ~ has_letter (mask_key cfg)) by tauto.
      rewrite (sanitize_key_ok _ Hk), (sanitize_key_raise _ Hm).
      split; reflexivity.
    + rewrite (sanitize_key_raise _ Hk). split; reflexivity.
Qed.

(** *** Substitution cipher on any integers *)

Lemma shifted_inverse_mod (ks x : list Z) :
  forall i,
    shifted (fun c k => (c - k + 26) mod 26) i
      (shifted (fun p k => (p + k) mod 26) i x ks) ks
    = map (fun v => v mod 26) x.
Proof.
  induction x as [|p r IH]; intros i; simpl; [reflexivity|].
  rewrite IH. f_equal.
  set (k := at_ ks (i mod len ks)).
  rewrite <- Zplus_mod_idemp_l, <- Zminus_mod_idemp_l.
  rewrite Z.mod_mod by lia.
  rewrite Zminus_mod_idemp_l, Zplus_mod_idemp_l.
  replace (p + k - k + 26) with (p + 1 * 26) by lia.
  now rewrite Z.mod_add by lia.
Qed.

Lemma shifted_inverse_rev (ks c : list Z) :
  Forall in_0_25 c ->
  forall i,
    shifted (fun p k => (p + k) mod 26) i
      (shifted (fun c k => (c - k + 26) mod 26) i c ks) ks
    = c.
Proof.
  induction 1 as [|p r Hp _ IH]; intros i; simpl; [reflexivity|].
  rewrite IH. f_equal.
  set (k := at_ ks (i mod len ks)).
  rewrite <- (Z.mod_small p 26) at 2 by (unfold in_0_25 in Hp; lia).
  rewrite Zplus_mod_idemp_l.
  replace (p - k + 26 + k) with (p + 1 * 26) by lia.
  now rewrite Z.mod_add by lia.
Qed.

(** X3: both cipher functions accept any integers. With a key that is not
    empty they return a list as long as their input whose entries all lie
    in [0, 25]; with the empty key they raise [ZeroDivisionError], unless
    the input is empty too, in which case they return the empty list. *)
Theorem vigenere_total (x ks : list Z) :
  (ks <> [] ->
   exists c p,
     vigenere_encrypt x ks = Ok c /\ len c = len x /\
     Forall (fun v => 0 <= v <= 25) c /\
     vigenere_decrypt x ks = Ok p /\ len p = len x /\
     Forall (fun v => 0 <= v <= 25) p) /\
  (x <> [] ->
   vigenere_encrypt x [] = Raise ZeroDivisionError /\
   vigenere_decrypt x [] = Raise ZeroDivisionError) /\
  vigenere_encrypt [] ks = Ok [] /\
  vigenere_decrypt [] ks = Ok [].
Proof.
  split; [|split; [|split; reflexivity]].
  - intros Hk. unfold vigenere_encrypt, vigenere_decrypt.
    rewrite vigenere_encrypt_loop_spec, vigenere_decrypt_loop_spec
      by assumption.
    do 2 eexists. cbn [app]. repeat split; try apply shifted_length.
    + apply (shifted_in_range (fun p k => (p + k) mod 26)). intros a b.
      pose proof (Z.mod_pos_bound (a + b) 26). lia.
    + apply (shifted_in_range (fun c k => (c - k + 26) mod 26)). intros a b.
      pose proof (Z.mod_pos_bound (a - b + 26) 26). lia.
  - intros Hx. destruct x as [|p r]; [congruence|]. split; reflexivity.
Qed.

(** X4: encryption undoes decryption as well: for symbols [c] in [0, 25] and a
    non-empty key, encrypting the decryption of [c] gives [c] back; and on
    any integers [x], decrypting the encryption of [x] gives [x] reduced
    modulo 26 entry by entry. *)
Theorem vigenere_other_way (c x ks : list Z) :
  ks <> [] ->
  (Forall (fun v => 0 <= v <= 25) c ->
   exists p, vigenere_decrypt c ks = Ok p /\ vigenere_encrypt p ks = Ok c) /\
  (exists e, vigenere_encrypt x ks = Ok e /\
             vigenere_decrypt e ks = Ok (map (fun v => v mod 26) x)).
Proof.
  intros Hk. unfold vigenere_encrypt, vigenere_decrypt. split.
  - intros Hc. eexists.
    rewrite vigenere_decrypt_loop_spec by assumption. cbn [app].
    split; [reflexivity|].
    rewrite vigenere_encrypt_loop_spec by assumption. cbn [app].
    now rewrite shifted_inverse_rev.
  - eexists. rewrite vigenere_encrypt_loop_spec by assumption. cbn [app].
    split; [reflexivity|].
    rewrite vigenere_decrypt_loop_spec by assumption. cbn [app].
    now rewrite shifted_inverse_mod.
Qed.

(** *** Number of groups *)

Lemma encode_spec_length (x0 : Z) (nums : list Z) :
  Triples nums -> forall k, 3 * len (encode_spec nums x0 k) = len nums.
Proof.
  induction 1 as [|a b c rest _ IH]; intros k; [reflexivity|].
  cbn [encode_spec]. rewrite !len_cons, <- (IH (S k)). lia.
Qed.

Lemma pad_loop_length (nums : list Z) :
  len (pad_loop 2 nums) = 3 * ((len nums + 2) / 3).
Proof.
  destruct (pad_loop_spec nums) as (k & E & Hmod).
  assert (Hk : (k <= 2)%nat /\ len (pad_loop 2 nums) = len nums + Z.of_nat k).
  { cbn [pad_loop] in *.
    destruct (negb (len nums mod 3 =? 0)).
    - destruct (negb (len (nums ++ [26]) mod 3 =? 0)).
      + rewrite !len_app. change (len [26]) with 1.
        rewrite <- app_assoc in E. apply app_inv_head in E.
        destruct k as [|[|[|k]]]; try discriminate. lia.
      + rewrite !len_app. change (len [26]) with 1.
        apply app_inv_head in E.
        destruct k as [|[|k]]; try discriminate. lia.
    - rewrite <- (app_nil_r nums) in E at 1. apply app_inv_head in E.
      destruct k; try discriminate. lia. }
  destruct Hk as [Hk El]. rewrite El in Hmod |- *.
  pose proof (len_nonneg nums).
  revert Hmod. Z.to_euclidean_division_equations. lia.
Qed.

Lemma encode_loop_length (nums : list Z) :
  Triples nums ->
  forall x groups gs,
    encode_loop nums x groups = Ok gs ->
    3 * len gs = 3 * len groups + len nums.
Proof.
  induction 1 as [|a b c rest _ IH]; intros x groups gs E.
  - simpl in E. inversion E; subst. change (len (@nil Z)) with 0. lia.
  - cbn [encode_loop] in E. destruct (next x) as [v x'].
    destruct (py_str _) as [t|e]; [|discriminate E]. cbn [bind] in E.
    apply IH in E. rewrite len_app in E. change (len [zfill 5 t]) with 1 in E.
    rewrite !len_cons. lia.
Qed.

Lemma encode_groups_length (nums : list Z) (m : str) (gs : list str) :
  encode_groups nums m = Ok gs -> len gs = (len nums + 2) / 3.
Proof.
  unfold encode_groups. intros E.
  destruct (_seed32 m) as [seed|e]; [|discriminate E]. cbn [bind] in E.
  destruct (pad_loop_spec nums) as (k & _ & Hmod).
  apply encode_loop_length in E; [|now apply Triples_of_len].
  rewrite pad_loop_length in E. change (len (@nil str)) with 0 in E. lia.
Qed.

(** X5: whenever [encode_groups] returns, a message of [n] symbols is
    written as [ceil(n / 3)] groups, whatever the symbols and the mask key;
    it does return when the symbols lie in [0, 25] and UTF-8 can encode the
    mask key; so [encrypt_to_groups] returns one group for every three
    letters of the sanitized text, rounded up. *)
Theorem number_of_groups
  (cipher_nums : list Z) (mk text : str) (cfg : CipherConfig) :
  (forall gs, encode_groups cipher_nums mk = Ok gs ->
              len gs = (len cipher_nums + 2) / 3) /\
  (Forall (fun v => 0 <= v <= 25) cipher_nums -> encodable mk ->
   exists gs, encode_groups cipher_nums mk = Ok gs /\
              len gs = (len cipher_nums + 2) / 3) /\
  (has_letter (key cfg) -> has_letter (mask_key cfg) ->
   exists gs, encrypt_to_groups text cfg = Ok gs /\
              len gs = (len (sanitize_plaintext text) + 2) / 3).
Proof.
  split; [apply encode_groups_length|]. split.
  - intros HS Hm.
    destruct (decode_encode_groups cipher_nums mk HS Hm) as (gs & E & _).
    exists gs. split; [assumption | now apply encode_groups_length in E].
  - intros Hk Hm.
    destruct (encrypt_to_groups_ok text cfg Hk Hm) as (gs & E & _).
    exists gs. split; [assumption|].
    rewrite encrypt_to_groups_spec in E by assumption.
    apply encode_groups_length in E.
    rewrite E, shifted_length. unfold letters_to_nums, len.
    now rewrite length_map.
Qed.

(** *** The generator stays within 32 bits *)

Lemma land_mask_uint32 (x : Z) : uint32 (Z.land x MASK32).
Proof.
  unfold uint32. change MASK32 with (Z.ones 32).
  rewrite Z.land_ones by lia. apply Z.mod_pos_bound. lia.
Qed.

Lemma land_mask_id (x : Z) : uint32 x -> Z.land x MASK32 = x.
Proof.
  unfold uint32. intros Hx. change MASK32 with (Z.ones 32).
  rewrite Z.land_ones by lia. apply Z.mod_small. exact Hx.
Qed.

Lemma lxor_uint32 (a b : Z) : uint32 a -> uint32 b -> uint32 (Z.lxor a b).
Proof.
  unfold uint32. intros Ha Hb.
  assert (H0 : 0 <= Z.lxor a b) by (apply Z.lxor_nonneg; lia).
  split; [assumption|].
  destruct (Z.eq_dec (Z.lxor a b) 0) as [->|Hne]; [reflexivity|].
  apply Z.log2_lt_pow2; [lia|].
  pose proof (Z.log2_lxor a b ltac:(lia) ltac:(lia)) as Hl.
  assert (La : Z.log2 a < 32).
  { destruct (Z.eq_dec a 0) as [->|]; [reflexivity|].
    apply Z.log2_lt_pow2; lia. }
  assert (Lb : Z.log2 b < 32).
  { destruct (Z.eq_dec b 0) as [->|]; [reflexivity|].
    apply Z.log2_lt_pow2; lia. }
  lia.
Qed.

Lemma next_uint32 (x : Z) :
  uint32 x -> uint32 (snd (next x)) /\ fst (next x) = snd (next x).
Proof.
  intros Hx. unfold next. cbn [fst snd].
  set (x1 := Z.lxor x (Z.land (Z.shiftl x 13) MASK32)).
  set (x2 := Z.lxor x1 (Z.land (Z.shiftr x1 17) MASK32)).
  set (x3 := Z.lxor x2 (Z.land (Z.shiftl x2 5) MASK32)).
  assert (H1 : uint32 x1)
    by (apply lxor_uint32; [assumption | apply land_mask_uint32]).
  assert (H2 : uint32 x2)
    by (apply lxor_uint32; [assumption | apply land_mask_uint32]).
  assert (H3 : uint32 x3)
    by (apply lxor_uint32; [assumption | apply land_mask_uint32]).
  split; [assumption | now apply land_mask_id].
Qed.

(** X6: whatever integer seeds it, the generator only ever holds and yields
    unsigned 32-bit values: after any number of draws its state lies in
    [0, 2^32), and the value it yields next is that of its new state. *)
Theorem xorshift32_uint32 (seed : Z) (k : nat) :
  uint32 (after_draws (xorshift32 seed) k) /\
  uint32 (fst (next (after_draws (xorshift32 seed) k))) /\
  fst (next (after_draws (xorshift32 seed) k))
  = after_draws (xorshift32 seed) (S k).
Proof.
  assert (H : uint32 (after_draws (xorshift32 seed) k)).
  { induction k as [|k IH]; [apply land_mask_uint32|].
    rewrite after_draws_succ. now apply next_uint32. }
  destruct (next_uint32 _ H) as [H1 H2].
  rewrite after_draws_succ, H2. auto.
Qed.

(** *** Letters and their codes *)

Lemma chr_ord (c : N) : (c < 1114112)%N -> chr (65 + (ord c - 65)) = Ok c.
Proof.
  intros Hc. replace (65 + (ord c - 65)) with (ord c) by lia.
  unfold chr, ord.
  replace ((0 <=? Z.of_N c) && (Z.of_N c <? 1114112)) with true
    by (symmetry; apply andb_true_iff; split;
        [apply Z.leb_le | apply Z.ltb_lt]; lia).
  now rewrite N2Z.id.
Qed.

Lemma chr_Ok (n : Z) (c : N) :
  chr n = Ok c -> ord c = n /\ (c < 1114112)%N.
Proof.
  unfold chr, ord.
  destruct ((0 <=? n) && (n <? 1114112)) eqn:E; [|discriminate].
  apply andb_true_iff in E as [E1 E2].
  apply Z.leb_le in E1. apply Z.ltb_lt in E2.
  intros H. inversion H; subst. lia.
Qed.

Lemma letters_nums_inverse_aux (nums : list Z) (t : str) :
  nums_to_letters nums = Ok t -> letters_to_nums t = nums /\ valid_str t.
Proof.
  revert t. induction nums as [|n r IH]; intros t H.
  - inversion H; subst. split; [reflexivity | constructor].
  - cbn [nums_to_letters] in H.
    destruct (chr (65 + n)) as [c|] eqn:Ec; [|discriminate].
    cbn [bind] in H.
    destruct (nums_to_letters r) as [s'|]; [|discriminate].
    cbn [bind] in H. inversion H; subst. clear H.
    destruct (IH s' eq_refl) as [E V].
    apply chr_Ok in Ec as [Eo Hc].
    split; [|now constructor].
    cbn [letters_to_nums map]. fold (letters_to_nums s').
    rewrite E. f_equal. lia.
Qed.

(** X7: [nums_to_letters] and [letters_to_nums] are inverse to each other on
    all of Python's strings, not only on A-Z: the letters of the codes of
    [s] are [s], and whenever [nums_to_letters] returns, the codes of what
    it returns are the numbers it was given. *)
Theorem letters_nums_inverse (s : str) (nums : list Z) (t : str) :
  (valid_str s -> nums_to_letters (letters_to_nums s) = Ok s) /\
  (nums_to_letters nums = Ok t -> letters_to_nums t = nums /\ valid_str t).
Proof.
  split.
  - induction 1 as [|c r Hc _ IH]; [reflexivity|].
    cbn [letters_to_nums map nums_to_letters]. fold (letters_to_nums r).
    rewrite chr_ord by assumption. cbn [bind]. now rewrite IH.
  - apply letters_nums_inverse_aux.
Qed.

(** *** What the unpacker and the facade can return *)

Lemma nums_to_letters_range (nums : list Z) :
  Forall in_0_25 nums ->
  exists s, nums_to_letters nums = Ok s /\ all_AZ s /\ len s = len nums.
Proof.
  induction 1 as [|n r Hn _ (s & E & HAZ & L)].
  - exists []. repeat split. constructor.
  - unfold in_0_25 in Hn. cbn [nums_to_letters]. unfold chr.
    replace ((0 <=? 65 + n) && (65 + n <? 1114112)) with true
      by (symmetry; apply andb_true_iff; split;
          [apply Z.leb_le | apply Z.ltb_lt]; lia).
    cbn [bind]. rewrite E. cbn [bind]. eexists. split; [reflexivity|].
    split.
    + constructor; [|assumption]. apply is_AZ_bounds. lia.
    + rewrite !len_cons. lia.
Qed.

Lemma decode_spec_length (x0 : Z) (toks : list str) :
  forall k out flat,
    decode_spec toks x0 k out = Ok flat ->
    len flat = len out + 3 * len toks.
Proof.
  induction toks as [|g r IH]; intros k out flat E.
  - simpl in E. inversion E; subst. unfold len. cbn [List.length]. lia.
  - cbn [decode_spec] in E.
    destruct (py_int g) as [gi|]; [|discriminate]. cbv zeta in E.
    destruct ((_ <? 0) || (_ >? 19682)); [discriminate|].
    apply IH in E. rewrite E. unfold len. rewrite length_app.
    cbn [List.length]. lia.
Qed.

Lemma decode_spec_raise (x0 : Z) (toks : list str) :
  forall k out e,
    decode_spec toks x0 k out = Raise e -> exists m, e = Uvb76GenError m.
Proof.
  induction toks as [|g r IH]; intros k out e E.
  - discriminate.
  - cbn [decode_spec] in E.
    destruct (py_int g) as [gi|];
      [|inversion E; eexists; reflexivity]. cbv zeta in E.
    destruct ((_ <? 0) || (_ >? 19682));
      [inversion E; eexists; reflexivity|].
    now apply IH in E.
Qed.

Lemma pop_padding_length (out : list Z) : len (pop_padding out) <= len out.
Proof.
  destruct (pop_padding_spec out) as (k & E & _).
  rewrite E at 2. rewrite len_app. pose proof (len_nonneg (repeat 26 k)). lia.
Qed.

Lemma decode_groups_cases (groups : list str) (mk : str) :
  (exists out, decode_groups groups mk = Ok out /\
               Forall in_0_25 out /\ len out <= 3 * len (tokens groups)) \/
  (exists m, decode_groups groups mk = Raise (Uvb76GenError m)) \/
  (~ encodable mk /\ decode_groups groups mk = Raise UnicodeEncodeError).
Proof.
  unfold decode_groups. rewrite decode_flat_spec.
  destruct (_seed32 mk) as [seed|e] eqn:Es; cbn [bind].
  - destruct (decode_spec _ _ _ _) as [flat|e] eqn:E; cbn [bind].
    + destruct (check_symbols_cases (pop_padding flat))
        as [[HF ->]|[_ ->]]; cbn [bind].
      * left. eexists. split; [reflexivity|]. split; [assumption|].
        apply decode_spec_length in E. change (len (@nil Z)) with 0 in E.
        pose proof (pop_padding_length flat). lia.
      * right. left. eexists. reflexivity.
    + right. left. apply decode_spec_raise in E as (m & ->).
      eexists. reflexivity.
  - right. right. unfold _seed32 in Es. unfold encodable.
    destruct (existsb is_surrogate mk); [|discriminate Es].
    inversion Es. split; [discriminate | reflexivity].
Qed.

(** X8: whatever the groups and the keys, [decrypt_from_groups] either returns
    a string of letters A-Z, at most three for each group it did not skip,
    or raises [Uvb76GenError]; no other exception escapes it. When
    [decode_groups] returns, every symbol is in [0, 25]. *)
Theorem decrypt_returns_letters
  (groups : list str) (cfg : CipherConfig) (mk : str) :
  ((exists s, decrypt_from_groups groups cfg = Ok s /\
              all_AZ s /\ len s <= 3 * len (tokens groups)) \/
   (exists m, decrypt_from_groups groups cfg = Raise (Uvb76GenError m))) /\
  (forall out, decode_groups groups mk = Ok out ->
               Forall (fun v => 0 <= v <= 25) out).
Proof.
  split.
  - destruct (has_letter_dec (key cfg)) as [Hk|Hk];
      [destruct (has_letter_dec (mask_key cfg)) as [Hm|Hm]|].
    + rewrite decrypt_from_groups_spec by assumption.
      destruct (decode_groups_cases groups
                  (AZ_RE_sub_empty (upper (mask_key cfg))))
        as [(out & -> & HF & L)|[(m & ->)|(Hne & _)]]; cbn [bind].
      * left.
        destruct (nums_to_letters_range
                    (shifted (fun c k => (c - k + 26) mod 26) 0 out
                       (letters_to_nums (AZ_RE_sub_empty (upper (key cfg))))))
          as (s & E & HAZ & Ls).
        { apply shifted_in_range. intros a b.
          pose proof (Z.mod_pos_bound (a - b + 26) 26). lia. }
        exists s. rewrite shifted_length in Ls. repeat split; try assumption.
        lia.
      * right. eexists. reflexivity.
      * elim Hne. apply sanitized_encodable.
    + right. unfold decrypt_from_groups.
      rewrite (sanitize_key_ok _ Hk), (sanitize_key_raise _ Hm).
      eexists. reflexivity.
    + right. unfold decrypt_from_groups. rewrite (sanitize_key_raise _ Hk).
      eexists. reflexivity.
  - intros out E.
    destruct (decode_groups_cases groups mk)
      as [(o & E' & HF & _)|[(m & E')|(_ & E')]];
      rewrite E in E'; [|discriminate|discriminate].
    now inversion E'; subst.
Qed.

(** X9: a wrong cipher key goes unnoticed: groups written under [k] and mask
    key [m] are decrypted under any other key [k'] with a letter and the
    same [m] without an error, into a string of letters A-Z as long as the
    sanitized text, namely the text shifted by [k] and shifted back by
    [k']. *)
Theorem wrong_key_unnoticed (text k k' m : str) :
  has_letter k -> has_letter k' -> has_letter m ->
  exists gs s,
    encrypt_to_groups text {| key := k; mask_key := m |} = Ok gs /\
    decrypt_from_groups gs {| key := k'; mask_key := m |} = Ok s /\
    all_AZ s /\
    len s = len (sanitize_plaintext text) /\
    letters_to_nums s
    = shifted (fun c k => (c - k + 26) mod 26) 0
        (shifted (fun p k => (p + k) mod 26) 0
           (letters_to_nums (sanitize_plaintext text))
           (letters_to_nums (AZ_RE_sub_empty (upper k))))
        (letters_to_nums (AZ_RE_sub_empty (upper k'))).
Proof.
  intros Hk Hk' Hm.
  destruct (encrypt_to_groups_ok text {| key := k; mask_key := m |} Hk Hm)
    as (gs & E & _ & D). cbn [key mask_key] in D.
  exists gs.
  rewrite (decrypt_from_groups_spec gs {| key := k'; mask_key := m |})
    by assumption.
  cbn [key mask_key]. rewrite D. cbn [bind].
  set (c := shifted (fun c k => (c - k + 26) mod 26) 0 _ _).
  destruct (nums_to_letters_range c) as (s & Es & HAZ & Ls).
  { apply shifted_in_range. intros a b.
    pose proof (Z.mod_pos_bound (a - b + 26) 26). lia. }
  exists s. repeat split; try assumption.
  - rewrite Ls. unfold c. rewrite !shifted_length.
    unfold letters_to_nums, len. now rewrite length_map.
  - destruct (letters_nums_inverse_aux c s Es) as [-> _]. reflexivity.
Qed.

(** ** Formatting and parsing back *)

(** *** Splitting into tokens *)

Lemma nonempty_rev (cur : str) :
  nonempty (rev cur) = match cur with [] => false | _ => true end.
Proof.
  unfold nonempty, str_eqb.
  destruct (list_eq_dec N.eq_dec (rev cur) []) as [E|E].
  - apply (f_equal (@rev N)) in E. rewrite rev_involutive in E.
    now subst.
  - destruct cur; [now elim E | reflexivity].
Qed.

Lemma re_split_fields (sep : N -> bool) (s : str) :
  forall cur in_sep,
    (in_sep = true -> cur = []) ->
    filter nonempty (re_split_loop sep s cur in_sep) = fields sep s cur.
Proof.
  induction s as [|c r IH]; intros cur in_sep Hin.
  - cbn [re_split_loop filter fields]. rewrite nonempty_rev.
    now destruct cur.
  - cbn [re_split_loop fields]. destruct (sep c).
    + destruct in_sep.
      * rewrite (Hin eq_refl). now apply IH.
      * cbn [filter]. rewrite nonempty_rev, IH by reflexivity.
        now destruct cur.
    + apply IH. discriminate.
Qed.

Lemma fields_run (sep : N -> bool) (w : str) :
  Forall (fun c => sep c = false) w ->
  forall s cur, fields sep (w ++ s) cur = fields sep s (rev w ++ cur).
Proof.
  induction 1 as [|c r Hc _ IH]; intros s cur; [reflexivity|].
  cbn [app fields rev]. rewrite Hc, IH, <- app_assoc. reflexivity.
Qed.

Lemma fields_seps (sep : N -> bool) (a : str) :
  Forall (fun c => sep c = true) a ->
  forall s, fields sep (a ++ s) [] = fields sep s [].
Proof.
  induction 1 as [|c r Hc _ IH]; intros s; [reflexivity|].
  cbn [app fields]. now rewrite Hc.
Qed.

Lemma fields_sep_last (sep : N -> bool) (c : N) (s : str) :
  sep c = true ->
  forall cur, fields sep (s ++ [c]) cur = fields sep s cur.
Proof.
  intros Hc. induction s as [|d r IH]; intros cur.
  - cbn [app fields]. rewrite Hc. now destruct cur.
  - cbn [app fields]. destruct (sep d); [|apply IH].
    rewrite IH. reflexivity.
Qed.

Lemma fields_seps_last (sep : N -> bool) (a : str) :
  Forall (fun c => sep c = true) a ->
  forall s, fields sep (s ++ a) [] = fields sep s [].
Proof.
  intros Ha. apply Forall_rev in Ha. rewrite <- (rev_involutive a).
  induction Ha as [|c r Hc _ IH]; intros s.
  - now rewrite app_nil_r.
  - cbn [rev]. rewrite app_assoc, fields_sep_last by assumption. apply IH.
Qed.

Lemma lstrip_by_split (sp : N -> bool) (s : str) :
  exists pre, s = pre ++ lstrip_by sp s /\
              Forall (fun c => sp c = true) pre.
Proof.
  induction s as [|c r (pre & E & Hp)].
  - exists []. split; [reflexivity | constructor].
  - cbn [lstrip_by]. destruct (sp c) eqn:Hc.
    + exists (c :: pre). split; [now rewrite E at 1 | now constructor].
    + exists []. split; [reflexivity | constructor].
Qed.

Lemma strip_by_split (sp : N -> bool) (s : str) :
  exists pre post,
    s = pre ++ strip_by sp s ++ post /\
    Forall (fun c => sp c = true) pre /\
    Forall (fun c => sp c = true) post.
Proof.
  unfold strip_by.
  destruct (lstrip_by_split sp s) as (pre & E & Hpre).
  destruct (lstrip_by_split sp (rev (lstrip_by sp s))) as (tsop & E' & Hpost).
  exists pre, (rev tsop). repeat split.
  - rewrite E at 1. f_equal.
    rewrite <- rev_app_distr, <- E'. now rewrite rev_involutive.
  - assumption.
  - now apply Forall_rev.
Qed.

Lemma fields_strip (sep : N -> bool) (s : str) :
  fields sep (strip_by sep s) [] = fields sep s [].
Proof.
  destruct (strip_by_split sep s) as (pre & post & E & Hpre & Hpost).
  rewrite E at 2.
  rewrite fields_seps, fields_seps_last by assumption. reflexivity.
Qed.

(** [parse_groups_text] returns the non-empty runs of non-blanks. *)
Lemma parse_groups_text_fields (text : str) :
  parse_groups_text text = fields isspace text [].
Proof.
  unfold parse_groups_text, re_split, strip.
  rewrite re_split_fields by discriminate. apply fields_strip.
Qed.

Lemma fields_clean (sep : N -> bool) (s : str) :
  forall cur,
    Forall (fun c => sep c = false) cur ->
    Forall (clean sep) (fields sep s cur).
Proof.
  induction s as [|c r IH]; intros cur Hcur.
  - cbn [fields]. destruct cur as [|d cur']; constructor; [|constructor].
    split; [|now apply Forall_rev].
    intros E. apply (f_equal (@rev N)) in E.
    rewrite rev_involutive in E. discriminate.
  - cbn [fields]. destruct (sep c) eqn:Hc.
    + destruct cur as [|d cur']; [apply IH; constructor|].
      constructor; [|apply IH; constructor].
      split; [|now apply Forall_rev].
      intros E. apply (f_equal (@rev N)) in E.
      rewrite rev_involutive in E. discriminate.
    + apply IH. now constructor.
Qed.

(** *** Tokens of joined text *)

Lemma Toks_nil (sep : N -> bool) : Toks sep [] [].
Proof. intros tail _. reflexivity. Qed.

Lemma Toks_token (sep : N -> bool) (t : str) :
  clean sep t -> Toks sep t [t].
Proof.
  intros [Hne Ht] tail Htail. rewrite fields_run by assumption.
  rewrite app_nil_r.
  destruct Htail as [->|(c & r & -> & Hc)]; cbn [fields].
  - destruct (rev t) eqn:E.
    + apply (f_equal (@rev N)) in E. rewrite rev_involutive in E.
      now subst.
    + rewrite <- E, rev_involutive. reflexivity.
  - rewrite Hc. destruct (rev t) eqn:E.
    + apply (f_equal (@rev N)) in E. rewrite rev_involutive in E.
      now subst.
    + rewrite <- E, rev_involutive. reflexivity.
Qed.

Lemma seps_tail (sep : N -> bool) (a tail : str) :
  Forall (fun c => sep c = true) a ->
  (tail = [] \/ exists c r, tail = c :: r /\ sep c = true) ->
  a ++ tail = [] \/ exists c r, a ++ tail = c :: r /\ sep c = true.
Proof.
  intros Ha Ht. destruct Ha as [|c r Hc _]; [exact Ht|].
  right. exists c, (r ++ tail). now split.
Qed.

Lemma Toks_seps_after (sep : N -> bool) (u a : str) (ts : list str) :
  Toks sep u ts -> Forall (fun c => sep c = true) a ->
  Toks sep (u ++ a) ts.
Proof.
  intros Hu Ha tail Htail. rewrite <- app_assoc.
  rewrite Hu by now apply seps_tail.
  now rewrite fields_seps.
Qed.

Lemma Toks_app (sep : N -> bool) (u1 a u2 : str) (ts1 ts2 : list str) :
  Toks sep u1 ts1 -> Forall (fun c => sep c = true) a -> a <> [] ->
  Toks sep u2 ts2 ->
  Toks sep (u1 ++ a ++ u2) (ts1 ++ ts2).
Proof.
  intros H1 Ha Hne H2 tail Htail.
  rewrite <- !app_assoc. rewrite H1.
  - rewrite fields_seps by assumption. rewrite H2 by assumption.
    now rewrite app_assoc.
  - destruct Ha as [|c r Hc _]; [congruence|].
    right. exists c, (r ++ u2 ++ tail). now split.
Qed.

Lemma Toks_join (sep : N -> bool) (a : str) (us : list str)
  (tss : list (list str)) :
  Forall (fun c => sep c = true) a -> a <> [] ->
  Forall2 (Toks sep) us tss ->
  Toks sep (join a us) (List.concat tss).
Proof.
  intros Ha Hne H. induction H as [|u ts us' tss' Hu Hrest IH].
  - apply Toks_nil.
  - cbn [List.concat]. destruct us' as [|u' us''].
    + inversion Hrest; subst. cbn [join List.concat].
      now rewrite app_nil_r.
    + change (join a (u :: u' :: us'')) with (u ++ a ++ join a (u' :: us'')).
      now apply Toks_app.
Qed.

Lemma Toks_fields (sep : N -> bool) (u : str) (ts : list str) :
  Toks sep u ts -> fields sep u [] = ts.
Proof.
  intros H. specialize (H [] (or_introl eq_refl)).
  now rewrite !app_nil_r in H.
Qed.

Lemma concat_singletons {A : Type} (l : list A) :
  List.concat (map (fun x => [x]) l) = l.
Proof. induction l as [|x r IH]; [reflexivity | simpl; now rewrite IH]. Qed.

(** Tokens joined by a separator string read back as themselves. *)
Lemma Toks_join_tokens (sep : N -> bool) (a : str) (ts : list str) :
  Forall (fun c => sep c = true) a -> a <> [] ->
  Forall (clean sep) ts ->
  Toks sep (join a ts) ts.
Proof.
  intros Ha Hne Hts.
  rewrite <- (concat_singletons ts) at 2.
  apply Toks_join; try assumption.
  induction Hts as [|t r Ht _ IH]; constructor; [|assumption].
  now apply Toks_token.
Qed.

(** *** Lines of [per_line] groups *)

Lemma slice_step {A : Type} (l : list A) (i p : Z) :
  0 <= i < len l -> 1 <= p ->
  slice l i (i + p) ++ skipn (Z.to_nat (i + p)) l = skipn (Z.to_nat i) l.
Proof.
  intros Hi Hp. unfold slice.
  replace (i <? 0) with false by (symmetry; apply Z.ltb_ge; lia).
  replace (i + p <? 0) with false by (symmetry; apply Z.ltb_ge; lia).
  rewrite (Z.min_l i) by lia.
  destruct (Z.le_gt_cases (i + p) (len l)) as [Hle|Hgt].
  - rewrite Z.min_l by lia.
    replace (Z.to_nat (i + p)) with (Z.to_nat (i + p - i) + Z.to_nat i)%nat
      by lia.
    rewrite <- skipn_skipn. apply firstn_skipn.
  - rewrite Z.min_r by lia.
    rewrite (skipn_all2 (n := Z.to_nat (i + p)))
      by (unfold len in Hgt; lia).
    rewrite app_nil_r. apply firstn_all2.
    rewrite length_skipn. unfold len. lia.
Qed.

Lemma range_slices {A : Type} (l : list A) (p : Z) :
  1 <= p ->
  forall fuel i,
    0 <= i -> len l - i <= Z.of_nat fuel ->
    List.concat
      (map (fun j => slice l j (j + p)) (range_loop fuel i (len l) p))
    = skipn (Z.to_nat i) l.
Proof.
  intros Hp. induction fuel as [|f IH]; intros i Hi Hf.
  - cbn. symmetry. apply skipn_all2. unfold len in Hf. lia.
  - cbn [range_loop].
    replace (0 <? p) with true by (symmetry; apply Z.ltb_lt; lia).
    destruct (Z.ltb_spec i (len l)) as [Hlt|Hge].
    + cbn [map List.concat]. rewrite IH by lia.
      apply slice_step; lia.
    + cbn. symmetry. apply skipn_all2. unfold len in Hge. lia.
Qed.

Lemma py_range_slices {A : Type} (l : list A) (p : Z) :
  1 <= p ->
  exists idx,
    py_range 0 (len l) p = Done idx /\
    List.concat (map (fun j => slice l j (j + p)) idx) = l.
Proof.
  intros Hp. unfold py_range.
  replace (p =? 0) with false by (symmetry; apply Z.eqb_neq; lia).
  eexists. split; [reflexivity|].
  rewrite range_slices; [reflexivity | assumption | lia|].
  pose proof (len_nonneg l). lia.
Qed.

Lemma py_range_backwards (n p : Z) :
  0 <= n -> p < 0 -> py_range 0 n p = Done [].
Proof.
  intros Hn Hp. unfold py_range.
  replace (p =? 0) with false by (symmetry; apply Z.eqb_neq; lia).
  destruct (Z.to_nat (Z.abs (n - 0))); [reflexivity|].
  cbn [range_loop].
  replace (0 <? p) with false by (symmetry; apply Z.ltb_ge; lia).
  now replace (n <? 0) with false by (symmetry; apply Z.ltb_ge; lia).
Qed.

Lemma isspace_SP : Forall (fun c => isspace c = true) SP.
Proof. repeat constructor. Qed.

Lemma isspace_NL : Forall (fun c => isspace c = true) NL.
Proof. repeat constructor. Qed.

(** Lines of tokens, joined by spaces within a line and by newlines
    between lines, with a newline at the end, read back as the tokens. *)
Lemma lines_Toks (sep : N -> bool) (chunks : list (list str)) :
  Forall (fun c => sep c = true) SP ->
  Forall (fun c => sep c = true) NL ->
  Forall (Forall (clean sep)) chunks ->
  Toks sep (join NL (map (join SP) chunks) ++ NL) (List.concat chunks).
Proof.
  intros HSP HNL Hc. apply Toks_seps_after; [|assumption].
  apply Toks_join; [assumption | discriminate|].
  induction Hc as [|ch r Hch _ IH]; constructor; [|assumption].
  apply Toks_join_tokens; [assumption | discriminate | assumption].
Qed.

(** X11: [format_groups] then [parse_groups_text]: with at least one group to
    the line, groups that are not empty and hold no blank are laid out
    and read back as they were. [per_line = 0] raises the [ValueError] of
    [range], and a negative [per_line] loses every group: the text is a
    single newline. *)
Theorem format_groups_parse_back (groups : list str) (per_line : Z) :
  (1 <= per_line -> Forall (clean isspace) groups ->
   exists text, format_groups groups per_line = Done text /\
                parse_groups_text text = groups) /\
  format_groups groups 0 = Fail RangeStepZero /\
  (per_line < 0 -> format_groups groups per_line = Done NL).
Proof.
  split; [|split].
  - intros Hp Hg. unfold format_groups.
    destruct (py_range_slices groups per_line Hp) as (idx & -> & Ec).
    cbn [fbind]. eexists. split; [reflexivity|].
    rewrite parse_groups_text_fields, <- map_map.
    etransitivity; [|exact Ec]. apply Toks_fields, lines_Toks.
    + apply isspace_SP.
    + apply isspace_NL.
    + apply Forall_concat. now rewrite Ec.
  - reflexivity.
  - intros Hp. unfold format_groups.
    rewrite py_range_backwards by (assumption || apply len_nonneg).
    reflexivity.
Qed.

(** *** The file of raw groups *)

Lemma five_digits_clean (g : str) : five_digits g -> clean isspace g.
Proof.
  intros [Hl H09]. split.
  - intros ->. discriminate Hl.
  - eapply Forall_impl; [|exact H09]. intros c Hc.
    now apply is_09_not_space.
Qed.

Lemma group_shape_five_digits (g : str) : group_shape g -> five_digits g.
Proof. intros (n & off & _ & _ & _ & _ & Hl & H09 & _). now split. Qed.

Lemma raw_line_parse_back (groups : list str) :
  Forall (clean isspace) groups ->
  parse_groups_text (join SP groups ++ NL) = groups.
Proof.
  intros Hg. rewrite parse_groups_text_fields.
  apply Toks_fields, Toks_seps_after; [|apply isspace_NL].
  apply Toks_join_tokens; [apply isspace_SP | discriminate | assumption].
Qed.

(** X12: what [gen] writes to [groups_raw.txt], the groups joined by single
    spaces and a newline, is read back by [decode] under the same keys as
    the sanitized text, with [--mask-key] given or left to default to the
    key. *)
Theorem raw_file_roundtrip (text k m : str) :
  has_letter k -> has_letter m ->
  (exists gs,
     encrypt_to_groups text {| key := k; mask_key := m |} = Ok gs /\
     parse_groups_text (join SP gs ++ NL) = gs /\
     decode_plain (join SP gs ++ NL) k (Some m)
     = Ok (sanitize_plaintext text)) /\
  (exists gs,
     encrypt_to_groups text {| key := k; mask_key := k |} = Ok gs /\
     decode_plain (join SP gs ++ NL) k None
     = Ok (sanitize_plaintext text)).
Proof.
  intros Hk Hm.
  assert (R : forall m', has_letter m' ->
            exists gs,
              encrypt_to_groups text {| key := k; mask_key := m' |} = Ok gs /\
              parse_groups_text (join SP gs ++ NL) = gs /\
              decrypt_from_groups gs {| key := k; mask_key := m' |}
              = Ok (sanitize_plaintext text)).
  { intros m' Hm'.
    destruct (encrypt_to_groups_ok text {| key := k; mask_key := m' |}
                Hk Hm') as (gs & E & Hs & D).
    exists gs. split; [assumption|]. split.
    - apply raw_line_parse_back.
      eapply Forall_impl; [|exact Hs]. intros g Hg.
      now apply five_digits_clean, group_shape_five_digits.
    - rewrite decrypt_from_groups_spec by assumption.
      cbn [key mask_key] in D |- *. rewrite D. cbn [bind].
      rewrite shifted_inverse
        by (apply letters_to_nums_range, sanitize_plaintext_AZ).
      apply nums_to_letters_to_nums, sanitize_plaintext_AZ. }
  split.
  - destruct (R m Hm) as (gs & E & P & D). exists gs.
    split; [assumption|]. split; [assumption|].
    unfold decode_plain, try_except. cbn [bind]. now rewrite P.
  - destruct (R k Hk) as (gs & E & P & D). exists gs.
    split; [assumption|].
    unfold decode_plain, try_except. cbn [bind]. now rewrite P.
Qed.

(** *** Russian digit words *)

Ltac digit_cases d H :=
  apply is_09_bounds in H;
  assert (d = 48 \/ d = 49 \/ d = 50 \/ d = 51 \/ d = 52 \/
          d = 53 \/ d = 54 \/ d = 55 \/ d = 56 \/ d = 57)%N
    as [->|[->|[->|[->|[->|[->|[->|[->|[->| ->]]]]]]]]] by lia.

Lemma dict_getitem_digit (d : N) :
  is_09 d = true -> dict_getitem RUS_DIGIT_WORD [d] = Done (rus_word d).
Proof. intros H. digit_cases d H; reflexivity. Qed.

Lemma dict_get_rus_word (d : N) :
  is_09 d = true -> dict_get RUS_WORD_DIGIT (rus_word d) = Some [d].
Proof. intros H. digit_cases d H; reflexivity. Qed.

Lemma rus_word_capitals (d : N) :
  is_09 d = true ->
  rus_word d <> [] /\
  Forall (fun c => (1040 <= c <= 1071)%N) (rus_word d).
Proof.
  intros H. digit_cases d H;
    (split; [discriminate | repeat (constructor; [lia|]); constructor]).
Qed.

Lemma fmap_list_Done {A B : Type} (f : A -> fres B) (g : A -> B)
  (l : list A) :
  Forall (fun x => f x = Done (g x)) l ->
  fmap_list f l = Done (map g l).
Proof.
  induction 1 as [|x r Hx _ IH]; [reflexivity|].
  cbn [fmap_list map]. now rewrite Hx, IH.
Qed.

Lemma isdigit_09 (c : N) : is_09 c = true -> isdigit c = true.
Proof.
  intros H. unfold isdigit. rewrite H.
  apply is_09_bounds in H. unfold is_ascii. n_cases.
Qed.

Lemma filter_all_true {A : Type} (f : A -> bool) (l : list A) :
  Forall (fun x => f x = true) l -> filter f l = l.
Proof.
  induction 1 as [|x r Hx _ IH]; [reflexivity|].
  cbn [filter]. now rewrite Hx, IH.
Qed.

Lemma filter_all_false {A : Type} (f : A -> bool) (l : list A) :
  Forall (fun x => f x = false) l -> filter f l = [].
Proof.
  induction 1 as [|x r Hx _ IH]; [reflexivity|].
  cbn [filter]. now rewrite Hx.
Qed.

Lemma format_group_ru_digits (g : str) :
  all_09 g -> format_group_ru g = Done (render_ru g).
Proof.
  intros H09. unfold format_group_ru, strip.
  rewrite strip_by_none
    by (eapply Forall_impl; [|exact H09]; intros c Hc;
        now apply is_09_not_space).
  rewrite filter_all_true
    by (eapply Forall_impl; [|exact H09]; apply isdigit_09).
  rewrite (fmap_list_Done _ (fun s => rus_word (hd 0%N s))).
  - cbn [fbind]. now rewrite map_map.
  - apply Forall_map. eapply Forall_impl; [|exact H09].
    intros d Hd. now apply dict_getitem_digit.
Qed.

Lemma format_groups_ru_digits (groups : list str) (per_line : Z) :
  1 <= per_line -> Forall all_09 groups ->
  exists chunks,
    List.concat chunks = groups /\
    format_groups_ru groups per_line
    = Done (join NL (map (fun ch => join SP (map render_ru ch)) chunks)
            ++ NL).
Proof.
  intros Hp Hg. unfold format_groups_ru.
  replace (per_line <=? 0) with false by (symmetry; apply Z.leb_gt; lia).
  destruct (py_range_slices groups per_line Hp) as (idx & -> & Ec).
  cbn [fbind].
  exists (map (fun j => slice groups j (j + per_line)) idx).
  split; [assumption|].
  rewrite (fmap_list_Done _
             (fun i => join SP (map render_ru
                                  (slice groups i (i + per_line))))).
  - cbn [fbind]. now rewrite map_map.
  - rewrite <- Ec in Hg.
    apply (proj1 (Forall_concat all_09 _)) in Hg.
    apply (proj1 (Forall_map _ _ _)) in Hg.
    eapply Forall_impl; [|exact Hg]. intros i Hi. cbv beta in Hi.
    rewrite (fmap_list_Done _ render_ru); [reflexivity|].
    eapply Forall_impl; [|exact Hi]. apply format_group_ru_digits.
Qed.

(** Under [cyrillic_capitals] a capital letter is a word character that
    [upper] leaves alone, and neither a digit nor a space. *)
Lemma capital_facts (c : N) :
  cyrillic_capitals -> (1040 <= c <= 1071)%N ->
  not_word c = false /\ plain_char c /\ isspace c = false /\
  decimal c = None.
Proof.
  intros HC Hc. destruct (HC c (or_introl Hc)) as (Hu & Hw & Hd & Hs).
  unfold not_word, plain_char, is_word, upper_char, is_digit, decimal,
    isspace.
  replace (is_ascii c) with false by (unfold is_ascii; n_cases).
  rewrite Hu, Hw, Hd, Hs. repeat split.
Qed.

Lemma rus_word_clean (d : N) :
  cyrillic_capitals -> is_09 d = true -> clean not_word (rus_word d).
Proof.
  intros HC Hd. destruct (rus_word_capitals d Hd) as [Hne Hcap].
  split; [assumption|].
  eapply Forall_impl; [|exact Hcap]. intros c Hc.
  now apply capital_facts.
Qed.

Lemma Forall2_map_both {A B C : Type} (R : B -> C -> Prop)
  (f : A -> B) (g : A -> C) (l : list A) :
  Forall (fun x => R (f x) (g x)) l -> Forall2 R (map f l) (map g l).
Proof. induction 1; constructor; assumption. Qed.

Lemma not_word_DOT_SP : Forall (fun c => not_word c = true) (DOT ++ SP).
Proof. repeat constructor. Qed.

Lemma not_word_lit (s : str) :
  s = DOT \/ s = SP \/ s = NL -> Forall (fun c => not_word c = true) s.
Proof. intros [->|[->| ->]]; repeat constructor. Qed.

Lemma render_ru_Toks (g : str) :
  cyrillic_capitals -> all_09 g ->
  Toks not_word (render_ru g) (map rus_word g).
Proof.
  intros HC Hg. unfold render_ru.
  apply Toks_seps_after; [|apply not_word_lit; auto].
  apply Toks_join_tokens; [apply not_word_DOT_SP | discriminate|].
  apply Forall_map. eapply Forall_impl; [|exact Hg].
  intros d Hd. now apply rus_word_clean.
Qed.

Lemma flat_map_concat {A B : Type} (f : A -> list B) (ls : list (list A)) :
  flat_map f (List.concat ls)
  = List.concat (map (fun l => List.concat (map f l)) ls).
Proof.
  induction ls as [|l r IH]; [reflexivity|].
  cbn [List.concat map]. now rewrite flat_map_app, IH, flat_map_concat_map.
Qed.

Lemma text_ru_Toks (chunks : list (list str)) :
  cyrillic_capitals -> Forall (Forall all_09) chunks ->
  Toks not_word
    (join NL (map (fun ch => join SP (map render_ru ch)) chunks) ++ NL)
    (flat_map (map rus_word) (List.concat chunks)).
Proof.
  intros HC Hc.
  apply Toks_seps_after; [|apply not_word_lit; auto].
  rewrite flat_map_concat.
  apply Toks_join; [apply not_word_lit; auto | discriminate|].
  apply Forall2_map_both.
  eapply Forall_impl; [|exact Hc]. intros ch Hch. cbv beta.
  apply Toks_join; [apply not_word_lit; auto | discriminate|].
  apply Forall2_map_both.
  eapply Forall_impl; [|exact Hch]. intros g Hg.
  now apply render_ru_Toks.
Qed.

Lemma Forall_join (P : N -> Prop) (a : str) (l : list str) :
  Forall P a -> Forall (Forall P) l -> Forall P (join a l).
Proof.
  intros Ha. induction 1 as [|x r Hx Hr IH]; [constructor|].
  destruct r as [|y r']; [exact Hx|].
  change (join a (x :: y :: r')) with (x ++ a ++ join a (y :: r')).
  apply Forall_app. split; [assumption|].
  apply Forall_app. now split.
Qed.

Ltac word_text_chars :=
  repeat (apply Forall_cons; [unfold word_text_char; lia|]);
  apply Forall_nil.

Lemma render_ru_chars (g : str) :
  all_09 g -> Forall word_text_char (render_ru g).
Proof.
  intros Hg. unfold render_ru. apply Forall_app. split.
  - apply Forall_join.
    + word_text_chars.
    + apply Forall_map. eapply Forall_impl; [|exact Hg].
      intros d Hd. destruct (rus_word_capitals d Hd) as [_ Hc].
      eapply Forall_impl; [|exact Hc]. unfold word_text_char. tauto.
  - word_text_chars.
Qed.

Lemma text_ru_chars (chunks : list (list str)) :
  Forall (Forall all_09) chunks ->
  Forall word_text_char
    (join NL (map (fun ch => join SP (map render_ru ch)) chunks) ++ NL).
Proof.
  intros Hc. apply Forall_app. split.
  - apply Forall_join.
    + word_text_chars.
    + apply Forall_map. eapply Forall_impl; [|exact Hc].
      intros ch Hch. apply Forall_join.
      * word_text_chars.
      * apply Forall_map. eapply Forall_impl; [|exact Hch].
        apply render_ru_chars.
  - word_text_chars.
Qed.

Lemma word_text_char_plain (c : N) :
  cyrillic_capitals -> word_text_char c -> plain_char c.
Proof.
  intros HC [->|[->|[->|Hc]]]; try (split; reflexivity).
  now apply capital_facts.
Qed.

Lemma upper_plain (s : str) : Forall plain_char s -> upper s = s.
Proof.
  induction 1 as [|c r [Hc _] _ IH]; [reflexivity|].
  unfold upper in *. cbn [flat_map]. now rewrite Hc, IH.
Qed.

Lemma no_digits_plain (s : str) :
  Forall plain_char s -> findall_digit s = [].
Proof.
  intros H. unfold findall_digit. rewrite filter_all_false; [reflexivity|].
  eapply Forall_impl; [|exact H]. now intros c [_ Hc].
Qed.

Lemma word_loop_step (d : N) (r digits_buf groups_out : list str) :
  is_09 d = true ->
  word_loop (rus_word d :: r) digits_buf groups_out
  = (let (b, o) := flush_loop (List.length (digits_buf ++ [[d]]))
                     (digits_buf ++ [[d]]) groups_out in
     word_loop r b o).
Proof.
  intros Hd. cbn [word_loop]. now rewrite dict_get_rus_word.
Qed.

Lemma word_loop_group (g : str) (rest groups_out : list str) :
  five_digits g ->
  word_loop (map rus_word g ++ rest) [] groups_out
  = word_loop rest [] (groups_out ++ [g]).
Proof.
  intros [Hl H09].
  destruct g as [|d1 [|d2 [|d3 [|d4 [|d5 [|d6 g']]]]]];
    try discriminate Hl.
  - inversion H09 as [|? ? H1 T1]; subst.
    inversion T1 as [|? ? H2 T2]; subst.
    inversion T2 as [|? ? H3 T3]; subst.
    inversion T3 as [|? ? H4 T4]; subst.
    inversion T4 as [|? ? H5 _]; subst.
    cbn [map app].
    rewrite word_loop_step by assumption. cbn [app List.length flush_loop].
    change (5 <=? len [[d1]]) with false. cbv iota.
    rewrite word_loop_step by assumption. cbn [app List.length flush_loop].
    change (5 <=? len [[d1]; [d2]]) with false. cbv iota.
    rewrite word_loop_step by assumption. cbn [app List.length flush_loop].
    change (5 <=? len [[d1]; [d2]; [d3]]) with false. cbv iota.
    rewrite word_loop_step by assumption. cbn [app List.length flush_loop].
    change (5 <=? len [[d1]; [d2]; [d3]; [d4]]) with false. cbv iota.
    rewrite word_loop_step by assumption. cbn [app List.length flush_loop].
    change (5 <=? len [[d1]; [d2]; [d3]; [d4]; [d5]]) with true. cbv iota.
    cbn [skipn firstn List.concat app].
    change (5 <=? len (@nil str)) with false. cbv iota. reflexivity.
  - rewrite !len_cons in Hl. pose proof (len_nonneg g'). lia.
Qed.

Lemma word_loop_groups (groups : list str) :
  Forall five_digits groups ->
  forall groups_out,
    word_loop (flat_map (map rus_word) groups) [] groups_out
    = ([], groups_out ++ groups).
Proof.
  induction 1 as [|g r Hg _ IH]; intros groups_out.
  - cbn. now rewrite app_nil_r.
  - cbn [flat_map]. rewrite word_loop_group, IH by assumption.
    now rewrite <- app_assoc.
Qed.

Lemma five_digits_all_09 (groups : list str) :
  Forall five_digits groups -> Forall all_09 groups.
Proof. apply Forall_impl. now intros g [_ H]. Qed.

(** The word path of [parse_groups_maybe_ru] on a text without digits
    whose words are the digit words of [groups]. *)
Lemma parse_word_text (text : str) (groups : list str) :
  Forall plain_char text ->
  Toks not_word text (flat_map (map rus_word) groups) ->
  Forall five_digits groups ->
  parse_groups_maybe_ru text
  = if len groups =? 0 then Raise (ValueError NoGroups) else Ok groups.
Proof.
  intros Hp Ht Hg. unfold parse_groups_maybe_ru.
  rewrite no_digits_plain by assumption.
  change (5 <=? len (@nil str)) with false. cbv iota.
  rewrite upper_plain by assumption.
  unfold re_split. rewrite re_split_fields by discriminate.
  fold not_word. rewrite (Toks_fields _ _ _ Ht).
  rewrite word_loop_groups by assumption. cbn [app].
  reflexivity.
Qed.

(** X13: [format_groups_ru] then [parse_groups_maybe_ru]: when the character
    tables know the Cyrillic capitals, a non-empty list of groups of five
    ASCII digits, laid out as Russian digit words with at least one group
    to the line, is read back as it was. An empty list is laid out as a
    single newline, which is not read back but raises "No groups could be
    parsed"; and [per_line <= 0] raises "per_line must be >= 1". *)
Theorem russian_words_roundtrip (groups : list str) (per_line : Z) :
  (cyrillic_capitals -> 1 <= per_line ->
   Forall five_digits groups -> groups <> [] ->
   exists text,
     format_groups_ru groups per_line = Done text /\
     parse_groups_maybe_ru text = Ok groups) /\
  (1 <= per_line ->
   format_groups_ru [] per_line = Done NL /\
   parse_groups_maybe_ru NL = Raise (ValueError NoGroups)) /\
  (per_line <= 0 -> format_groups_ru groups per_line = Fail PerLineNotPositive).
Proof.
  split; [|split].
  - intros HC Hp Hg Hne.
    destruct (format_groups_ru_digits groups per_line Hp
                (five_digits_all_09 groups Hg)) as (chunks & Ec & ->).
    eexists. split; [reflexivity|].
    assert (Hch : Forall (Forall all_09) chunks)
      by (apply Forall_concat; rewrite Ec; now apply five_digits_all_09).
    rewrite (parse_word_text _ groups).
    + destruct (Z.eqb_spec (len groups) 0) as [E|_]; [|reflexivity].
      now apply len_zero_nil in E.
    + eapply Forall_impl; [|apply text_ru_chars; exact Hch].
      intros c. now apply word_text_char_plain.
    + rewrite <- Ec. now apply text_ru_Toks.
    + assumption.
  - intros Hp. split; [|reflexivity].
    unfold format_groups_ru.
    replace (per_line <=? 0) with false by (symmetry; apply Z.leb_gt; lia).
    unfold py_range.
    now replace (per_line =? 0) with false by (symmetry; apply Z.eqb_neq; lia).
  - intros Hp. unfold format_groups_ru.
    now replace (per_line <=? 0) with true by (symmetry; apply Z.leb_le; lia).
Qed.

(** *** Digit words are not read by [decode] *)

Lemma join_dots (ws : list str) :
  ws <> [] ->
  join (DOT ++ SP) ws ++ DOT = join SP (map (fun w => w ++ DOT) ws).
Proof.
  induction ws as [|w r IH]; [congruence|]. intros _.
  destruct r as [|w' r']; [reflexivity|].
  change (join (DOT ++ SP) (w :: w' :: r'))
    with (w ++ (DOT ++ SP) ++ join (DOT ++ SP) (w' :: r')).
  change (map (fun w => w ++ DOT) (w :: w' :: r'))
    with ((w ++ DOT) :: map (fun w => w ++ DOT) (w' :: r')).
  change (join SP ((w ++ DOT) :: map (fun w => w ++ DOT) (w' :: r')))
    with ((w ++ DOT) ++ SP ++ join SP (map (fun w => w ++ DOT) (w' :: r'))).
  rewrite <- IH by discriminate. now rewrite <- !app_assoc.
Qed.

Lemma dot_word_clean (d : N) :
  cyrillic_capitals -> is_09 d = true -> clean isspace (dot_word d).
Proof.
  intros HC Hd. destruct (rus_word_capitals d Hd) as [Hne Hcap].
  unfold dot_word. split.
  - intros E. apply app_eq_nil in E. tauto.
  - apply Forall_app. split; [|repeat constructor].
    eapply Forall_impl; [|exact Hcap]. intros c Hc.
    now apply capital_facts.
Qed.

Lemma render_ru_Toks_space (g : str) :
  cyrillic_capitals -> five_digits g ->
  Toks isspace (render_ru g) (map dot_word g).
Proof.
  intros HC [Hl H09]. unfold render_ru.
  rewrite join_dots by (destruct g; [discriminate Hl | discriminate]).
  rewrite map_map. fold dot_word.
  change (fun x => rus_word x ++ DOT) with dot_word.
  apply Toks_join_tokens; [apply isspace_SP | discriminate|].
  apply Forall_map. eapply Forall_impl; [|exact H09].
  intros d Hd. now apply dot_word_clean.
Qed.

Lemma text_ru_Toks_space (chunks : list (list str)) :
  cyrillic_capitals -> Forall (Forall five_digits) chunks ->
  Toks isspace
    (join NL (map (fun ch => join SP (map render_ru ch)) chunks) ++ NL)
    (flat_map (map dot_word) (List.concat chunks)).
Proof.
  intros HC Hc.
  apply Toks_seps_after; [|apply isspace_NL].
  rewrite flat_map_concat.
  apply Toks_join; [apply isspace_NL | discriminate|].
  apply Forall2_map_both.
  eapply Forall_impl; [|exact Hc]. intros ch Hch. cbv beta.
  apply Toks_join; [apply isspace_SP | discriminate|].
  apply Forall2_map_both.
  eapply Forall_impl; [|exact Hch]. intros g Hg.
  now apply render_ru_Toks_space.
Qed.

Lemma strip_by_ends (sp : N -> bool) (c : N) (r : str) (z : N) :
  sp c = false -> sp z = false ->
  strip_by sp (c :: r ++ [z]) = c :: r ++ [z].
Proof.
  intros Hc Hz. unfold strip_by. cbn [lstrip_by]. rewrite Hc.
  change (c :: r ++ [z]) with ((c :: r) ++ [z]).
  rewrite rev_app_distr. cbn [rev app lstrip_by]. rewrite Hz.
  change (z :: rev r ++ [c]) with ([z] ++ rev (c :: r)).
  now rewrite rev_app_distr, rev_involutive.
Qed.

Lemma dot_word_not_int (d : N) :
  cyrillic_capitals -> is_09 d = true ->
  blank (dot_word d) = false /\ py_int (dot_word d) = None.
Proof.
  intros HC Hd. destruct (rus_word_capitals d Hd) as [Hne Hcap].
  unfold dot_word, DOT, blank, py_int, strip.
  destruct (rus_word d) as [|c r]; [congruence|].
  inversion Hcap as [|? ? Hc _]; subst.
  destruct (capital_facts c HC Hc) as (_ & _ & Hs & Hdec).
  assert (Hi : int_isspace c = false).
  { unfold int_isspace. unfold isspace in Hs.
    replace (is_ascii c) with false in * by (unfold is_ascii; n_cases).
    exact Hs. }
  cbn [app]. rewrite !strip_by_ends by (assumption || reflexivity).
  split; [reflexivity|].
  replace (c =? 45)%N with false by n_cases.
  replace (c =? 43)%N with false by n_cases.
  unfold int_body. replace (c =? 95)%N with false by n_cases.
  destruct (INT_MAX_STR_DIGITS <? _); [reflexivity|].
  cbn [int_digits]. replace (c =? 95)%N with false by n_cases.
  now rewrite Hdec.
Qed.

Lemma decode_groups_first_invalid (g : str) (rest : list str) (mk : str) :
  encodable mk -> blank g = false -> py_int g = None ->
  decode_groups (g :: rest) mk = Raise (Uvb76GenError (InvalidGroup g)).
Proof.
  intros Hm Hb Hi. unfold decode_groups.
  rewrite decode_flat_spec, (seed32_encodable mk Hm),
    tokens_cons_token by assumption.
  cbn [bind decode_spec]. now rewrite Hi.
Qed.

(** X14: [decode] never reaches its fallback parser, because the first parser
    cannot raise; so a text of Russian digit words, as [gen] writes it to
    [groups.txt], is split at blanks into the words with their full
    stops, and decoding raises "Invalid group" on the first of them. *)
Theorem digit_words_not_decoded
  (groups : list str) (per_line : Z) (k : str) (mask : option str)
  (d : N) (g : str) (rest : list str) :
  cyrillic_capitals -> 1 <= per_line ->
  Forall five_digits groups -> groups = (d :: g) :: rest ->
  has_letter k ->
  has_letter (match mask with Some m => m | None => k end) ->
  exists text,
    format_groups_ru groups per_line = Done text /\
    parse_groups_text text = flat_map (map dot_word) groups /\
    decode_plain text k mask
    = Raise (Uvb76GenError (InvalidGroup (dot_word d))).
Proof.
  intros HC Hp Hg Eg Hk Hm.
  destruct (format_groups_ru_digits groups per_line Hp
              (five_digits_all_09 groups Hg)) as (chunks & Ec & ->).
  eexists. split; [reflexivity|].
  assert (Hch : Forall (Forall five_digits) chunks)
    by (apply Forall_concat; now rewrite Ec).
  assert (P : parse_groups_text
                (join NL (map (fun ch => join SP (map render_ru ch)) chunks)
                 ++ NL)
              = flat_map (map dot_word) groups).
  { rewrite parse_groups_text_fields, <- Ec.
    now apply Toks_fields, text_ru_Toks_space. }
  split; [exact P|].
  unfold decode_plain, try_except. cbn [bind]. rewrite P.
  rewrite decrypt_from_groups_spec by assumption.
  cbn [key mask_key]. rewrite Eg. cbn [flat_map map app].
  assert (Hd : is_09 d = true).
  { rewrite Eg in Hg. inversion Hg as [|? ? [_ H09] _]; subst.
    now inversion H09. }
  destruct (dot_word_not_int d HC Hd) as [Hb Hi].
  now rewrite decode_groups_first_invalid
    by (assumption || apply sanitized_encodable).
Qed.

(** *** Digits among other characters *)

Lemma filter_flat_map {A B : Type} (f : B -> bool) (g : A -> list B)
  (l : list A) :
  filter f (flat_map g l) = flat_map (fun x => filter f (g x)) l.
Proof.
  induction l as [|x r IH]; [reflexivity|].
  cbn [flat_map]. now rewrite filter_app, IH.
Qed.

Lemma flat_map_nil {A B : Type} (g : A -> list B) (l : list A) :
  Forall (fun x => g x = []) l -> flat_map g l = [].
Proof.
  induction 1 as [|x r Hx _ IH]; [reflexivity|].
  cbn [flat_map]. now rewrite Hx, IH.
Qed.

Lemma filter_strip (f sp : N -> bool) (s : str) :
  (forall c, In c s -> sp c = true -> f c = false) ->
  filter f (strip_by sp s) = filter f s.
Proof.
  intros H.
  destruct (strip_by_split sp s) as (pre & post & E & Hpre & Hpost).
  rewrite E at 2. rewrite !filter_app.
  assert (In_pre : forall c, In c pre -> In c s)
    by (intros c Hc; rewrite E; apply in_or_app; now left).
  assert (In_post : forall c, In c post -> In c s)
    by (intros c Hc; rewrite E; apply in_or_app; right;
        apply in_or_app; now right).
  rewrite (filter_all_false f pre), (filter_all_false f post).
  - now rewrite app_nil_r.
  - apply Forall_forall. intros c Hc. apply H; [now apply In_post|].
    rewrite Forall_forall in Hpost. now apply Hpost.
  - apply Forall_forall. intros c Hc. apply H; [now apply In_pre|].
    rewrite Forall_forall in Hpre. now apply Hpre.
Qed.

(** X15: [format_group_ru] ignores everything but the digits: on a group in
    which [isdigit] accepts no character above U+007F it returns the
    words of its ASCII digits, in order, whatever else the group holds;
    the empty rendering is a lone full stop. *)
Theorem format_group_ru_ignores (group : str) :
  Forall (fun c => is_ascii c = true \/ unicode_isdigit c = false) group ->
  format_group_ru group = Done (render_ru (filter is_09 group)) /\
  (filter is_09 group = [] -> format_group_ru group = Done DOT).
Proof.
  intros H.
  assert (E : filter isdigit (strip group) = filter is_09 group).
  { unfold strip. rewrite filter_strip.
    - apply filter_ext_in. intros c Hc. rewrite Forall_forall in H.
      unfold isdigit. destruct (H c Hc) as [-> | Hn]; [reflexivity|].
      destruct (is_ascii c) eqn:Ha; [reflexivity|].
      rewrite Hn. unfold is_09, is_ascii in *. revert Ha. n_cases.
    - intros c Hc Hs. rewrite Forall_forall in H. unfold isdigit.
      destruct (H c Hc) as [Ha | Hn].
      + rewrite Ha. unfold isspace in Hs. rewrite Ha in Hs.
        unfold is_09. revert Hs. n_cases.
      + destruct (is_ascii c) eqn:Ha; [|exact Hn].
        unfold isspace in Hs. rewrite Ha in Hs.
        unfold is_09. revert Hs. n_cases. }
  assert (F : format_group_ru group = Done (render_ru (filter is_09 group))).
  { unfold format_group_ru. rewrite E.
    rewrite (fmap_list_Done _ (fun s => rus_word (hd 0%N s))).
    - cbn [fbind]. unfold render_ru. now rewrite map_map.
    - apply Forall_map. apply Forall_forall. intros d Hd.
      apply filter_In in Hd as [_ Hd]. now apply dict_getitem_digit. }
  split; [exact F|]. intros E0. now rewrite F, E0.
Qed.

(** *** Codewords of a key *)

Lemma dict_get_codeword (c : N) :
  is_AZ c = true ->
  dict_get RU_CODEWORDS [c] = Some (codeword c) /\ codeword c <> [].
Proof.
  intros H. apply is_AZ_bounds in H.
  assert (A : forallb
                (fun n => match dict_get RU_CODEWORDS [N.of_nat n] with
                          | Some (_ :: _) => true
                          | _ => false
                          end) (seq 65 26) = true) by reflexivity.
  rewrite forallb_forall in A.
  specialize (A (N.to_nat c)). rewrite N2Nat.id in A.
  unfold codeword.
  destruct (dict_get RU_CODEWORDS [c]) as [[|x w]|];
    try (discriminate A; apply in_seq; lia).
  split; [reflexivity | discriminate].
Qed.

Lemma AZ_upper_strip (k : str) :
  spaces_are_caseless ->
  AZ_RE_sub_empty (upper (strip k)) = AZ_RE_sub_empty (upper k).
Proof.
  intros HS. unfold strip.
  destruct (strip_by_split isspace k) as (pre & post & E & Hpre & Hpost).
  rewrite E at 2. unfold upper, AZ_RE_sub_empty.
  rewrite !flat_map_app, !filter_app, !filter_flat_map.
  rewrite (flat_map_nil _ pre), (flat_map_nil _ post).
  - now rewrite app_nil_r.
  - eapply Forall_impl; [|exact Hpost]. intros c Hc. now apply HS.
  - eapply Forall_impl; [|exact Hpre]. intros c Hc. now apply HS.
Qed.

Lemma codewords_of_letters (s : str) :
  flat_map
    (fun ch =>
       if is_AZ ch then
         match dict_get RU_CODEWORDS [ch] with
         | Some w => [w]
         | None => []
         end
       else []) s
  = map codeword (filter is_AZ s).
Proof.
  induction s as [|c r IH]; [reflexivity|].
  cbn [flat_map filter]. rewrite IH.
  destruct (is_AZ c) eqn:Hc; [|reflexivity].
  destruct (dict_get_codeword c Hc) as [-> _]. reflexivity.
Qed.

(** X16: [codewords_from_key] gives one codeword, never empty, for each letter
    of the sanitized key, in order; so it returns the empty list exactly
    when the key has no letter A-Z, which is when [encrypt_to_groups]
    raises: after a successful encryption the codewords are never
    missing. It is assumed that no space turns into a letter under
    [upper]. *)
Theorem codewords_per_letter (k m text : str) :
  spaces_are_caseless ->
  codewords_from_key k = map codeword (sanitize_plaintext k) /\
  len (codewords_from_key k) = len (sanitize_plaintext k) /\
  Forall (fun w => w <> []) (codewords_from_key k) /\
  (codewords_from_key k = [] <-> ~ has_letter k) /\
  ((exists gs, encrypt_to_groups text {| key := k; mask_key := m |} = Ok gs)
   -> codewords_from_key k <> []).
Proof.
  intros HS.
  assert (E : codewords_from_key k = map codeword (sanitize_plaintext k)).
  { unfold codewords_from_key, sanitize_plaintext.
    rewrite codewords_of_letters. fold (AZ_RE_sub_empty (upper (strip k))).
    now rewrite AZ_upper_strip. }
  assert (N0 : codewords_from_key k = [] <-> ~ has_letter k).
  { rewrite E. unfold has_letter, sanitize_plaintext.
    destruct (AZ_RE_sub_empty (upper k)); cbn [map]; split; intros H;
      try reflexivity; try discriminate.
    - intros H'. now apply H'.
    - exfalso. apply H. discriminate. }
  split; [exact E|]. split; [|split; [|split]].
  - rewrite E. unfold len. now rewrite length_map.
  - rewrite E. apply Forall_map.
    eapply Forall_impl; [|apply sanitize_plaintext_AZ].
    intros c Hc. now apply dict_get_codeword.
  - exact N0.
  - intros (gs & Egs) H0. apply N0 in H0.
    unfold encrypt_to_groups in Egs. cbn [key] in Egs.
    now rewrite (sanitize_key_raise k H0) in Egs.
Qed.

(** *** What [parse_groups_text] keeps *)

Lemma fields_concat (sep : N -> bool) (s : str) :
  forall cur,
    List.concat (fields sep s cur)
    = rev cur ++ filter (fun c => negb (sep c)) s.
Proof.
  induction s as [|c r IH]; intros cur.
  - cbn [fields filter]. rewrite app_nil_r.
    destruct cur; [reflexivity|]. cbn [List.concat]. apply app_nil_r.
  - cbn [fields filter]. destruct (sep c); cbn [negb].
    + destruct cur as [|d cur']; [apply IH|].
      cbn [List.concat]. rewrite IH. reflexivity.
    + rewrite IH. cbn [rev]. now rewrite <- app_assoc.
Qed.

(** X10: [parse_groups_text] cuts the text at its blanks and nowhere else:
    every token it returns is non-empty and free of blanks, the tokens
    put end to end are the text with its blanks taken out, a text of
    blanks only gives no token, and tokens joined by single spaces are
    parsed back as themselves. *)
Theorem parse_groups_text_tokens (text : str) :
  Forall (clean isspace) (parse_groups_text text) /\
  List.concat (parse_groups_text text)
  = filter (fun c => negb (isspace c)) text /\
  (Forall (fun c => isspace c = true) text -> parse_groups_text text = []) /\
  parse_groups_text (join SP (parse_groups_text text))
  = parse_groups_text text.
Proof.
  rewrite !parse_groups_text_fields.
  assert (C : Forall (clean isspace) (fields isspace text []))
    by (apply fields_clean; constructor).
  split; [exact C|]. split; [apply fields_concat|]. split.
  - intros H. rewrite <- (app_nil_r text).
    now rewrite fields_seps.
  - apply Toks_fields, Toks_join_tokens;
      [apply isspace_SP | discriminate | exact C].
Qed.

(** *** The parser [decode] applies *)

(** C8, as the code has it: the parser that [decode] applies to the text
    is [parse_groups_text], and it only cuts the text at its blanks. It
    returns the non-empty runs between blanks as they are written,
    whatever their length: put end to end they are the text without its
    blanks, tokens joined by single spaces come back as themselves, the
    digits are never regrouped into runs of five and no text makes it
    fail, so [decode] decrypts these tokens and its [except] branch is not
    taken. Concatenating all the digits, chunking them into runs of five
    and failing when the digits left over are not a whole run is what
    [parse_groups_maybe_ru] does on a text of five digits or more. *)
Theorem parse_groups_consumed
  (text k : str) (mask : option str) (ts : list str) :
  parse_groups_text text = fields isspace text [] /\
  Forall (clean isspace) (parse_groups_text text) /\
  List.concat (parse_groups_text text)
  = filter (fun c => negb (isspace c)) text /\
  (Forall (clean isspace) ts -> parse_groups_text (join SP ts) = ts) /\
  decode_plain text k mask
  = decrypt_from_groups (parse_groups_text text)
      {| key := k;
         mask_key := match mask with Some m => m | None => k end |} /\
  (5 <= len (filter is_digit text) ->
   len (filter is_digit text) mod 5 = 0 ->
   parse_groups_maybe_ru text = Ok (chunks5 (filter is_digit text)) /\
   List.concat (chunks5 (filter is_digit text)) = filter is_digit text /\
   Forall (fun g => len g = 5) (chunks5 (filter is_digit text))) /\
  (5 <= len (filter is_digit text) ->
   len (filter is_digit text) mod 5 <> 0 ->
   parse_groups_maybe_ru text = Raise (ValueError TrailingDigits)).
Proof.
  destruct (parse_groups_maybe_ru_chunks text) as (Hc & Hr & _).
  rewrite !parse_groups_text_fields.
  split; [reflexivity|].
  split; [apply fields_clean; constructor|].
  split; [apply fields_concat|].
  split; [|split; [|split; assumption]].
  - intros Hts.
    apply Toks_fields, Toks_join_tokens;
      [apply isspace_SP | discriminate | exact Hts].
  - unfold decode_plain, try_except. cbn [bind].
    now rewrite parse_groups_text_fields.
Qed.

End Pipeline.

(** ** Evaluation on ASCII text

    From here on the runtime is [ascii_runtime]. *)

#[local] Existing Instance ascii_runtime.

(** [tests/test_roundtrip.py] *)
Example test_roundtrip :
  encrypt_to_groups (lit "IF YOU SOLVE THIS, EMAIL ME") BUZZERKEY
  = Ok (map lit ["35772"; "55390"; "92568"; "15170"; "14057"; "69053";
                 "81630"]%string) /\
  decrypt_from_groups
    (map lit ["35772"; "55390"; "92568"; "15170"; "14057"; "69053";
              "81630"]%string) BUZZERKEY
  = Ok (lit "IFYOUSOLVETHISEMAILME").
Proof. split; vm_compute; reflexivity. Qed.

(** [crypto.parse_groups_text] only splits at blanks: it neither regroups
    the digits nor fails. *)
Example parse_groups_text_splits :
  parse_groups_text (lit " 1234 56789  0 ")
  = map lit ["1234"; "56789"; "0"]%string.
Proof. vm_compute. reflexivity. Qed.

Lemma pipeline_roundtrip_witness :
  has_letter (lit "BUZZERKEY") /\
  exists gs,
    encrypt_to_groups (lit "IF YOU SOLVE THIS, EMAIL ME") BUZZERKEY = Ok gs /\
    decrypt_from_groups gs BUZZERKEY
    = Ok (sanitize_plaintext (lit "IF YOU SOLVE THIS, EMAIL ME")).
Proof.
  assert (H : has_letter (lit "BUZZERKEY")) by (vm_compute; discriminate).
  split; [exact H|].
  exact (pipeline_roundtrip (lit "IF YOU SOLVE THIS, EMAIL ME")
           (lit "BUZZERKEY") (lit "BUZZERKEY") H H).
Defined.

(** C2 as stated fails on a mask key that UTF-8 cannot encode: with the
    lone surrogate U+D800 as the mask key, [encode_groups] raises
    [UnicodeEncodeError] on the symbols [8; 5] instead of returning. *)
Lemma groups_roundtrip_counterexample :
  Forall (fun v => 0 <= v <= 25) [8; 5] /\
  encode_groups [8; 5] [55296%N] = Raise UnicodeEncodeError /\
  decode_groups [] [55296%N] = Raise UnicodeEncodeError.
Proof.
  split; [repeat (constructor; [lia|]); constructor|].
  split; reflexivity.
Qed.

Lemma groups_roundtrip_witness :
  Forall (fun v => 0 <= v <= 25) [8; 5; 24; 14] /\
  exists gs,
    encode_groups [8; 5; 24; 14] (lit "BUZZERKEY") = Ok gs /\
    decode_groups gs (lit "BUZZERKEY") = Ok [8; 5; 24; 14].
Proof.
  assert (H : Forall (fun v => 0 <= v <= 25) [8; 5; 24; 14])
    by (repeat (constructor; [lia|]); constructor).
  split; [exact H|].
  apply (proj1 (groups_roundtrip [8; 5; 24; 14] (lit "BUZZERKEY") H)).
  reflexivity.
Defined.

Lemma vigenere_roundtrip_witness :
  exists c,
    vigenere_encrypt [8; 5; 24; 14] [1; 20; 25] = Ok c /\
    vigenere_decrypt c [1; 20; 25] = Ok [8; 5; 24; 14].
Proof.
  destruct (vigenere_roundtrip [8; 5; 24; 14] [1; 20; 25])
    as (c & E & _ & _ & D & _).
  - repeat (constructor; [lia|]); constructor.
  - repeat (constructor; [lia|]); constructor.
  - discriminate.
  - exists c. split; assumption.
Defined.

Lemma groups_are_five_digits_witness :
  Forall (fun v => 0 <= v <= 25) [8; 5; 24; 14] /\
  (exists gs, encode_groups [8; 5; 24; 14] (lit "BUZZERKEY") = Ok gs /\
              Forall group_shape gs) /\
  (exists gs, encrypt_to_groups (lit "Hello, world") BUZZERKEY = Ok gs /\
              Forall group_shape gs).
Proof.
  assert (H : Forall (fun v => 0 <= v <= 25) [8; 5; 24; 14])
    by (repeat (constructor; [lia|]); constructor).
  split; [exact H|].
  destruct (groups_are_five_digits [8; 5; 24; 14] (lit "BUZZERKEY")
              (lit "Hello, world") BUZZERKEY H) as (_ & A & B).
  split; [apply A; reflexivity|].
  apply B; vm_compute; discriminate.
Defined.

Lemma triplet_out_of_range_witness :
  _seed32 (lit "BUZZERKEY") = Ok 4180544055 /\
  decode_group (lit "35772") (xorshift32 4180544055, [])
  = Ok (snd (next (xorshift32 4180544055)),
        [] ++ [7259 / 729; (7259 / 27) mod 27; 7259 mod 27]) /\
  decode_group (lit "00042") (xorshift32 4180544055, [])
  = Raise (Uvb76GenError (TripletOutOfRange (lit "00042"))) /\
  decode_groups [lit "35772"; lit " "; lit "00042"] (lit "BUZZERKEY")
  = Raise (Uvb76GenError (TripletOutOfRange (lit "00042"))) /\
  encode_groups [9; 25; 23] (lit "BUZZERKEY")
  = Ok (encode_spec (pad_loop 2 [9; 25; 23]) (xorshift32 4180544055) 0).
Proof.
  assert (Hs : _seed32 (lit "BUZZERKEY") = Ok 4180544055)
    by (vm_compute; reflexivity).
  split; [exact Hs|]. split; [|split; [|split]].
  - destruct (triplet_out_of_range (lit "35772")
                (xorshift32 4180544055) [] [] [] (lit "BUZZERKEY"))
      as (_ & H & _).
    apply (H 35772 7259); [reflexivity | reflexivity | now vm_compute | lia].
  - destruct (triplet_out_of_range (lit "00042")
                (xorshift32 4180544055) [] [] [] (lit "BUZZERKEY"))
      as (H & _).
    apply H. split; [reflexivity|]. exists 42. split; [reflexivity|].
    left. now vm_compute.
  - destruct (triplet_out_of_range (lit "00042") 0 []
                [lit "35772"; lit " "; lit "00042"] [] (lit "BUZZERKEY"))
      as (_ & _ & H).
    destruct (H 4180544055 Hs) as (R & _ & _).
    apply R. exists [lit "35772"], [], [9; 25; 23], 42.
    split; [reflexivity|]. split; [vm_compute; reflexivity|].
    split; [reflexivity|]. left. now vm_compute.
  - destruct (triplet_out_of_range [] 0 [] [] [9; 25; 23] (lit "BUZZERKEY"))
      as (_ & _ & H).
    destruct (H 4180544055 Hs) as (_ & _ & E).
    apply E. repeat (constructor; [lia|]). constructor.
Defined.

(** C6 as stated fails on the group "-5": it is not blank and is not a
    non-negative integer in base 10, [int] reads it as -5, and the error
    raised is "triplet out of range", not "invalid group". *)
Lemma invalid_group_counterexample :
  blank (lit "-5") = false /\
  py_int (lit "-5") = Some (-5) /\
  decode_groups [lit "-5"] (lit "BUZZERKEY")
  = Raise (Uvb76GenError (TripletOutOfRange (lit "-5"))) /\
  decrypt_from_groups [lit "-5"] BUZZERKEY
  = Raise (Uvb76GenError (TripletOutOfRange (lit "-5"))).
Proof. repeat split; vm_compute; reflexivity. Qed.

Lemma invalid_group_iff_witness :
  decrypt_from_groups [lit "1234a"] BUZZERKEY
  = Raise (Uvb76GenError (InvalidGroup (lit "1234a"))) /\
  decode_group (lit "-5") (xorshift32 4180544055, [])
  = Raise (Uvb76GenError (TripletOutOfRange (lit "-5"))).
Proof.
  destruct (invalid_group_iff (lit "-5")
              (xorshift32 4180544055) [] BUZZERKEY)
    as (_ & N & _ & D).
  split.
  - apply D; vm_compute; discriminate.
  - apply (N (-5)); [reflexivity | reflexivity | lia].
Defined.

Lemma trailing_padding_only_witness :
  decode_flat [lit "35050"] (lit "BUZZERKEY") = Ok [8; 26; 3] /\
  pop_padding [8; 26; 3] = [8; 26; 3] /\
  decode_groups [lit "35050"] (lit "BUZZERKEY")
  = Raise (Uvb76GenError SymbolsOutOfRange).
Proof.
  assert (H : decode_flat [lit "35050"] (lit "BUZZERKEY") = Ok [8; 26; 3])
    by (vm_compute; reflexivity).
  split; [exact H|]. split; [reflexivity|].
  destruct (trailing_padding_only [lit "35050"] (lit "BUZZERKEY")
              [8; 26; 3] H) as (_ & _ & R & I & _).
  apply R, I. simpl. tauto.
Defined.

(** C8 as stated fails on the parser [decode] applies: of the digit
    tokens "1234 56789 0" it returns the three tokens as written, not the
    runs of five "12345" and "67890" of their digits, and on
    "34179 5501", whose digits leave an incomplete group of four, it does
    not fail but returns the two tokens, which [decode] goes on to
    decrypt without turning to the other parser. *)
Lemma parse_groups_counterexample :
  parse_groups_text (lit "1234 56789 0")
  = map lit ["1234"; "56789"; "0"]%string /\
  chunks5 (filter is_digit (lit "1234 56789 0"))
  = map lit ["12345"; "67890"]%string /\
  parse_groups_text (lit "34179 5501") = map lit ["34179"; "5501"]%string /\
  parse_groups_maybe_ru (lit "34179 5501") = Raise (ValueError TrailingDigits) /\
  decode_plain (lit "34179 5501") (lit "BUZZERKEY") None
  = decrypt_from_groups (map lit ["34179"; "5501"]%string) BUZZERKEY.
Proof. repeat split; vm_compute; reflexivity. Qed.

Lemma parse_groups_consumed_witness :
  parse_groups_text (join SP (map lit ["1234"; "56789"; "0"]%string))
  = map lit ["1234"; "56789"; "0"]%string /\
  parse_groups_maybe_ru (lit "34179 55014")
  = Ok (chunks5 (filter is_digit (lit "34179 55014"))) /\
  parse_groups_maybe_ru (lit "34179 5501")
  = Raise (ValueError TrailingDigits).
Proof.
  split; [|split].
  - destruct (parse_groups_consumed [] [] None
                (map lit ["1234"; "56789"; "0"]%string))
      as (_ & _ & _ & H & _).
    apply H.
    repeat (constructor;
            [split; [discriminate
                    | repeat (constructor; [reflexivity|]); constructor]|]).
    constructor.
  - destruct (parse_groups_consumed (lit "34179 55014") [] None [])
      as (_ & _ & _ & _ & _ & H & _).
    apply H; [now vm_compute | reflexivity].
  - destruct (parse_groups_consumed (lit "34179 5501") [] None [])
      as (_ & _ & _ & _ & _ & _ & H).
    apply H; [now vm_compute | now vm_compute].
Defined.

(** C9 as stated fails in two ways. The error raised quotes the group as
    it is written, so "42" in place of "00042" changes the error; and
    [int] refuses a spelling of more than 4300 digits, so "35772" written
    with 4296 zeros in front is an invalid group although it spells the
    same integer. *)
Lemma decode_depends_on_values_counterexample :
  decode_groups [lit "00042"] (lit "BUZZERKEY")
  = Raise (Uvb76GenError (TripletOutOfRange (lit "00042"))) /\
  decode_groups [lit "42"] (lit "BUZZERKEY")
  = Raise (Uvb76GenError (TripletOutOfRange (lit "42"))) /\
  decode_groups [lit "00042"] (lit "BUZZERKEY")
  <> decode_groups [lit "42"] (lit "BUZZERKEY") /\
  decode_groups [lit "35772"] (lit "BUZZERKEY") = Ok [9; 25; 23] /\
  dec_value (repeat 48%N 4296 ++ lit "35772") = 35772 /\
  decode_groups [repeat 48%N 4296 ++ lit "35772"] (lit "BUZZERKEY")
  = Raise (Uvb76GenError (InvalidGroup (repeat 48%N 4296 ++ lit "35772"))).
Proof.
  split; [vm_compute; reflexivity|].
  split; [vm_compute; reflexivity|].
  split; [vm_compute; discriminate|].
  split; [vm_compute; reflexivity|].
  split; vm_compute; reflexivity.
Qed.

Lemma decode_depends_on_values_witness :
  map py_int (tokens [lit "00042"])
  = map py_int (tokens [lit " "; lit "42"; lit ""]) /\
  outcome (decode_groups [lit "00042"] (lit "BUZZERKEY"))
  = outcome (decode_groups [lit " "; lit "42"; lit ""] (lit "BUZZERKEY")).
Proof.
  assert (H : map py_int (tokens [lit "00042"])
              = map py_int (tokens [lit " "; lit "42"; lit ""]))
    by reflexivity.
  split; [exact H|].
  exact (proj1 (decode_depends_on_values [lit "00042"]
                  [lit " "; lit "42"; lit ""] (lit "BUZZERKEY") H)).
Defined.

Lemma empty_message_witness :
  encrypt_to_groups (lit "123 ?!") BUZZERKEY = Ok [] /\
  decrypt_from_groups [] BUZZERKEY = Ok [] /\
  decrypt_from_groups [lit " "; lit ""] BUZZERKEY = Ok [].
Proof.
  destruct (empty_message (lit "123 ?!") [lit " "; lit ""] BUZZERKEY)
    as (E & D0 & D); [vm_compute; discriminate | vm_compute; discriminate |].
  split; [apply E; reflexivity|]. split; [exact D0|].
  apply D. repeat (constructor; [reflexivity|]). constructor.
Defined.

(** ** Evaluation of the further properties *)

Lemma ascii_spaces_are_caseless : spaces_are_caseless.
Proof.
  intros c Hc. unfold isspace, upper_char in *.
  destruct (is_ascii c) eqn:Ha; [|discriminate Hc].
  unfold is_az, AZ_RE_sub_empty, is_AZ. revert Hc. do 2 cp_cases.
Qed.

Lemma cyrillic_runtime_capitals : cyrillic_capitals (rt := cyrillic_runtime).
Proof.
  intros c Hc. cbn [unicode_upper unicode_isword unicode_decimal
                      unicode_isspace cyrillic_runtime].
  repeat split; destruct Hc as [Hc| ->]; try reflexivity; cp_cases.
Qed.

Lemma sanitize_idempotent_witness :
  sanitize_key (lit "buzzer key!") = Ok (lit "BUZZERKEY") /\
  sanitize_key (lit "BUZZERKEY") = Ok (lit "BUZZERKEY").
Proof.
  assert (H : sanitize_key (lit "buzzer key!") = Ok (lit "BUZZERKEY"))
    by reflexivity.
  split; [exact H|].
  exact (proj2 (proj2 (proj2 (sanitize_idempotent (lit "Hello")
                                (lit "buzzer key!") (lit "BUZZERKEY"))) H)).
Defined.

Lemma keys_checked_first_witness :
  encrypt_to_groups (lit "HELLO") {| key := lit "123"; mask_key := lit "A" |}
  = Raise (Uvb76GenError KeyMustContainLetter) /\
  decrypt_from_groups [lit "1234a"]
    {| key := lit "123"; mask_key := lit "A" |}
  = Raise (Uvb76GenError KeyMustContainLetter).
Proof.
  apply (keys_checked_first (lit "HELLO") [lit "1234a"]
           {| key := lit "123"; mask_key := lit "A" |}).
  intros [H _]. now apply H.
Defined.

Lemma vigenere_total_witness :
  (exists c p,
     vigenere_encrypt [100; -3] [7] = Ok c /\ len c = len [100; -3] /\
     Forall (fun v => 0 <= v <= 25) c /\
     vigenere_decrypt [100; -3] [7] = Ok p /\ len p = len [100; -3] /\
     Forall (fun v => 0 <= v <= 25) p) /\
  vigenere_encrypt [100; -3] [] = Raise ZeroDivisionError.
Proof.
  destruct (vigenere_total [100; -3] [7]) as (A & _).
  destruct (vigenere_total [100; -3] []) as (_ & B & _).
  split; [apply A; discriminate | apply B; discriminate].
Defined.

Lemma vigenere_other_way_witness :
  [1; 20; 25] <> [] /\
  exists e, vigenere_encrypt [100; -3] [1; 20; 25] = Ok e /\
            vigenere_decrypt e [1; 20; 25]
            = Ok (map (fun v => v mod 26) [100; -3]).
Proof.
  assert (H : [1; 20; 25] <> []) by discriminate.
  split; [exact H|].
  exact (proj2 (vigenere_other_way [3; 4] [100; -3] [1; 20; 25] H)).
Defined.

Lemma number_of_groups_witness :
  (exists gs,
     encode_groups [8; 5; 24; 14] (lit "BUZZERKEY") = Ok gs /\
     len gs = (len [8; 5; 24; 14] + 2) / 3) /\
  (exists gs,
     encrypt_to_groups (lit "IF YOU SOLVE THIS, EMAIL ME") BUZZERKEY = Ok gs /\
     len gs = (len (sanitize_plaintext (lit "IF YOU SOLVE THIS, EMAIL ME"))
               + 2) / 3).
Proof.
  destruct (number_of_groups [8; 5; 24; 14] (lit "BUZZERKEY")
              (lit "IF YOU SOLVE THIS, EMAIL ME") BUZZERKEY) as (_ & A & B).
  split.
  - apply A; [repeat (constructor; [lia|]); constructor | reflexivity].
  - apply B; vm_compute; discriminate.
Defined.

Lemma letters_nums_inverse_witness :
  nums_to_letters (letters_to_nums (lit "Hi, there")) = Ok (lit "Hi, there").
Proof.
  apply (letters_nums_inverse (lit "Hi, there") [] []).
  repeat (constructor; [reflexivity|]). constructor.
Defined.

Lemma decrypt_returns_letters_witness :
  decode_groups [lit "35772"] (lit "BUZZERKEY") = Ok [9; 25; 23] /\
  Forall (fun v => 0 <= v <= 25) [9; 25; 23].
Proof.
  assert (H : decode_groups [lit "35772"] (lit "BUZZERKEY") = Ok [9; 25; 23])
    by (vm_compute; reflexivity).
  split; [exact H|].
  exact (proj2 (decrypt_returns_letters [lit "35772"] BUZZERKEY
                  (lit "BUZZERKEY")) [9; 25; 23] H).
Defined.

Lemma wrong_key_unnoticed_witness :
  exists gs s,
    encrypt_to_groups (lit "IF YOU SOLVE THIS, EMAIL ME") BUZZERKEY = Ok gs /\
    decrypt_from_groups gs
      {| key := lit "WRONG"; mask_key := lit "BUZZERKEY" |} = Ok s /\
    len s = len (sanitize_plaintext (lit "IF YOU SOLVE THIS, EMAIL ME")).
Proof.
  assert (H1 : has_letter (lit "BUZZERKEY")) by (vm_compute; discriminate).
  assert (H2 : has_letter (lit "WRONG")) by (vm_compute; discriminate).
  destruct (wrong_key_unnoticed (lit "IF YOU SOLVE THIS, EMAIL ME")
              (lit "BUZZERKEY") (lit "WRONG") (lit "BUZZERKEY") H1 H2 H1)
    as (gs & s & E & D & _ & L & _).
  exists gs, s. split; [exact E|]. split; [exact D | exact L].
Defined.

Lemma format_groups_parse_back_witness :
  (exists text,
     format_groups [lit "34179"; lit "55014"; lit "00042"] 2 = Done text /\
     parse_groups_text text = [lit "34179"; lit "55014"; lit "00042"]) /\
  format_groups [lit "34179"; lit "55014"; lit "00042"] (-1) = Done NL.
Proof.
  destruct (format_groups_parse_back
              [lit "34179"; lit "55014"; lit "00042"] 2) as (A & _).
  destruct (format_groups_parse_back
              [lit "34179"; lit "55014"; lit "00042"] (-1)) as (_ & _ & B).
  split; [apply A | apply B]; try lia.
  repeat (constructor;
          [split; [discriminate
                  | repeat (constructor; [reflexivity|]); constructor]|]).
  constructor.
Defined.

Lemma raw_file_roundtrip_witness :
  exists gs,
    encrypt_to_groups (lit "IF YOU SOLVE THIS, EMAIL ME") BUZZERKEY = Ok gs /\
    decode_plain (join SP gs ++ NL) (lit "BUZZERKEY") None
    = Ok (sanitize_plaintext (lit "IF YOU SOLVE THIS, EMAIL ME")).
Proof.
  apply (raw_file_roundtrip (lit "IF YOU SOLVE THIS, EMAIL ME")
           (lit "BUZZERKEY") (lit "BUZZERKEY")); vm_compute; discriminate.
Defined.

Lemma russian_words_roundtrip_witness :
  exists text,
    format_groups_ru (rt := cyrillic_runtime) (fun _ => false)
      [lit "34179"; lit "55014"] 1 = Done text /\
    parse_groups_maybe_ru (rt := cyrillic_runtime) text
    = Ok [lit "34179"; lit "55014"].
Proof.
  apply (russian_words_roundtrip (rt := cyrillic_runtime) (fun _ => false)
           [lit "34179"; lit "55014"] 1).
  - exact cyrillic_runtime_capitals.
  - lia.
  - repeat (constructor;
            [split; [reflexivity
                    | repeat (constructor; [reflexivity|]); constructor]|]).
    constructor.
  - discriminate.
Defined.

Lemma digit_words_not_decoded_witness :
  exists text,
    format_groups_ru (rt := cyrillic_runtime) (fun _ => false)
      [lit "34179"; lit "55014"] 7 = Done text /\
    decode_plain (rt := cyrillic_runtime) text (lit "BUZZERKEY") None
    = Raise (Uvb76GenError (InvalidGroup (dot_word 51))).
Proof.
  destruct (digit_words_not_decoded (rt := cyrillic_runtime) (fun _ => false)
              [lit "34179"; lit "55014"] 7 (lit "BUZZERKEY") None
              51%N (lit "4179") [lit "55014"])
    as (text & F & _ & D).
  - exact cyrillic_runtime_capitals.
  - lia.
  - repeat (constructor;
            [split; [reflexivity
                    | repeat (constructor; [reflexivity|]); constructor]|]).
    constructor.
  - reflexivity.
  - vm_compute; discriminate.
  - vm_compute; discriminate.
  - exists text. split; assumption.
Defined.

Lemma format_group_ru_ignores_witness :
  format_group_ru (fun _ => false) (lit " 3-41x79 ")
  = Done (render_ru (lit "34179")).
Proof.
  apply (format_group_ru_ignores (fun _ => false) (lit " 3-41x79 ")).
  repeat (constructor; [now left|]). constructor.
Defined.

Lemma codewords_per_letter_witness :
  len (codewords_from_key (lit " Buzzer-key "))
  = len (sanitize_plaintext (lit " Buzzer-key ")).
Proof.
  apply (codewords_per_letter (lit " Buzzer-key ") (lit "A") (lit "HELLO")).
  exact ascii_spaces_are_caseless.
Defined.

Lemma parse_groups_text_tokens_witness :
  parse_groups_text (lit "     ") = [].
Proof.
  apply (proj1 (proj2 (proj2 (parse_groups_text_tokens (lit "     "))))).
  repeat (constructor; [reflexivity|]). constructor.
Defined.
